(** * Markov-chain linguistic steganography: the encoders and decoders of
    [thesis_toolkit.pyx], embedded as Rocq functions.

    Python values are modelled as follows.
    - [int] is [Z]; [len] returns a [Z].
    - The field [bitstream_length], declared [cdef int], holds the length
      of the payload narrowed to 32 bits ([c_int]).  The other [cdef int]
      fields hold an end key, a counter of steps or an index into the token
      list and are modelled as [Z]: they leave the range of a C [int] only
      on a text of 2^31 tokens or in a run of 2^31 steps.
    - [str] is a list of Unicode code points ([list Z]); [chr] and [ord]
      are the identity on code points, [chr] raising [ValueError] outside
      [0 .. 0x10FFFF].
    - A bitstream is a [str] over the two characters 0 and 1
      ([file_to_bitstream] joins the output of [np.unpackbits]); it is
      modelled as [list bool], most significant bit first.
    - A [dict] is an association list in insertion order; [d[k]] raises
      [KeyError] when [k] is absent.
    - A raised exception aborts the call: functions return [result]. *)

From Stdlib Require Import String Ascii.
From Stdlib Require Import List ZArith Lia Bool Sorted Permutation.
Import ListNotations.
Open Scope Z_scope.

(** ** Exceptions and the error monad *)

Inductive exn : Type :=
| KeyError | IndexError | ValueError | ZeroDivisionError
| AttributeError.

Inductive result (A : Type) : Type :=
| Ok (a : A)
| Err (e : exn).
Arguments Ok {A} a.
Arguments Err {A} e.

Definition bind {A B : Type} (c : result A) (k : A -> result B) : result B :=
  match c with
  | Ok a => k a
  | Err e => Err e
  end.

Notation "x <- c ;; k" := (bind c (fun x => k))
  (at level 61, c at next level, right associativity).
Notation "' p <- c ;; k" := (bind c (fun x => let p := x in k))
  (at level 61, p pattern, c at next level, right associativity).

Fixpoint mapM {A B : Type} (f : A -> result B) (l : list A) : result (list B) :=
  match l with
  | [] => Ok []
  | x :: xs => y <- f x ;; ys <- mapM f xs ;; Ok (y :: ys)
  end.

(** What a [step] method returns: an [int], [None], or the quotient of an
    integer division whose denominator is not zero (kept as the pair, since
    its value depends on the division mode the module is compiled with). *)
Inductive pyval : Type :=
| PyInt (z : Z)
| PyNone
| PyQuot (num den : Z).

Definition py_div (num den : Z) : result pyval :=
  if den =? 0 then Err ZeroDivisionError else Ok (PyQuot num den).

(** ** Strings, tuples and lists *)

Definition str : Type := list Z.

Definition lit (s : string) : str :=
  map (fun a => Z.of_nat (nat_of_ascii a)) (list_ascii_of_string s).

Fixpoint list_eqb {A : Type} (eqb : A -> A -> bool) (l1 l2 : list A) : bool :=
  match l1, l2 with
  | [], [] => true
  | x :: xs, y :: ys => eqb x y && list_eqb eqb xs ys
  | _, _ => false
  end.

Definition str_eqb : str -> str -> bool := list_eqb Z.eqb.
Definition bits_eqb : list bool -> list bool -> bool := list_eqb Bool.eqb.

(** A context ("gram") is a tuple of tokens. *)
Definition gram : Type := list str.
Definition gram_eqb : gram -> gram -> bool := list_eqb str_eqb.

Definition len {A : Type} (l : list A) : Z := Z.of_nat (List.length l).

(** [x in l] *)
Definition py_in {A : Type} (eqb : A -> A -> bool) (x : A) (l : list A) : bool :=
  existsb (eqb x) l.

(** [l.index(x)]: position of the first occurrence, [ValueError] if none. *)
Fixpoint py_index {A : Type} (eqb : A -> A -> bool) (x : A) (l : list A) : result Z :=
  match l with
  | [] => Err ValueError
  | y :: ys => if eqb y x then Ok 0 else i <- py_index eqb x ys ;; Ok (i + 1)
  end.

(** [t.count(x)] *)
Definition py_count {A : Type} (eqb : A -> A -> bool) (x : A) (l : list A) : Z :=
  len (filter (eqb x) l).

(** [l[i]], negative indices counting from the end. *)
Definition getitem {A : Type} (l : list A) (i : Z) : result A :=
  let j := if i <? 0 then i + len l else i in
  if j <? 0 then Err IndexError
  else match nth_error l (Z.to_nat j) with
       | Some x => Ok x
       | None => Err IndexError
       end.

Fixpoint replace_nth {A : Type} (n : nat) (x : A) (l : list A) : list A :=
  match l, n with
  | [], _ => []
  | _ :: ys, O => x :: ys
  | y :: ys, S k => y :: replace_nth k x ys
  end.

(** [l[i] = x] for an index already read with [getitem]. *)
Definition setitem {A : Type} (l : list A) (i : Z) (x : A) : list A :=
  let j := if i <? 0 then i + len l else i in
  replace_nth (Z.to_nat j) x l.

(** [l[:n]] and [l[n:]] *)
Definition slice_to {A : Type} (l : list A) (n : Z) : list A :=
  firstn (Z.to_nat (if n <? 0 then n + len l else n)) l.
Definition slice_from {A : Type} (l : list A) (n : Z) : list A :=
  skipn (Z.to_nat (if n <? 0 then n + len l else n)) l.

(** [chr] and [ord] *)
Definition chr (n : Z) : result Z :=
  if (0 <=? n) && (n <? 1114112) then Ok n else Err ValueError.
Definition ord (c : Z) : Z := c.

(** [int(s, 2)] on a string of binary digits. *)
Definition int2 (s : list bool) : result Z :=
  match s with
  | [] => Err ValueError
  | _ => Ok (fold_left (fun acc (b : bool) => 2 * acc + (if b then 1 else 0)) s 0)
  end.

(** [bin(n)[2:]] for [n >= 0] (the argument is always a list index). *)
Fixpoint bin_pos (p : positive) (acc : list bool) : list bool :=
  match p with
  | xH => true :: acc
  | xO q => bin_pos q (false :: acc)
  | xI q => bin_pos q (true :: acc)
  end.
Definition bin2 (n : Z) : list bool :=
  match n with
  | Zpos p => bin_pos p []
  | _ => [false]
  end.

(** [s.zfill(width)] on a string of binary digits. *)
Definition zfill (s : list bool) (width : Z) : list bool :=
  repeat false (Z.to_nat (width - len s)) ++ s.

(** [ceil(log2(n))]; [log2] raises [ValueError] at 0.  [math.log2] is a
    floating-point function, exact at the powers of two and monotone; the
    two lines that follow it in the source turn any value between
    [floor(log2 n)] and [floor(log2 n) + 1] into [floor(log2 n)], so the exact
    function is used here. *)
Definition ceil_log2 (n : Z) : result Z :=
  if n <=? 0 then Err ValueError else Ok (Z.log2_up n).

(** [text.split(" ")] *)
Fixpoint split_space (s : str) : list str :=
  match s with
  | [] => [[]]
  | c :: cs =>
      if c =? 32 then [] :: split_space cs
      else match split_space cs with
           | w :: ws => (c :: w) :: ws
           | [] => [[c]]
           end
  end.

(** [" ".join(tokens)] *)
Fixpoint join_space (l : list str) : str :=
  match l with
  | [] => []
  | [w] => w
  | w :: ws => w ++ 32 :: join_space ws
  end.

(** ** Dictionaries *)

Definition dict (K V : Type) : Type := list (K * V).

Fixpoint dict_get {K V : Type} (eqb : K -> K -> bool) (k : K) (d : dict K V) : option V :=
  match d with
  | [] => None
  | (k', v) :: d' => if eqb k' k then Some v else dict_get eqb k d'
  end.

(** [d[k] = v]: overwrite in place or append. *)
Fixpoint dict_set {K V : Type} (eqb : K -> K -> bool) (k : K) (v : V) (d : dict K V) : dict K V :=
  match d with
  | [] => [(k, v)]
  | (k', v') :: d' => if eqb k' k then (k, v) :: d' else (k', v') :: dict_set eqb k v d'
  end.

Definition keys {K V : Type} (d : dict K V) : list K := map fst d.

(** [d[k]] *)
Definition dict_item {K V : Type} (eqb : K -> K -> bool) (d : dict K V) (k : K) : result V :=
  match dict_get eqb k d with
  | Some v => Ok v
  | None => Err KeyError
  end.

(** [sorted(d.items(), key=lambda kv: kv[1], reverse=True)]: Python's sort
    is stable, also with [reverse=True]. *)
Fixpoint insert_desc {A : Type} (x : A * Z) (l : list (A * Z)) : list (A * Z) :=
  match l with
  | [] => [x]
  | y :: ys => if snd x <? snd y then y :: insert_desc x ys else x :: y :: ys
  end.
Definition sorted_desc {A : Type} (l : list (A * Z)) : list (A * Z) :=
  fold_right insert_desc [] l.

(** ** The language model: [model.state_size] and [model.chain.model] *)

Record MarkovModel : Type := {
  state_size : Z;
  chain_model : dict gram (dict str Z)
}.

Definition BEGIN : str := Eval cbv in lit "___BEGIN__".
Definition END : str := Eval cbv in lit "___END__".

(** ** The [random] module: a stream of draws and the number taken so far *)

Record Random : Type := { draws : nat -> Z; drawn : nat }.

Definition randint (a b : Z) (g : Random) : result (Z * Random) :=
  if b <? a then Err ValueError
  else Ok (a + draws g (drawn g) mod (b - a + 1),
           {| draws := draws g; drawn := S (drawn g) |}).

Definition choice {A : Type} (l : list A) (g : Random) : result (A * Random) :=
  match nth_error l (Z.to_nat (draws g (drawn g) mod len l)) with
  | Some x => Ok (x, {| draws := draws g; drawn := S (drawn g) |})
  | None => Err IndexError
  end.

(** ** C integers

    A length is a [Py_ssize_t]; stored in a field declared [cdef int] it is
    narrowed without a check: the field holds its low 32 bits, read as a
    signed number. *)

Definition c_int (n : Z) : Z := (n + 2 ^ 31) mod 2 ^ 32 - 2 ^ 31.

(** ** EnhancedEncoder *)

Module EnhancedEncoder.

Record t : Type := {
  model : MarkovModel;
  bitstream : list bool;
  bitstream_length : Z;
  entrypoints : list str;
  current_gram : option gram;
  output_tokens : list str;
  exhausted : bool;
  finished : bool;
  end_key : Z;
  rng : Random
}.

Definition set_bitstream (s : t) (v : list bool) : t :=
  {| model := model s; bitstream := v; bitstream_length := bitstream_length s;
     entrypoints := entrypoints s; current_gram := current_gram s;
     output_tokens := output_tokens s; exhausted := exhausted s;
     finished := finished s; end_key := end_key s; rng := rng s |}.

Definition set_exhausted (s : t) (v : bool) : t :=
  {| model := model s; bitstream := bitstream s; bitstream_length := bitstream_length s;
     entrypoints := entrypoints s; current_gram := current_gram s;
     output_tokens := output_tokens s; exhausted := v;
     finished := finished s; end_key := end_key s; rng := rng s |}.

(** [self.current_gram = g; self.output_tokens.append(tok)] *)
Definition emit (s : t) (g : gram) (tok : str) : t :=
  {| model := model s; bitstream := bitstream s; bitstream_length := bitstream_length s;
     entrypoints := entrypoints s; current_gram := Some g;
     output_tokens := output_tokens s ++ [tok]; exhausted := exhausted s;
     finished := finished s; end_key := end_key s; rng := rng s |}.

Definition _get_entrypoints (m : MarkovModel) : result (list str) :=
  if state_size m =? 1 then
    match dict_get gram_eqb [BEGIN] (chain_model m) with
    | Some d => Ok (keys d)
    | None => Err AttributeError
    end
  else
    lasts <- mapM (fun key => getitem key (-1))
               (filter (fun key => py_count str_eqb BEGIN key =? state_size m - 1)
                       (keys (chain_model m))) ;;
    Ok (tl lasts).

(** The field [bitstream_length] is a C [int]: the length of a bitstream
    of 2^31 bits or more is stored wrapped.  The other [int] fields hold
    small values (an end key, a flag). *)
Definition __init__ (m : MarkovModel) (bits : list bool) (g : Random) : result t :=
  eps <- _get_entrypoints m ;;
  Ok {| model := m; bitstream := bits; bitstream_length := c_int (len bits);
        entrypoints := eps; current_gram := None; output_tokens := [];
        exhausted := true; finished := false; end_key := 0; rng := g |}.

Definition output (s : t) : str := join_space (output_tokens s).

Definition _consume_from_list (s : t) (lst : list str)
  : result (str * list bool * Z * Z * t) :=
  let list_length := len lst in
  bit_length <- ceil_log2 list_length ;;
  let bit_length := if list_length <? 2 ^ bit_length then bit_length - 1 else bit_length in
  encoded_index <- (if bit_length =? 0 then Ok 0
                    else int2 (slice_to (bitstream s) bit_length)) ;;
  next_token <- getitem lst encoded_index ;;
  let removed := slice_to (bitstream s) bit_length in
  Ok (next_token, removed, bit_length, encoded_index,
      set_bitstream s (slice_from (bitstream s) bit_length)).

Definition _get_transitions (m : MarkovModel) (g : option gram) : result (list str) :=
  trans_matrix <- match g with
                  | Some g => dict_item gram_eqb (chain_model m) g
                  | None => Err KeyError
                  end ;;
  let trans_matrix := sorted_desc trans_matrix in
  Ok (map fst trans_matrix).

Definition _inject_end_key (s : t) (removed : list bool) : result t :=
  let end_key := len removed in
  '(i, g) <- randint 0 (len (output_tokens s) - 1) (rng s) ;;
  tok <- getitem (output_tokens s) i ;;
  c <- chr (end_key + 97) ;;
  Ok {| model := model s; bitstream := bitstream s; bitstream_length := bitstream_length s;
        entrypoints := entrypoints s; current_gram := current_gram s;
        output_tokens := setitem (output_tokens s) i (tok ++ [c]);
        exhausted := exhausted s; finished := true; end_key := end_key; rng := g |}.

(** Tokens are strings, so of the two ways [output_tokens] is extended in
    the source only [append] applies. *)
Definition _choose_entrypoint (s : t) : result t :=
  let s := set_exhausted s false in
  '(next_token, removed, bit_length, encoded_index, s) <- _consume_from_list s (entrypoints s) ;;
  let g := if state_size (model s) =? 1 then [next_token]
           else repeat BEGIN (Z.to_nat (state_size (model s) - 1)) ++ [next_token] in
  let s := emit s g next_token in
  match bitstream s with
  | [] => _inject_end_key s removed
  | _ => Ok s
  end.

Definition _choose_next_token (s : t) : result t :=
  transitions <- _get_transitions (model s) (current_gram s) ;;
  if py_in str_eqb END transitions then Ok (set_exhausted s true)
  else
    '(next_token, removed, bit_length, encoded_index, s) <- _consume_from_list s transitions ;;
    let next_gram := match current_gram s with Some g => g | None => [] end ++ [next_token] in
    let s := emit s (slice_from next_gram 1) next_token in
    match bitstream s with
    | [] => _inject_end_key s removed
    | _ => Ok s
    end.

Definition step (s : t) : result (pyval * t) :=
  if finished s then Ok (PyInt 1, s)
  else
    s <- (if exhausted s then _choose_entrypoint s else _choose_next_token s) ;;
    v <- py_div (bitstream_length s - len (bitstream s)) (bitstream_length s) ;;
    Ok (v, s).

(** [generate]: the loop runs at most [fuel] times; [None] when it has not
    finished by then. *)
Fixpoint generate (fuel : nat) (s : t) : option (result (str * t)) :=
  if finished s then Some (Ok (output s, s))
  else match fuel with
       | O => None
       | S fuel' =>
           match step s with
           | Ok (_, s') => generate fuel' s'
           | Err e => Some (Err e)
           end
       end.

End EnhancedEncoder.

(** ** EnhancedDecoder *)

Module EnhancedDecoder.

Record t : Type := {
  model : MarkovModel;
  stega_text : list str;
  entrypoints : list str;
  output : list bool;
  endkey : Z;
  current_gram : option gram;
  exhausted : bool;
  finished : bool;
  index : Z
}.

Definition _get_entrypoints (m : MarkovModel) : result (list str) :=
  if state_size m =? 1 then
    match dict_get gram_eqb [BEGIN] (chain_model m) with
    | Some d => Ok (keys d)
    | None => Err AttributeError
    end
  else
    lasts <- mapM (fun key => getitem key (-1))
               (filter (fun key => py_count str_eqb BEGIN key =? state_size m - 1)
                       (keys (chain_model m))) ;;
    Ok (tl lasts).

Definition __init__ (m : MarkovModel) (text : str) : result t :=
  eps <- _get_entrypoints m ;;
  Ok {| model := m; stega_text := split_space text; entrypoints := eps;
        output := []; endkey := 0; current_gram := None;
        exhausted := true; finished := false; index := 0 |}.

Definition _get_transitions (m : MarkovModel) (g : option gram) : result (list str) :=
  trans_matrix <- match g with
                  | Some g => dict_item gram_eqb (chain_model m) g
                  | None => Err KeyError
                  end ;;
  let trans_matrix := sorted_desc trans_matrix in
  Ok (map fst trans_matrix).

Definition _choose_entrypoint (s : t) : result t :=
  token <- getitem (stega_text s) (index s) ;;
  '(endkey, token) <-
     (if negb (py_in str_eqb token (entrypoints s)) then
        c <- getitem token (-1) ;;
        Ok (ord c - 97, slice_to token (-1))
      else Ok (endkey s, token)) ;;
  embedded_index <- py_index str_eqb token (entrypoints s) ;;
  bit_length <- ceil_log2 (len (entrypoints s)) ;;
  let bit_length := if len (entrypoints s) <? 2 ^ bit_length then bit_length - 1 else bit_length in
  let bit_length := if index s =? len (stega_text s) - 1 then endkey else bit_length in
  let bit_string := zfill (bin2 embedded_index) bit_length in
  let g := if state_size (model s) =? 1 then [token]
           else repeat BEGIN (Z.to_nat (state_size (model s) - 1)) ++ [token] in
  Ok {| model := model s; stega_text := stega_text s; entrypoints := entrypoints s;
        output := output s ++ bit_string; endkey := endkey; current_gram := Some g;
        exhausted := false; finished := finished s; index := index s |}.

Definition _choose_next_token (s : t) : result t :=
  transitions <- _get_transitions (model s) (current_gram s) ;;
  let at_end := index s =? len (stega_text s) - 1 in
  next_token <- (if index s <? len (stega_text s) - 1
                 then getitem (stega_text s) (index s + 1) else Ok []) ;;
  let list_length := len transitions in
  bit_length <- ceil_log2 list_length ;;
  let bit_length :=
    if list_length <? 2 ^ bit_length
    then (if list_length =? 1 then 0 else bit_length - 1)
    else bit_length in
  if py_in str_eqb END transitions then
    Ok {| model := model s; stega_text := stega_text s; entrypoints := entrypoints s;
          output := output s; endkey := endkey s; current_gram := None;
          exhausted := true; finished := finished s; index := index s + 1 |}
  else
    next_token <- (if at_end then Ok [] else getitem (stega_text s) (index s + 1)) ;;
    '(endkey, next_token) <-
       (if negb (py_in str_eqb next_token transitions) && negb at_end then
          c <- getitem next_token (-1) ;;
          Ok (ord c - 97, slice_to next_token (-1))
        else Ok (endkey s, next_token)) ;;
    let bit_length := if index s =? len (stega_text s) - 2 then endkey else bit_length in
    bit_string <-
      (if negb (bit_length =? 0) then
         if at_end then Ok []
         else embedded_index <- py_index str_eqb next_token transitions ;;
              Ok (zfill (bin2 embedded_index) bit_length)
       else Ok []) ;;
    let next_gram := match current_gram s with Some g => g | None => [] end ++ [next_token] in
    Ok {| model := model s; stega_text := stega_text s; entrypoints := entrypoints s;
          output := output s ++ bit_string; endkey := endkey;
          current_gram := Some (slice_from next_gram 1);
          exhausted := exhausted s; finished := finished s; index := index s + 1 |}.

Definition step (s : t) : result (pyval * t) :=
  if (len (stega_text s) - 1 <=? index s) && negb (exhausted s) then
    Ok (PyInt 1,
        {| model := model s; stega_text := stega_text s; entrypoints := entrypoints s;
           output := output s; endkey := endkey s; current_gram := current_gram s;
           exhausted := exhausted s; finished := true; index := index s |})
  else
    s <- (if exhausted s then _choose_entrypoint s else _choose_next_token s) ;;
    v <- py_div (index s) (len (stega_text s)) ;;
    Ok (v, s).

Fixpoint solve (fuel : nat) (s : t) : option (result (list bool * t)) :=
  if finished s then Some (Ok (output s, s))
  else match fuel with
       | O => None
       | S fuel' =>
           match step s with
           | Ok (_, s') => solve fuel' s'
           | Err e => Some (Err e)
           end
       end.

End EnhancedDecoder.

(** ** The Existing family

    [huffman.codebook] belongs to an external package: it is a parameter,
    a function from the weighted symbols to a dict from symbol to code. *)

Definition codebook_fn : Type := list (str * Z) -> dict str (list bool).

(** [max(lengths)]; [ValueError] on an empty sequence. *)
Definition py_max (l : list Z) : result Z :=
  match l with
  | [] => Err ValueError
  | x :: xs => Ok (fold_left Z.max xs x)
  end.

(** The bitstream as the characters 0 and 1. *)
Definition bits_str (bits : list bool) : str :=
  map (fun b : bool => if b then 49 else 48) bits.

(** [re.match(r"<[01]+>", s)] *)
Fixpoint digits_then_gt (s : str) (seen : bool) : bool :=
  match s with
  | [] => false
  | c :: cs => if (c =? 48) || (c =? 49) then digits_then_gt cs true
               else (c =? 62) && seen
  end.
Definition match_literal (s : str) : bool :=
  match s with
  | [] => false
  | c :: cs => (c =? 60) && digits_then_gt cs false
  end.

(** [ch in ".?!"] for a one-character string. *)
Definition sentence_end (c : Z) : bool := (c =? 46) || (c =? 63) || (c =? 33).

Module ExistingEncoder.

Record t : Type := {
  model : MarkovModel;
  bitstream : list bool;
  bitstream_length : Z;
  entrypoints : list gram;
  current_gram : option gram;
  output_tokens : list str;
  exhausted : bool;
  finished : bool;
  c : Z;
  rng : Random
}.

Definition __init__ (m : MarkovModel) (bits : list bool) (g : Random) : result t :=
  Ok {| model := m; bitstream := bits; bitstream_length := c_int (len bits);
        entrypoints := tl (filter (py_in str_eqb BEGIN) (keys (chain_model m)));
        current_gram := None; output_tokens := [];
        exhausted := true; finished := false; c := 1; rng := g |}.

Definition output (s : t) : str := join_space (output_tokens s).

Definition get_transition_matrix (m : MarkovModel) (g : option gram) : result (dict str Z) :=
  match g with
  | Some g => dict_item gram_eqb (chain_model m) g
  | None => Err KeyError
  end.

(** [{v: k for k, v in huffman_code.items()}] *)
Definition invert (code : dict str (list bool)) : dict (list bool) str :=
  fold_left (fun d kv => dict_set bits_eqb (snd kv) (fst kv) d) code [].

(** The [for i in range(tree_depth, 0, -1)] loop: the token and the count
    it breaks with, [None] when it runs to its [else]. *)
Fixpoint search (huffman_code : dict (list bool) str) (bits : list bool) (i : nat)
  : option (str * Z) :=
  match i with
  | O => None
  | S j =>
      if len bits <=? Z.of_nat i then search huffman_code bits j
      else match dict_get bits_eqb (slice_to bits (Z.of_nat i)) huffman_code with
           | Some tok => Some (tok, Z.of_nat i)
           | None => search huffman_code bits j
           end
  end.

Section WithCodebook.
Variable codebook : codebook_fn.

Definition step (s : t) : result (pyval * t) :=
  if finished s then Ok (PyNone, s)
  else
    s <- (if exhausted s then
            '(g, r) <- choice (entrypoints s) (rng s) ;;
            tok <- getitem g 1 ;;
            Ok {| model := model s; bitstream := bitstream s;
                  bitstream_length := bitstream_length s; entrypoints := entrypoints s;
                  current_gram := Some g; output_tokens := output_tokens s ++ [tok];
                  exhausted := false; finished := finished s; c := c s; rng := r |}
          else
            trans_matrix <- get_transition_matrix (model s) (current_gram s) ;;
            '(next_token, bits, c') <-
               (if 1 <? len trans_matrix then
                  let huffman_code := invert (codebook trans_matrix) in
                  tree_depth <- py_max (map len (keys huffman_code)) ;;
                  let '(next_token, count) :=
                    match search huffman_code (bitstream s) (Z.to_nat tree_depth) with
                    | Some found => found
                    | None => ([60] ++ bits_str (bitstream s) ++ [62], len (bitstream s))
                    end in
                  Ok (next_token, slice_from (bitstream s) count, c s + 1)
                else
                  next_token <- getitem (keys trans_matrix) 0 ;;
                  Ok (next_token, bitstream s, c s)) ;;
            let next_gram := match current_gram s with Some g => g | None => [] end
                             ++ [next_token] in
            if negb (str_eqb next_token END) then
              Ok {| model := model s; bitstream := bits;
                    bitstream_length := bitstream_length s; entrypoints := entrypoints s;
                    current_gram := Some (slice_from next_gram 1);
                    output_tokens := output_tokens s ++ [next_token];
                    exhausted := exhausted s; finished := finished s; c := c'; rng := rng s |}
            else
              Ok {| model := model s; bitstream := bits;
                    bitstream_length := bitstream_length s; entrypoints := entrypoints s;
                    current_gram := None; output_tokens := output_tokens s;
                    exhausted := true; finished := finished s; c := c'; rng := rng s |}) ;;
    let s := match bitstream s with
             | [] => {| model := model s; bitstream := bitstream s;
                        bitstream_length := bitstream_length s; entrypoints := entrypoints s;
                        current_gram := current_gram s; output_tokens := output_tokens s;
                        exhausted := exhausted s; finished := true; c := c s; rng := rng s |}
             | _ => s
             end in
    v <- py_div (bitstream_length s - len (bitstream s)) (bitstream_length s) ;;
    Ok (v, s).

Fixpoint generate (fuel : nat) (s : t) : option (result (str * t)) :=
  if finished s then Some (Ok (output s, s))
  else match fuel with
       | O => None
       | S fuel' =>
           match step s with
           | Ok (_, s') => generate fuel' s'
           | Err e => Some (Err e)
           end
       end.

End WithCodebook.
End ExistingEncoder.

Module ExistingDecoder.

Record t : Type := {
  model : MarkovModel;
  stega_text : list str;
  entrypoints : list str;
  endkey : Z;
  current_gram : option gram;
  index : Z;
  exhausted : bool;
  finished : bool;
  output : list bool
}.

Definition __init__ (m : MarkovModel) (text : str) : result t :=
  eps <- mapM (fun key => getitem key 1)
           (filter (py_in str_eqb BEGIN) (keys (chain_model m))) ;;
  Ok {| model := m; stega_text := split_space text; entrypoints := tl eps;
        endkey := 0; current_gram := None; index := 0;
        exhausted := true; finished := false; output := [] |}.

Definition get_transition_matrix (m : MarkovModel) (g : option gram) : result (dict str Z) :=
  match g with
  | Some g => dict_item gram_eqb (chain_model m) g
  | None => Err KeyError
  end.

(** [self.current_gram[1][-1] in ".?!" and "___END__" in trans_matrix] *)
Definition at_sentence_end (g : option gram) (trans_matrix : dict str Z) : result bool :=
  tok <- getitem (match g with Some g => g | None => [] end) 1 ;;
  ch <- getitem tok (-1) ;;
  Ok (sentence_end ch && py_in str_eqb END (keys trans_matrix)).

Definition INVALID : str := Eval cbv in lit "INVALID TOKEN {next_token}".

Section WithCodebook.
Variable codebook : codebook_fn.

(** The local [previous] of the source is computed and never used. *)
Definition step (s : t) : result (pyval * t) :=
  if (len (stega_text s) - 1 <=? index s) && negb (exhausted s) then
    Ok (PyNone,
        {| model := model s; stega_text := stega_text s; entrypoints := entrypoints s;
           endkey := endkey s; current_gram := current_gram s; index := index s;
           exhausted := exhausted s; finished := true; output := output s |})
  else
    s <- (if exhausted s then
            token <- getitem (stega_text s) (index s) ;;
            Ok {| model := model s; stega_text := stega_text s; entrypoints := entrypoints s;
                  endkey := endkey s; current_gram := Some [BEGIN; token]; index := index s;
                  exhausted := false; finished := finished s; output := output s |}
          else
            trans_matrix <- get_transition_matrix (model s) (current_gram s) ;;
            let at_end := index s =? len (stega_text s) - 1 in
            next_token <- (if at_end then Ok [] else getitem (stega_text s) (index s + 1)) ;;
            '(next_token, bit_string, exhausted') <-
               (if 1 <? len trans_matrix then
                  let huffman_code := codebook trans_matrix in
                  tree_depth <- py_max (map len (keys huffman_code)) ;;
                  forced <- at_sentence_end (current_gram s) trans_matrix ;;
                  let '(next_token, exhausted') :=
                    if forced && negb (py_in str_eqb next_token (keys trans_matrix))
                    then (END, true) else (next_token, exhausted s) in
                  if match_literal next_token then Ok (INVALID, [], exhausted')
                  else
                    bit_string <- (if at_end then Ok []
                                   else dict_item str_eqb huffman_code next_token) ;;
                    Ok (next_token, bit_string, exhausted')
                else
                  forced <- at_sentence_end (current_gram s) trans_matrix ;;
                  if forced then Ok (END, [], true) else Ok (next_token, [], exhausted s)) ;;
            let next_gram := match current_gram s with Some g => g | None => [] end
                             ++ [next_token] in
            Ok {| model := model s; stega_text := stega_text s; entrypoints := entrypoints s;
                  endkey := endkey s; current_gram := Some (slice_from next_gram 1);
                  index := index s + 1; exhausted := exhausted'; finished := finished s;
                  output := output s ++ bit_string |}) ;;
    v <- py_div (index s) (len (stega_text s)) ;;
    Ok (v, s).

Fixpoint solve (fuel : nat) (s : t) : option (result (list bool * t)) :=
  if finished s then Some (Ok (output s, s))
  else match fuel with
       | O => None
       | S fuel' =>
           match step s with
           | Ok (_, s') => solve fuel' s'
           | Err e => Some (Err e)
           end
       end.

End WithCodebook.
End ExistingDecoder.

(** ** Whole runs and the four sessions side by side *)

(** [EnhancedEncoder(model, bits).generate()] *)
Definition encode_enhanced (m : MarkovModel) (bits : list bool) (g : Random) (fuel : nat)
  : option (result str) :=
  match EnhancedEncoder.__init__ m bits g with
  | Err e => Some (Err e)
  | Ok s => match EnhancedEncoder.generate fuel s with
            | Some (Ok (text, _)) => Some (Ok text)
            | Some (Err e) => Some (Err e)
            | None => None
            end
  end.

(** [EnhancedDecoder(model, text).solve()] *)
Definition decode_enhanced (m : MarkovModel) (text : str) (fuel : nat)
  : option (result (list bool)) :=
  match EnhancedDecoder.__init__ m text with
  | Err e => Some (Err e)
  | Ok s => match EnhancedDecoder.solve fuel s with
            | Some (Ok (bits, _)) => Some (Ok bits)
            | Some (Err e) => Some (Err e)
            | None => None
            end
  end.

Inductive session : Type :=
| EnhEnc (s : EnhancedEncoder.t)
| EnhDec (s : EnhancedDecoder.t)
| ExEnc (s : ExistingEncoder.t)
| ExDec (s : ExistingDecoder.t).

Definition session_finished (x : session) : bool :=
  match x with
  | EnhEnc s => EnhancedEncoder.finished s
  | EnhDec s => EnhancedDecoder.finished s
  | ExEnc s => ExistingEncoder.finished s
  | ExDec s => ExistingDecoder.finished s
  end.

(** The value each class returns from [step] once the session is over. *)
Definition completion_value (x : session) : pyval :=
  match x with
  | EnhEnc _ | EnhDec _ => PyInt 1
  | ExEnc _ | ExDec _ => PyNone
  end.

Section Sessions.
Variable codebook : codebook_fn.

Definition session_step (x : session) : result (pyval * session) :=
  match x with
  | EnhEnc s => '(v, s') <- EnhancedEncoder.step s ;; Ok (v, EnhEnc s')
  | EnhDec s => '(v, s') <- EnhancedDecoder.step s ;; Ok (v, EnhDec s')
  | ExEnc s => '(v, s') <- ExistingEncoder.step codebook s ;; Ok (v, ExEnc s')
  | ExDec s => '(v, s') <- ExistingDecoder.step codebook s ;; Ok (v, ExDec s')
  end.

(** A session is created by its constructor and changed by [step] only. *)
Inductive created : session -> Prop :=
| created_EnhEnc m bits g s :
    EnhancedEncoder.__init__ m bits g = Ok s -> created (EnhEnc s)
| created_EnhDec m text s :
    EnhancedDecoder.__init__ m text = Ok s -> created (EnhDec s)
| created_ExEnc m bits g s :
    ExistingEncoder.__init__ m bits g = Ok s -> created (ExEnc s)
| created_ExDec m text s :
    ExistingDecoder.__init__ m text = Ok s -> created (ExDec s).

Inductive reachable : session -> Prop :=
| reachable_created x : created x -> reachable x
| reachable_step x v y : reachable x -> session_step x = Ok (v, y) -> reachable y.

End Sessions.

(** ** Conditions on a model under which the end-key marker is unambiguous *)

Fixpoint nodupb (l : list str) : bool :=
  match l with
  | [] => true
  | x :: xs => negb (py_in str_eqb x xs) && nodupb xs
  end.

(** [u] is [t] followed by one more character. *)
Definition extends_by_one (t u : str) : bool :=
  match u with
  | [] => false
  | _ => str_eqb (removelast u) t
  end.

Definition no_collision (lst : list str) : bool :=
  forallb (fun t => negb (existsb (extends_by_one t) lst)) lst.

Definition no_space (lst : list str) : bool :=
  forallb (fun t => negb (existsb (Z.eqb 32) t)) lst.

Definition list_ok (lst : list str) : bool :=
  nodupb lst && no_collision lst && no_space lst.

(** Every candidate list of the model (the entry points and the sorted
    transitions of every context) is free of duplicates, of tokens that
    differ from another candidate by one trailing character and of tokens
    with a space, and there are at least two entry points. *)
Definition marker_safe (m : MarkovModel) : bool :=
  match EnhancedEncoder._get_entrypoints m with
  | Err _ => false
  | Ok eps =>
      (2 <=? len eps) && list_ok eps &&
      forallb (fun kv => list_ok (map fst (sorted_desc (snd kv)))) (chain_model m)
  end.

(** The token list after the end key [c] has been added to token [i]. *)
Definition mark (i : nat) (c : Z) (toks : list str) : list str :=
  replace_nth i (nth i toks [] ++ [c + 97]) toks.

(** [picks lst bits tok rest]: selecting from [lst] with the bitstream
    [bits] yields [tok] and leaves [rest]. *)
Definition picks (lst : list str) (bits : list bool) (tok : str) (rest : list bool) : Prop :=
  let L := Z.to_nat (Z.log2 (len lst)) in
  lst <> [] /\ rest = skipn L bits /\
  ((L = O /\ nth_error lst 0 = Some tok) \/
   (L <> O /\ exists idx, int2 (firstn L bits) = Ok idx /\
                          nth_error lst (Z.to_nat idx) = Some tok)).

(** The walk of the encoder from a state (exhausted?, context, remaining
    bits): the number of steps, the tokens appended and the end key. *)
Inductive Trace (m : MarkovModel) (E : list str)
  : nat -> bool -> option gram -> list bool -> list str -> Z -> Prop :=
| Trace_entry_last g bits tok :
    bits <> [] -> picks E bits tok [] ->
    Trace m E 1 true g bits [tok] (len bits)
| Trace_entry g bits tok rest n toks c :
    picks E bits tok rest -> rest <> [] ->
    Trace m E n false
      (Some (if state_size m =? 1 then [tok]
             else repeat BEGIN (Z.to_nat (state_size m - 1)) ++ [tok]))
      rest toks c ->
    Trace m E (S n) true g bits (tok :: toks) c
| Trace_boundary g lst bits n toks c :
    EnhancedEncoder._get_transitions m (Some g) = Ok lst ->
    py_in str_eqb END lst = true ->
    Trace m E n true (Some g) bits toks c ->
    Trace m E (S n) false (Some g) bits toks c
| Trace_next_last g lst bits tok :
    EnhancedEncoder._get_transitions m (Some g) = Ok lst ->
    py_in str_eqb END lst = false ->
    bits <> [] -> picks lst bits tok [] ->
    Trace m E 1 false (Some g) bits [tok] (len bits)
| Trace_next g lst bits tok rest n toks c :
    EnhancedEncoder._get_transitions m (Some g) = Ok lst ->
    py_in str_eqb END lst = false ->
    picks lst bits tok rest -> rest <> [] ->
    Trace m E n false (Some (slice_from (g ++ [tok]) 1)) rest toks c ->
    Trace m E (S n) false (Some g) bits (tok :: toks) c.

(** ** Sample models and inputs *)

Definition tk (s : string) : str := lit s.

(** The model of the entry-point example: [k = 2], keys [(START, START)],
    [(START, "the")], [(START, "a")] in this order. *)
Definition the_a_model : MarkovModel :=
  {| state_size := 2;
     chain_model :=
       [ ([BEGIN; BEGIN], [(tk "the", 1); (tk "a", 1)]);
         ([BEGIN; tk "the"], [(END, 1)]);
         ([BEGIN; tk "a"], [(END, 1)]) ] |}.

(** A model of order 2 with tied frequencies. *)
Definition zoo_model : MarkovModel :=
  {| state_size := 2;
     chain_model :=
       [ ([BEGIN; BEGIN], [(tk "x", 1); (tk "the", 2); (tk "a", 1)]);
         ([BEGIN; tk "x"], [(tk "y", 1)]);
         ([BEGIN; tk "the"], [(tk "cat", 1); (tk "dog", 3); (tk "cow", 1)]);
         ([BEGIN; tk "a"], [(tk "cat", 2); (tk "dog", 1)]);
         ([tk "the"; tk "cat"], [(tk "sat", 1); (tk "ran", 1)]);
         ([tk "the"; tk "dog"], [(tk "sat", 1); (tk "ran", 1)]);
         ([tk "the"; tk "cow"], [(tk "sat", 1); (tk "ran", 1)]);
         ([tk "a"; tk "cat"], [(tk "sat", 1); (tk "ran", 1)]);
         ([tk "a"; tk "dog"], [(tk "sat", 1); (tk "ran", 1)]);
         ([tk "cat"; tk "sat"], [(END, 1)]);
         ([tk "cat"; tk "ran"], [(END, 1)]);
         ([tk "dog"; tk "sat"], [(END, 1)]);
         ([tk "dog"; tk "ran"], [(END, 1)]);
         ([tk "cow"; tk "sat"], [(END, 1)]);
         ([tk "cow"; tk "ran"], [(END, 1)]) ] |}.

(** A model of order 1 in which one entry point is another one followed by
    the letter b. *)
Definition ab_model : MarkovModel :=
  {| state_size := 1;
     chain_model :=
       [ ([BEGIN], [(tk "a", 1); (tk "ab", 1)]);
         ([tk "a"], [(END, 1)]);
         ([tk "ab"], [(END, 1)]) ] |}.

(** A model of order 2 with sentence punctuation, for the Existing family. *)
Definition go_model : MarkovModel :=
  {| state_size := 2;
     chain_model :=
       [ ([BEGIN; BEGIN], [(tk "go", 2)]);
         ([BEGIN; tk "go"], [(tk "on.", 1); (tk "up.", 1)]);
         ([tk "go"; tk "on."], [(END, 1); (tk "and", 1)]);
         ([tk "go"; tk "up."], [(END, 1)]);
         ([tk "on."; tk "and"], [(tk "so.", 1)]);
         ([tk "and"; tk "so."], [(END, 1)]) ] |}.


(** A model of order 2 with a single entry point, [y]. *)
Definition one_entry_model : MarkovModel :=
  {| state_size := 2;
     chain_model :=
       [ ([BEGIN; BEGIN], [(tk "x", 1); (tk "y", 1)]);
         ([BEGIN; tk "x"], [(tk "z", 1)]);
         ([BEGIN; tk "y"], [(tk "z", 1); (tk "w", 1)]);
         ([tk "y"; tk "z"], [(END, 1)]);
         ([tk "y"; tk "w"], [(END, 1)]) ] |}.

(** A random source that always draws [v]. *)
Definition always (v : Z) : Random := {| draws := fun _ => v; drawn := 0 |}.

(** [n] distinct one-character tokens. *)
Definition some_tokens (n : nat) : list str := map (fun k => [48 + Z.of_nat k]) (seq 0 n).

(** An encoder session on [zoo_model] with the given remaining bitstream
    and emitted tokens. *)
Definition zoo_session (bits : list bool) (toks : list str) : EnhancedEncoder.t :=
  {| EnhancedEncoder.model := zoo_model; EnhancedEncoder.bitstream := bits;
     EnhancedEncoder.bitstream_length := 32;
     EnhancedEncoder.entrypoints := [tk "the"; tk "a"];
     EnhancedEncoder.current_gram := None; EnhancedEncoder.output_tokens := toks;
     EnhancedEncoder.exhausted := true; EnhancedEncoder.finished := false;
     EnhancedEncoder.end_key := 0; EnhancedEncoder.rng := always 0 |}.

(** A decoder session of the Existing family on [go_model]. *)
Definition go_session (text : list str) (g : option gram) (i : Z) (out : list bool)
  : ExistingDecoder.t :=
  {| ExistingDecoder.model := go_model; ExistingDecoder.stega_text := text;
     ExistingDecoder.entrypoints := [tk "go"]; ExistingDecoder.endkey := 0;
     ExistingDecoder.current_gram := g; ExistingDecoder.index := i;
     ExistingDecoder.exhausted := false; ExistingDecoder.finished := false;
     ExistingDecoder.output := out |}.

(** The Existing decoder session after it has taken [tok] as the transition
    out of the context [g] and appended [bits] to its output. *)
Definition taken (s : ExistingDecoder.t) (g : gram) (tok : str) (bits : list bool)
  (ex : bool) : ExistingDecoder.t :=
  {| ExistingDecoder.model := ExistingDecoder.model s;
     ExistingDecoder.stega_text := ExistingDecoder.stega_text s;
     ExistingDecoder.entrypoints := ExistingDecoder.entrypoints s;
     ExistingDecoder.endkey := ExistingDecoder.endkey s;
     ExistingDecoder.current_gram := Some (slice_from (g ++ [tok]) 1);
     ExistingDecoder.index := ExistingDecoder.index s + 1;
     ExistingDecoder.exhausted := ex;
     ExistingDecoder.finished := ExistingDecoder.finished s;
     ExistingDecoder.output := ExistingDecoder.output s ++ bits |}.

(** ** Notions used in the statements and proofs *)

(** The number a string of binary digits denotes, and the digits of a
    number without leading zeros (none for 0). *)
Definition bits_val (bs : list bool) : Z :=
  fold_left (fun acc (b : bool) => 2 * acc + (if b then 1 else 0)) bs 0.

Definition bin_digits (n : Z) : list bool :=
  match n with
  | Zpos p => bin_pos p []
  | _ => []
  end.

(** The candidate lists of a model: the entry points and the sorted
    transitions of a context. *)
Definition candidate (m : MarkovModel) (E lst : list str) : Prop :=
  lst = E \/ exists g, EnhancedEncoder._get_transitions m (Some g) = Ok lst.

(** [a] comes before [b] in descending order of frequency. *)
Definition by_freq {A : Type} (a b : A * Z) : Prop := snd b <= snd a.

(** What holds of a decoder session whose [finished] flag is set: it was
    set by the first branch of [step], whose condition still holds. *)
Definition over_enh (s : EnhancedDecoder.t) : Prop :=
  EnhancedDecoder.finished s = true ->
  (len (EnhancedDecoder.stega_text s) - 1 <=? EnhancedDecoder.index s)
  && negb (EnhancedDecoder.exhausted s) = true.

Definition over_ex (s : ExistingDecoder.t) : Prop :=
  ExistingDecoder.finished s = true ->
  (len (ExistingDecoder.stega_text s) - 1 <=? ExistingDecoder.index s)
  && negb (ExistingDecoder.exhausted s) = true.

Definition over (x : session) : Prop :=
  match x with
  | EnhDec s => over_enh s
  | ExDec s => over_ex s
  | _ => True
  end.

(** ** The utility functions of the module

    The file functions are modelled on the contents of the file: the bytes
    read by [file_to_bitstream], the bytes written by [bitstream_to_file]. *)

(** [range(start, stop, step)] for a positive step. *)
Definition py_range (start stop step : Z) : list Z :=
  map (fun k => start + step * Z.of_nat k)
      (seq 0 (Z.to_nat ((stop - start + step - 1) / step))).

(** [np.where(a != b)[0]] for two arrays of one length, counting from [i]. *)
Fixpoint where_ne (i : Z) (a b : list bool) : list Z :=
  match a, b with
  | x :: a', y :: b' =>
      if Bool.eqb x y then where_ne (i + 1) a' b' else i :: where_ne (i + 1) a' b'
  | _, _ => []
  end.

Definition validate_bitstreams (bitstream1 bitstream2 : list bool) : list Z :=
  let len1 := len bitstream1 in
  let len2 := len bitstream2 in
  let min_len := Z.min len1 len2 in
  let max_len := Z.max len1 len2 in
  let mismatched_indices :=
    where_ne 0 (slice_to bitstream1 min_len) (slice_to bitstream2 min_len) in
  let extra_indices := py_range min_len max_len 1 in
  mismatched_indices ++ extra_indices.

(** [np.unpackbits] on one byte: its eight bits, the most significant
    first. *)
Definition unpackbits (b : Byte.byte) : list bool :=
  map (N.testbit (Byte.to_N b)) [7; 6; 5; 4; 3; 2; 1; 0]%N.

Definition file_to_bitstream (file_data : list Byte.byte) : list bool :=
  flat_map unpackbits file_data.

(** One element of a [bytearray]: an [int] in [range(256)]. *)
Definition to_byte (n : Z) : result Byte.byte :=
  if n <? 0 then Err ValueError
  else match Byte.of_N (Z.to_N n) with
       | Some b => Ok b
       | None => Err ValueError
       end.

(** The slice [bitstream[i:i+8]], for the indices [i >= 0] of the range, is
    [bitstream[i:][:8]]. *)
Definition bitstream_to_file (bitstream : list bool) : result (list Byte.byte) :=
  let byte_data :=
    map (fun i => slice_to (slice_from bitstream i) 8) (py_range 0 (len bitstream) 8) in
  mapM (fun byte => n <- int2 byte ;; to_byte n) byte_data.

(** [EnhancedEncoder(model, file_to_bitstream(f)).generate()] on the contents
    of the file [f]. *)
Definition hide_file (m : MarkovModel) (file_data : list Byte.byte) (g : Random)
  (fuel : nat) : option (result str) :=
  encode_enhanced m (file_to_bitstream file_data) g fuel.

(** [bitstream_to_file(EnhancedDecoder(model, text).solve(), f)]: the
    contents written to [f]. *)
Definition recover_file (m : MarkovModel) (text : str) (fuel : nat)
  : option (result (list Byte.byte)) :=
  match decode_enhanced m text fuel with
  | Some (Ok bits) => Some (bitstream_to_file bits)
  | Some (Err e) => Some (Err e)
  | None => None
  end.

(** [ExistingEncoder(model, bits).generate()] *)
Definition encode_existing (codebook : codebook_fn) (m : MarkovModel) (bits : list bool)
  (g : Random) (fuel : nat) : option (result str) :=
  match ExistingEncoder.__init__ m bits g with
  | Err e => Some (Err e)
  | Ok s => match ExistingEncoder.generate codebook fuel s with
            | Some (Ok (text, _)) => Some (Ok text)
            | Some (Err e) => Some (Err e)
            | None => None
            end
  end.

(** [ExistingDecoder(model, text).solve()] *)
Definition decode_existing (codebook : codebook_fn) (m : MarkovModel) (text : str)
  (fuel : nat) : option (result (list bool)) :=
  match ExistingDecoder.__init__ m text with
  | Err e => Some (Err e)
  | Ok s => match ExistingDecoder.solve codebook fuel s with
            | Some (Ok (bits, _)) => Some (Ok bits)
            | Some (Err e) => Some (Err e)
            | None => None
            end
  end.

(** The literal escape token of the Existing encoder for the bits [tail]. *)
Definition literal_token (tail : list bool) : str := [60] ++ bits_str tail ++ [62].

(** The number of steps within which a decoder session is over: two for
    every token still to be read, and the steps at the last token. *)
Definition steps_left (text_len index : Z) (exhausted : bool) : nat :=
  2 * Z.to_nat (text_len - 1 - index) + (if exhausted then 1 else 0) + 1.

(** The encoder session after [n] calls of [step] that returned. *)
Fixpoint enc_steps (n : nat) (s : EnhancedEncoder.t) : result EnhancedEncoder.t :=
  match n with
  | O => Ok s
  | S k => '(_, s') <- EnhancedEncoder.step s ;; enc_steps k s'
  end.

(** A model of order 1 without any choice: one entry point and one
    transition in every context. *)
Definition line_model : MarkovModel :=
  {| state_size := 1;
     chain_model :=
       [ ([BEGIN], [(tk "hello", 1)]);
         ([tk "hello"], [(tk "world", 1)]);
         ([tk "world"], [(END, 1)]) ] |}.

(** * Proofs *)

(** ** Facts about the modelled builtins *)

Section ListEqb.
Context {A : Type} (eqb : A -> A -> bool).
Hypothesis eqb_eq : forall x y, eqb x y = true <-> x = y.

Lemma list_eqb_eq : forall l1 l2, list_eqb eqb l1 l2 = true <-> l1 = l2.
Proof.
  induction l1 as [|x xs IH]; destruct l2 as [|y ys]; simpl; split; intro H;
    try reflexivity; try discriminate.
  - apply andb_true_iff in H. destruct H as [H1 H2].
    apply eqb_eq in H1. apply IH in H2. congruence.
  - injection H as -> ->. apply andb_true_iff. split.
    + now apply eqb_eq.
    + now apply IH.
Qed.

Lemma py_in_In : forall x l, py_in (list_eqb eqb) x l = true <-> In x l.
Proof.
  intros x l. unfold py_in. rewrite existsb_exists. split.
  - intros [y [Hy He]]. apply list_eqb_eq in He. now subst.
  - intro H. exists x. split; [assumption | now apply list_eqb_eq].
Qed.
End ListEqb.

Lemma str_eqb_eq : forall a b : str, str_eqb a b = true <-> a = b.
Proof. apply list_eqb_eq. apply Z.eqb_eq. Qed.

Lemma str_eqb_refl : forall a : str, str_eqb a a = true.
Proof. intro a. now apply str_eqb_eq. Qed.

Lemma str_eqb_neq : forall a b : str, str_eqb a b = false <-> a <> b.
Proof.
  intros a b. split.
  - intros H E. apply str_eqb_eq in E. congruence.
  - intro H. destruct (str_eqb a b) eqn:E; [|reflexivity].
    apply str_eqb_eq in E. contradiction.
Qed.


Lemma in_str_In : forall (x : str) l, py_in str_eqb x l = true <-> In x l.
Proof. apply py_in_In. apply Z.eqb_eq. Qed.

Lemma in_str_not_In : forall (x : str) l, py_in str_eqb x l = false <-> ~ In x l.
Proof.
  intros x l. rewrite <- in_str_In. destruct (py_in str_eqb x l); split; intro H;
    congruence.
Qed.

Lemma len_nonneg : forall (A : Type) (l : list A), 0 <= len l.
Proof. intros. unfold len. lia. Qed.

Lemma len_app : forall (A : Type) (l1 l2 : list A), len (l1 ++ l2) = len l1 + len l2.
Proof. intros. unfold len. rewrite length_app. lia. Qed.

(** The two lines after [ceil(log2(n))] yield [floor(log2(n))]. *)
Lemma canonical_length : forall n, 1 <= n ->
  (if n <? 2 ^ Z.log2_up n then Z.log2_up n - 1 else Z.log2_up n) = Z.log2 n.
Proof.
  intros n Hn.
  destruct (Z.eq_dec n 1) as [-> | Hne]; [reflexivity|].
  assert (H1 : 1 < n) by lia.
  pose proof (Z.log2_up_spec n H1) as [Hlo Hhi].
  pose proof (Z.log2_up_nonneg n) as Hnn.
  assert (Hpos : 0 < Z.log2_up n) by (apply Z.log2_up_pos; lia).
  destruct (n <? 2 ^ Z.log2_up n) eqn:E.
  - apply Z.ltb_lt in E. symmetry. apply Z.log2_unique; [lia|].
    replace (Z.succ (Z.log2_up n - 1)) with (Z.log2_up n) by lia.
    replace (Z.log2_up n - 1) with (Z.pred (Z.log2_up n)) by lia. lia.
  - apply Z.ltb_ge in E. assert (n = 2 ^ Z.log2_up n) by lia.
    rewrite H at 2. now rewrite Z.log2_pow2.
Qed.

Lemma canonical_length' : forall n, 1 <= n ->
  (if n <? 2 ^ Z.log2_up n then (if n =? 1 then 0 else Z.log2_up n - 1) else Z.log2_up n)
  = Z.log2 n.
Proof.
  intros n Hn. rewrite <- (canonical_length n Hn).
  destruct (n <? 2 ^ Z.log2_up n) eqn:E; [|reflexivity].
  destruct (n =? 1) eqn:E1; [|reflexivity].
  apply Z.eqb_eq in E1. subst. discriminate.
Qed.

(** ** [int(s, 2)] and [bin(n)[2:].zfill(w)] are inverse *)

Lemma bin_pos_acc : forall p acc, bin_pos p acc = bin_pos p [] ++ acc.
Proof.
  induction p as [q IH | q IH |]; intro acc; simpl.
  - rewrite IH. rewrite (IH [true]). now rewrite <- app_assoc.
  - rewrite IH. rewrite (IH [false]). now rewrite <- app_assoc.
  - reflexivity.
Qed.

Lemma repeat_snoc : forall (A : Type) (x : A) n, repeat x (S n) = repeat x n ++ [x].
Proof.
  intros A x n. induction n as [|n IH]; [reflexivity|].
  simpl in *. now rewrite <- IH.
Qed.

Lemma bits_val_snoc : forall bs b,
  bits_val (bs ++ [b]) = 2 * bits_val bs + (if b then 1 else 0).
Proof. intros. unfold bits_val. now rewrite fold_left_app. Qed.

Lemma bin_digits_bits_val : forall bs,
  0 <= bits_val bs /\
  (List.length (bin_digits (bits_val bs)) <= List.length bs)%nat /\
  repeat false (List.length bs - List.length (bin_digits (bits_val bs)))
    ++ bin_digits (bits_val bs) = bs.
Proof.
  induction bs as [|b bs IH] using rev_ind.
  - unfold bits_val. simpl. repeat split; lia.
  - destruct IH as [Hv [Hl He]]. rewrite bits_val_snoc, length_app. change (List.length [b]) with 1%nat.
    destruct (bits_val bs) as [|p|p] eqn:Ev; [| |lia].
    + simpl in He, Hl. rewrite Nat.sub_0_r, app_nil_r in He.
      destruct b; simpl.
      * repeat split; try lia.
        replace (List.length bs + 1 - 1)%nat with (List.length bs) by lia.
        now rewrite He.
      * repeat split; try lia.
        rewrite Nat.sub_0_r, app_nil_r, Nat.add_1_r, repeat_snoc. now rewrite He.
    + simpl in He, Hl.
      assert (Hd : bin_digits (2 * Z.pos p + (if b then 1 else 0))
                   = bin_pos p [] ++ [b]).
      { destruct b; simpl; now rewrite bin_pos_acc. }
      rewrite !Hd, length_app. change (List.length [b]) with 1%nat.
      repeat split; try (destruct b; lia).
      replace (List.length bs + 1 - (List.length (bin_pos p []) + 1))%nat
        with (List.length bs - List.length (bin_pos p []))%nat by lia.
      now rewrite app_assoc, He.
Qed.

Lemma int2_bits_val : forall bs idx, int2 bs = Ok idx -> bs <> [] /\ idx = bits_val bs.
Proof.
  intros bs idx H. destruct bs as [|b bs]; [discriminate|].
  simpl in H. injection H as <-. split; [discriminate | reflexivity].
Qed.

Lemma zfill_bin2 : forall bs idx,
  int2 bs = Ok idx -> zfill (bin2 idx) (len bs) = bs.
Proof.
  intros bs idx H. apply int2_bits_val in H. destruct H as [Hne ->].
  destruct (bin_digits_bits_val bs) as [Hv [Hl He]].
  unfold zfill, len. destruct (bits_val bs) as [|p|p] eqn:Ev; [| |lia].
  - simpl in *. rewrite Nat.sub_0_r, app_nil_r in He.
    destruct bs as [|b bs]; [congruence|]. simpl List.length in *.
    replace (Z.to_nat (Z.of_nat (S (List.length bs)) - 1)) with (List.length bs) by lia.
    now rewrite <- repeat_snoc.
  - simpl in *.
    replace (Z.to_nat (Z.of_nat (List.length bs) - Z.of_nat (List.length (bin_pos p []))))
      with (List.length bs - List.length (bin_pos p []))%nat by lia.
    exact He.
Qed.

Lemma int2_bound : forall bs idx, int2 bs = Ok idx -> 0 <= idx < 2 ^ len bs.
Proof.
  intros bs idx H. apply int2_bits_val in H. destruct H as [_ ->].
  induction bs as [|b bs IH] using rev_ind.
  - simpl. unfold bits_val. simpl. lia.
  - rewrite bits_val_snoc, len_app. change (len [b]) with 1.
    rewrite Z.pow_add_r by (try apply len_nonneg; lia).
    destruct b; lia.
Qed.

(** ** Indexing *)

Lemma getitem_nth : forall (A : Type) (l : list A) i x,
  0 <= i -> nth_error l (Z.to_nat i) = Some x -> getitem l i = Ok x.
Proof.
  intros A l i x Hi H. unfold getitem.
  destruct (i <? 0) eqn:E; [apply Z.ltb_lt in E; lia|]. rewrite E. now rewrite H.
Qed.

Lemma getitem_inv : forall (A : Type) (l : list A) i x,
  0 <= i -> getitem l i = Ok x -> nth_error l (Z.to_nat i) = Some x /\ i < len l.
Proof.
  intros A l i x Hi H. unfold getitem in H.
  destruct (i <? 0) eqn:E; [apply Z.ltb_lt in E; lia|]. rewrite E in H.
  destruct (nth_error l (Z.to_nat i)) eqn:En; [|discriminate].
  injection H as ->. split; [reflexivity|].
  assert (Z.to_nat i < List.length l)%nat by (apply nth_error_Some; congruence).
  unfold len. lia.
Qed.

Lemma getitem_last : forall (A : Type) (l : list A) x, getitem (l ++ [x]) (-1) = Ok x.
Proof.
  intros A l x. unfold getitem. change (-1 <? 0) with true. cbv iota.
  rewrite len_app. change (len [x]) with 1.
  replace (-1 + (len l + 1)) with (len l) by lia.
  pose proof (len_nonneg A l).
  destruct (len l <? 0) eqn:E; [apply Z.ltb_lt in E; lia|].
  unfold len. rewrite Nat2Z.id, nth_error_app2 by lia. now rewrite Nat.sub_diag.
Qed.

Lemma slice_to_last : forall (A : Type) (l : list A) x, slice_to (l ++ [x]) (-1) = l.
Proof.
  intros A l x. unfold slice_to. change (-1 <? 0) with true. cbv iota.
  rewrite len_app. change (len [x]) with 1.
  replace (-1 + (len l + 1)) with (len l) by lia.
  unfold len. rewrite Nat2Z.id, firstn_app, Nat.sub_diag, firstn_all. simpl.
  now rewrite app_nil_r.
Qed.

Lemma py_index_nth : forall (lst : list str) n x,
  NoDup lst -> nth_error lst n = Some x -> py_index str_eqb x lst = Ok (Z.of_nat n).
Proof.
  induction lst as [|y ys IH]; intros n x Hnd Hn.
  - destruct n; discriminate.
  - inversion Hnd as [|? ? Hni Hnd']; subst. destruct n as [|n]; simpl in *.
    + injection Hn as ->. now rewrite str_eqb_refl.
    + destruct (str_eqb y x) eqn:E.
      * apply str_eqb_eq in E. subst. exfalso. apply Hni.
        eapply nth_error_In; eauto.
      * rewrite (IH n x Hnd' Hn). simpl. f_equal. lia.
Qed.

Lemma bind_Ok : forall (A B : Type) (c : result A) (k : A -> result B) b,
  bind c k = Ok b -> exists a, c = Ok a /\ k a = Ok b.
Proof. intros A B [a|e] k b H; simpl in H; [eauto | discriminate]. Qed.

Ltac inv_bind H :=
  let a := fresh "a" in
  let Ha := fresh "Ha" in
  apply bind_Ok in H; destruct H as [a [Ha H]].

Lemma slice_to_nonneg : forall (A : Type) (l : list A) n,
  0 <= n -> slice_to l n = firstn (Z.to_nat n) l.
Proof.
  intros A l n Hn. unfold slice_to.
  destruct (n <? 0) eqn:E; [apply Z.ltb_lt in E; lia | reflexivity].
Qed.

Lemma slice_from_nonneg : forall (A : Type) (l : list A) n,
  0 <= n -> slice_from l n = skipn (Z.to_nat n) l.
Proof.
  intros A l n Hn. unfold slice_from.
  destruct (n <? 0) eqn:E; [apply Z.ltb_lt in E; lia | reflexivity].
Qed.

(** ** The selection step of the encoder *)

Lemma consume_inv : forall s lst tok removed bl idx s',
  EnhancedEncoder._consume_from_list s lst = Ok (tok, removed, bl, idx, s') ->
  bl = Z.log2 (len lst) /\
  removed = firstn (Z.to_nat bl) (EnhancedEncoder.bitstream s) /\
  s' = EnhancedEncoder.set_bitstream s (skipn (Z.to_nat bl) (EnhancedEncoder.bitstream s)) /\
  picks lst (EnhancedEncoder.bitstream s) tok (skipn (Z.to_nat bl) (EnhancedEncoder.bitstream s)).
Proof.
  intros s lst tok removed bl idx s' H.
  unfold EnhancedEncoder._consume_from_list in H.
  inv_bind H. unfold ceil_log2 in Ha.
  destruct (len lst <=? 0) eqn:El; [discriminate|]. injection Ha as <-.
  apply Z.leb_gt in El. rewrite canonical_length in H by lia.
  pose proof (Z.log2_nonneg (len lst)) as Hnn.
  inv_bind H. inv_bind H. injection H as <- <- <- <- <-.
  rewrite slice_to_nonneg, slice_from_nonneg by assumption.
  repeat split; try reflexivity.
  - intros ->. discriminate.
  - destruct (Z.log2 (len lst) =? 0) eqn:E0.
    + apply Z.eqb_eq in E0. injection Ha as <-. left. rewrite E0. split; [reflexivity|].
      apply getitem_inv in Ha0; [|lia]. apply Ha0.
    + apply Z.eqb_neq in E0. right. split; [lia|].
      rewrite slice_to_nonneg in Ha by assumption.
      exists a. split; [assumption|].
      pose proof (int2_bound _ _ Ha) as Hb.
      apply getitem_inv in Ha0; [|lia]. apply Ha0.
Qed.

Lemma picks_all : forall lst bits tok,
  picks lst bits tok [] ->
  firstn (Z.to_nat (Z.log2 (len lst))) bits = bits.
Proof.
  intros lst bits tok [_ [Hr _]].
  rewrite <- (firstn_skipn (Z.to_nat (Z.log2 (len lst))) bits) at 2.
  rewrite <- Hr. now rewrite app_nil_r.
Qed.

Lemma inject_inv : forall s removed s1,
  EnhancedEncoder._inject_end_key s removed = Ok s1 ->
  exists i, (i < List.length (EnhancedEncoder.output_tokens s))%nat /\
    EnhancedEncoder.output_tokens s1 = mark i (len removed) (EnhancedEncoder.output_tokens s) /\
    EnhancedEncoder.finished s1 = true.
Proof.
  intros s removed s1 H. unfold EnhancedEncoder._inject_end_key in H.
  inv_bind H. destruct a as [i g]. unfold randint in Ha.
  destruct (len (EnhancedEncoder.output_tokens s) - 1 <? 0) eqn:E; [discriminate|].
  apply Z.ltb_ge in E. injection Ha as Hi Hg.
  assert (Hr : 0 <= i < len (EnhancedEncoder.output_tokens s)).
  { subst i.
    pose proof (Z.mod_pos_bound (draws (EnhancedEncoder.rng s) (drawn (EnhancedEncoder.rng s)))
                  (len (EnhancedEncoder.output_tokens s) - 1 - 0 + 1)). lia. }
  clear Hi. inv_bind H. inv_bind H. injection H as <-. simpl.
  apply getitem_inv in Ha; [|lia]. destruct Ha as [Hn _].
  unfold chr in Ha0. destruct ((0 <=? len removed + 97) && (len removed + 97 <? 1114112));
    [|discriminate]. injection Ha0 as <-.
  exists (Z.to_nat i). split; [unfold len in Hr; lia|]. split; [|reflexivity].
  unfold mark, setitem. destruct (i <? 0) eqn:E0; [apply Z.ltb_lt in E0; lia|].
  now rewrite (nth_error_nth _ _ _ Hn).
Qed.

Section EncoderRuns.
Import EnhancedEncoder.

Lemma choose_entrypoint_inv : forall s s1,
  _choose_entrypoint s = Ok s1 ->
  exists tok rest,
    picks (entrypoints s) (bitstream s) tok rest /\
    let g := if state_size (model s) =? 1 then [tok]
             else repeat BEGIN (Z.to_nat (state_size (model s) - 1)) ++ [tok] in
    let s3 := emit (set_bitstream (set_exhausted s false) rest) g tok in
    (rest = [] /\ _inject_end_key s3 (bitstream s) = Ok s1) \/ (rest <> [] /\ s1 = s3).
Proof.
  intros s s1 H. unfold _choose_entrypoint in H.
  inv_bind H. destruct a as [[[[tok removed] bl] idx] s2].
  apply consume_inv in Ha. destruct Ha as [Hbl [Hrem [Hs2 Hp]]].
  simpl in Hbl, Hrem, Hs2, Hp. exists tok, (skipn (Z.to_nat bl) (bitstream s)).
  split; [exact Hp|]. subst s2. simpl in H.
  destruct (skipn (Z.to_nat bl) (bitstream s)) as [|b rest] eqn:Er.
  - left. split; [reflexivity|]. subst bl. rewrite (picks_all _ _ _ Hp) in Hrem.
    now subst removed.
  - right. split; [discriminate|]. now injection H as <-.
Qed.

Lemma choose_next_token_inv : forall s s1,
  _choose_next_token s = Ok s1 ->
  exists g lst,
    current_gram s = Some g /\
    _get_transitions (model s) (Some g) = Ok lst /\
    ((py_in str_eqb END lst = true /\ s1 = set_exhausted s true) \/
     (py_in str_eqb END lst = false /\
      exists tok rest,
        picks lst (bitstream s) tok rest /\
        let s3 := emit (set_bitstream s rest) (slice_from (g ++ [tok]) 1) tok in
        (rest = [] /\ _inject_end_key s3 (bitstream s) = Ok s1) \/ (rest <> [] /\ s1 = s3))).
Proof.
  intros s s1 H. unfold _choose_next_token in H.
  inv_bind H. rename a into lst.
  destruct (current_gram s) as [g|] eqn:Eg; [|discriminate].
  exists g, lst. split; [reflexivity|]. split; [exact Ha|].
  destruct (py_in str_eqb END lst) eqn:Eend.
  - left. split; [reflexivity|]. now injection H as <-.
  - right. split; [reflexivity|].
    inv_bind H. destruct a as [[[[tok removed] bl] idx] s2].
    apply consume_inv in Ha0. destruct Ha0 as [Hbl [Hrem [Hs2 Hp]]].
    exists tok, (skipn (Z.to_nat bl) (bitstream s)).
    split; [exact Hp|]. subst s2. simpl in H. rewrite Eg in H.
    destruct (skipn (Z.to_nat bl) (bitstream s)) as [|b rest] eqn:Er.
    + left. split; [reflexivity|]. subst bl. rewrite (picks_all _ _ _ Hp) in Hrem.
      now subst removed.
    + right. split; [discriminate|]. now injection H as <-.
Qed.

Lemma step_inv : forall s v s1,
  finished s = false -> step s = Ok (v, s1) ->
  (if exhausted s then _choose_entrypoint s else _choose_next_token s) = Ok s1.
Proof.
  intros s v s1 Hf H. unfold step in H. rewrite Hf in H.
  inv_bind H. inv_bind H. now injection H as _ <-.
Qed.

Lemma generate_finished : forall fuel s,
  finished s = true -> generate fuel s = Some (Ok (output s, s)).
Proof. intros fuel s H. destruct fuel; simpl; now rewrite H. Qed.

(** Every completed run of [generate] is a [Trace]. *)
Lemma generate_trace : forall fuel s text sf,
  finished s = false -> bitstream s <> [] ->
  generate fuel s = Some (Ok (text, sf)) ->
  exists n toks c i,
    (n <= fuel)%nat /\
    Trace (model s) (entrypoints s) n (exhausted s) (current_gram s) (bitstream s) toks c /\
    (i < List.length (output_tokens s ++ toks))%nat /\
    output_tokens sf = mark i c (output_tokens s ++ toks) /\
    text = join_space (output_tokens sf).
Proof.
  induction fuel as [|fuel IH]; intros s text sf Hf Hb H; simpl in H; rewrite Hf in H.
  - discriminate.
  - destruct (step s) as [[v s1]|e] eqn:Es; [|discriminate].
    apply step_inv in Es; [|assumption].
    destruct (exhausted s) eqn:Ex.
    + apply choose_entrypoint_inv in Es. destruct Es as [tok [rest [Hp Hc]]].
      cbv zeta in Hc. destruct Hc as [[Hr Hi] | [Hr Hs]].
      * subst rest. apply inject_inv in Hi. simpl in Hi. destruct Hi as [i [Hi [Ho Hfin]]].
        rewrite generate_finished in H by assumption. injection H as <- <-.
        exists 1%nat, [tok], (len (bitstream s)), i.
        split; [lia|]. split; [now apply Trace_entry_last|]. now repeat split.
      * subst s1. apply IH in H; [|assumption|exact Hr].
        destruct H as [n [toks [c [i [Hn [Ht [Hi [Ho Htx]]]]]]]]. simpl in Ht, Hi, Ho.
        rewrite <- app_assoc in Hi, Ho. simpl in Hi, Ho.
        exists (S n), (tok :: toks), c, i. split; [lia|].
        split; [|now repeat split]. eapply Trace_entry; eauto.
    + apply choose_next_token_inv in Es.
      destruct Es as [g [lst [Hg [Ht [[Hend Hs] | [Hend [tok [rest [Hp Hc]]]]]]]]].
      * subst s1. apply IH in H; [|assumption|assumption].
        destruct H as [n [toks [c [i [Hn [Htr [Hi [Ho Htx]]]]]]]]. simpl in Htr, Hi, Ho.
        rewrite Hg in Htr.
        exists (S n), toks, c, i. split; [lia|].
        split; [|now repeat split]. rewrite Hg. eapply Trace_boundary; eauto.
      * cbv zeta in Hc. destruct Hc as [[Hr Hi] | [Hr Hs]].
        -- subst rest. apply inject_inv in Hi. simpl in Hi. destruct Hi as [i [Hi [Ho Hfin]]].
           rewrite generate_finished in H by assumption. injection H as <- <-.
           exists 1%nat, [tok], (len (bitstream s)), i.
           split; [lia|]. split; [rewrite Hg; eapply Trace_next_last; eauto|]. now repeat split.
        -- subst s1. apply IH in H; [|assumption|exact Hr].
           destruct H as [n [toks [c [i [Hn [Htr [Hi [Ho Htx]]]]]]]]. simpl in Htr, Hi, Ho.
           rewrite <- app_assoc in Hi, Ho. simpl in Hi, Ho.
           exists (S n), (tok :: toks), c, i. split; [lia|].
           split; [|now repeat split]. rewrite Hg. rewrite Ex in Htr.
           eapply Trace_next; eauto.
Qed.

End EncoderRuns.

(** ** Candidate lists of a marker-safe model *)

Lemma nodupb_NoDup : forall l, nodupb l = true -> NoDup l.
Proof.
  induction l as [|x xs IH]; simpl; intro H; constructor;
    apply andb_true_iff in H; destruct H as [H1 H2].
  - apply negb_true_iff in H1. now apply in_str_not_In.
  - now apply IH.
Qed.

Lemma no_collision_spec : forall lst t ch,
  no_collision lst = true -> In t lst -> ~ In (t ++ [ch]) lst.
Proof.
  intros lst t ch H Ht Hu. unfold no_collision in H.
  rewrite forallb_forall in H. specialize (H t Ht).
  apply negb_true_iff in H.
  assert (existsb (extends_by_one t) lst = true); [|congruence].
  apply existsb_exists. exists (t ++ [ch]). split; [assumption|].
  unfold extends_by_one. rewrite removelast_last.
  destruct (t ++ [ch]) eqn:E; [now destruct t | apply str_eqb_refl].
Qed.

Lemma no_space_spec : forall lst t,
  no_space lst = true -> In t lst -> ~ In 32 t.
Proof.
  intros lst t H Ht H32. unfold no_space in H.
  rewrite forallb_forall in H. specialize (H t Ht).
  apply negb_true_iff in H.
  assert (existsb (Z.eqb 32) t = true); [|congruence].
  apply existsb_exists. exists 32. split; [assumption | reflexivity].
Qed.

Lemma list_ok_spec : forall lst,
  list_ok lst = true ->
  NoDup lst /\
  (forall t ch, In t lst -> ~ In (t ++ [ch]) lst) /\
  (forall t, In t lst -> ~ In 32 t).
Proof.
  intros lst H. unfold list_ok in H.
  apply andb_true_iff in H. destruct H as [H H3].
  apply andb_true_iff in H. destruct H as [H1 H2].
  split; [now apply nodupb_NoDup|]. split.
  - intros t ch. now apply no_collision_spec.
  - intro t. now apply no_space_spec.
Qed.

Lemma dict_get_In : forall (K V : Type) (eqb : K -> K -> bool) k (d : dict K V) v,
  dict_get eqb k d = Some v -> exists k', In (k', v) d.
Proof.
  induction d as [|[k' v'] d IH]; simpl; intros v H; [discriminate|].
  destruct (eqb k' k).
  - injection H as ->. eauto.
  - destruct (IH v H) as [k'' Hk]. eauto.
Qed.

Lemma marker_safe_spec : forall m,
  marker_safe m = true ->
  exists E, EnhancedEncoder._get_entrypoints m = Ok E /\ 2 <= len E /\
            forall lst, candidate m E lst -> list_ok lst = true.
Proof.
  intros m H. unfold marker_safe in H.
  destruct (EnhancedEncoder._get_entrypoints m) as [E|] eqn:Ee; [|discriminate].
  apply andb_true_iff in H. destruct H as [H H3].
  apply andb_true_iff in H. destruct H as [H1 H2].
  exists E. split; [reflexivity|]. split; [now apply Z.leb_le|].
  intros lst [-> | [g Hg]]; [assumption|].
  unfold EnhancedEncoder._get_transitions, dict_item in Hg.
  destruct (dict_get gram_eqb g (chain_model m)) as [d|] eqn:Ed; [|discriminate].
  simpl in Hg. injection Hg as <-.
  destruct (dict_get_In _ _ _ _ _ _ Ed) as [k' Hk].
  rewrite forallb_forall in H3. apply (H3 _ Hk).
Qed.

(** ** The marked token list *)

Lemma replace_nth_length : forall (A : Type) n (x : A) l,
  List.length (replace_nth n x l) = List.length l.
Proof.
  intros A n x l. revert n. induction l as [|y ys IH]; intro n; [now destruct n|].
  destruct n; simpl; [reflexivity | now rewrite IH].
Qed.

Lemma replace_nth_nth_error : forall (A : Type) n (x : A) l p,
  (p < List.length l)%nat ->
  nth_error (replace_nth n x l) p = if (p =? n)%nat then Some x else nth_error l p.
Proof.
  intros A n x l. revert n. induction l as [|y ys IH]; intros n p Hp; simpl in Hp; [lia|].
  destruct n as [|n]; destruct p as [|p]; simpl; try reflexivity.
  apply IH. lia.
Qed.

Lemma mark_length : forall i c U, List.length (mark i c U) = List.length U.
Proof. intros. apply replace_nth_length. Qed.

Lemma mark_nth_error : forall i c pre tok post,
  nth_error (mark i c (pre ++ tok :: post)) (List.length pre)
  = Some (if (List.length pre =? i)%nat then tok ++ [c + 97] else tok).
Proof.
  intros i c pre tok post. unfold mark.
  rewrite replace_nth_nth_error by (rewrite length_app; simpl; lia).
  destruct (List.length pre =? i)%nat eqn:E.
  - apply Nat.eqb_eq in E. subst i. now rewrite app_nth2, Nat.sub_diag by lia.
  - now rewrite nth_error_app2, Nat.sub_diag by lia.
Qed.

(** ** Tokens of a trace *)

Lemma picks_In : forall lst bits tok rest, picks lst bits tok rest -> In tok lst.
Proof.
  intros lst bits tok rest [_ [_ [[_ H] | [_ [idx [_ H]]]]]];
    eapply nth_error_In; eauto.
Qed.

Lemma Trace_nonempty : forall m E n e g bits toks c,
  Trace m E n e g bits toks c -> toks <> [].
Proof. intros m E n e g bits toks c H. induction H; try discriminate; assumption. Qed.

Lemma Trace_tokens : forall m E n e g bits toks c,
  Trace m E n e g bits toks c ->
  Forall (fun t => exists lst, candidate m E lst /\ In t lst) toks.
Proof.
  intros m E n e g bits toks c H. induction H.
  - constructor; [|constructor]. exists E. split; [now left | eapply picks_In; eauto].
  - constructor; [|assumption]. exists E. split; [now left | eapply picks_In; eauto].
  - assumption.
  - constructor; [|constructor]. exists lst. split; [right; eauto | eapply picks_In; eauto].
  - constructor; [|assumption]. exists lst. split; [right; eauto | eapply picks_In; eauto].
Qed.

Lemma Trace_key : forall m E n e g bits toks c,
  Trace m E n e g bits toks c -> 1 <= c.
Proof.
  intros m E n e g bits toks c H. induction H; try assumption;
    destruct bits; try congruence; unfold len; simpl; lia.
Qed.

Section DecoderRuns.
Import EnhancedDecoder.

(** ** One step of the decoder *)

Lemma parse_token : forall lst tok (marked : bool) c ek0,
  list_ok lst = true -> In tok lst ->
  (if negb (py_in str_eqb (if marked then tok ++ [c + 97] else tok) lst) then
     ch <- getitem (if marked then tok ++ [c + 97] else tok) (-1) ;;
     Ok (ord ch - 97, slice_to (if marked then tok ++ [c + 97] else tok) (-1))
   else Ok (ek0, if marked then tok ++ [c + 97] else tok))
  = Ok (if marked then c else ek0, tok).
Proof.
  intros lst tok marked c ek0 Hok Hin.
  destruct (list_ok_spec lst Hok) as [_ [Hcol _]].
  destruct marked.
  - assert (E : py_in str_eqb (tok ++ [c + 97]) lst = false).
    { apply in_str_not_In. now apply Hcol. }
    rewrite E. cbn [negb]. rewrite getitem_last. cbn [bind].
    rewrite slice_to_last. unfold ord.
    now replace (c + 97 - 97) with c by lia.
  - assert (E : py_in str_eqb tok lst = true) by now apply in_str_In.
    now rewrite E.
Qed.

Lemma dec_choose_entrypoint : forall sd tk tok ek idx,
  getitem (stega_text sd) (index sd) = Ok tk ->
  (if negb (py_in str_eqb tk (entrypoints sd)) then
     ch <- getitem tk (-1) ;; Ok (ord ch - 97, slice_to tk (-1))
   else Ok (endkey sd, tk)) = Ok (ek, tok) ->
  py_index str_eqb tok (entrypoints sd) = Ok idx ->
  1 <= len (entrypoints sd) ->
  _choose_entrypoint sd =
  Ok {| model := model sd; stega_text := stega_text sd; entrypoints := entrypoints sd;
        output := output sd ++
                  zfill (bin2 idx)
                    (if index sd =? len (stega_text sd) - 1 then ek
                     else Z.log2 (len (entrypoints sd)));
        endkey := ek;
        current_gram := Some (if state_size (model sd) =? 1 then [tok]
                              else repeat BEGIN (Z.to_nat (state_size (model sd) - 1)) ++ [tok]);
        exhausted := false; finished := finished sd; index := index sd |}.
Proof.
  intros sd tk tok ek idx H1 H2 H3 H4. unfold _choose_entrypoint.
  rewrite H1. cbn [bind]. rewrite H2. cbn [bind]. rewrite H3. cbn [bind].
  unfold ceil_log2. destruct (len (entrypoints sd) <=? 0) eqn:E;
    [apply Z.leb_le in E; lia|]. cbn [bind].
  now rewrite canonical_length by assumption.
Qed.

Lemma dec_boundary : forall sd lst tk,
  _get_transitions (model sd) (current_gram sd) = Ok lst ->
  index sd < len (stega_text sd) - 1 ->
  getitem (stega_text sd) (index sd + 1) = Ok tk ->
  py_in str_eqb END lst = true ->
  _choose_next_token sd =
  Ok {| model := model sd; stega_text := stega_text sd; entrypoints := entrypoints sd;
        output := output sd; endkey := endkey sd; current_gram := None;
        exhausted := true; finished := finished sd; index := index sd + 1 |}.
Proof.
  intros sd lst tk H1 H2 H3 H4. unfold _choose_next_token.
  rewrite H1. cbn [bind].
  assert (E : (index sd <? len (stega_text sd) - 1) = true) by now apply Z.ltb_lt.
  rewrite E, H3. cbn [bind]. unfold ceil_log2.
  assert (Hl : 1 <= len lst).
  { apply in_str_In in H4. destruct lst; [contradiction|]. unfold len. simpl. lia. }
  destruct (len lst <=? 0) eqn:E0; [apply Z.leb_le in E0; lia|]. cbn [bind].
  now rewrite H4.
Qed.

Lemma dec_choose_next_token : forall sd g lst tk tok ek,
  current_gram sd = Some g ->
  _get_transitions (model sd) (Some g) = Ok lst ->
  index sd < len (stega_text sd) - 1 ->
  getitem (stega_text sd) (index sd + 1) = Ok tk ->
  py_in str_eqb END lst = false ->
  1 <= len lst ->
  (if negb (py_in str_eqb tk lst) then
     ch <- getitem tk (-1) ;; Ok (ord ch - 97, slice_to tk (-1))
   else Ok (endkey sd, tk)) = Ok (ek, tok) ->
  _choose_next_token sd =
  let bit_length := if index sd =? len (stega_text sd) - 2 then ek else Z.log2 (len lst) in
  bit_string <- (if negb (bit_length =? 0) then
                   i <- py_index str_eqb tok lst ;; Ok (zfill (bin2 i) bit_length)
                 else Ok []) ;;
  Ok {| model := model sd; stega_text := stega_text sd; entrypoints := entrypoints sd;
        output := output sd ++ bit_string; endkey := ek;
        current_gram := Some (slice_from (g ++ [tok]) 1);
        exhausted := exhausted sd; finished := finished sd; index := index sd + 1 |}.
Proof.
  intros sd g lst tk tok ek Hg H1 H2 H3 H4 H5 H6. unfold _choose_next_token.
  rewrite Hg, H1. cbn [bind].
  assert (E : (index sd <? len (stega_text sd) - 1) = true) by now apply Z.ltb_lt.
  assert (E' : (index sd =? len (stega_text sd) - 1) = false) by (apply Z.eqb_neq; lia).
  rewrite E, E', H3. cbn [bind]. unfold ceil_log2.
  destruct (len lst <=? 0) eqn:E0; [apply Z.leb_le in E0; lia|]. cbn [bind].
  rewrite H4. cbn [negb]. rewrite andb_true_r.
  match goal with
  | |- bind ?x _ = _ => replace x with (@Ok (Z * str) (ek, tok)) by (symmetry; exact H6)
  end. cbn [bind].
  now rewrite canonical_length' by assumption.
Qed.

Lemma solve_step : forall fuel sd v sd1,
  finished sd = false -> step sd = Ok (v, sd1) ->
  solve (S fuel) sd = solve fuel sd1.
Proof. intros fuel sd v sd1 Hf Hs. simpl. now rewrite Hf, Hs. Qed.

Lemma solve_last : forall fuel sd,
  finished sd = false -> exhausted sd = false ->
  len (stega_text sd) - 1 <= index sd ->
  exists sd', solve (S fuel) sd = Some (Ok (output sd, sd')).
Proof.
  intros fuel sd Hf He Hi. eexists. simpl. rewrite Hf. unfold step.
  assert (E : (len (stega_text sd) - 1 <=? index sd) = true) by now apply Z.leb_le.
  rewrite E, He. cbn [negb andb]. destruct fuel; reflexivity.
Qed.

Lemma step_not_last : forall sd,
  (exhausted sd = true \/ index sd < len (stega_text sd) - 1) ->
  1 <= len (stega_text sd) ->
  forall sd1,
  (if exhausted sd then _choose_entrypoint sd else _choose_next_token sd) = Ok sd1 ->
  stega_text sd1 = stega_text sd ->
  step sd = Ok (PyQuot (index sd1) (len (stega_text sd)), sd1).
Proof.
  intros sd H Hl sd1 Hs Ht. unfold step.
  assert (E : (len (stega_text sd) - 1 <=? index sd) && negb (exhausted sd) = false).
  { destruct H as [-> | H]; [apply andb_false_r|].
    apply andb_false_iff. left. apply Z.leb_gt. lia. }
  rewrite E, Hs. cbn [bind]. unfold py_div. rewrite Ht.
  destruct (len (stega_text sd) =? 0) eqn:E0; [apply Z.eqb_eq in E0; lia|]. reflexivity.
Qed.


Lemma picks_index : forall lst bits tok rest,
  picks lst bits tok rest -> NoDup lst ->
  exists idx, py_index str_eqb tok lst = Ok idx /\
    (Z.log2 (len lst) <> 0 ->
     int2 (firstn (Z.to_nat (Z.log2 (len lst))) bits) = Ok idx).
Proof.
  intros lst bits tok rest [Hne [Hr Hc]] Hnd.
  pose proof (Z.log2_nonneg (len lst)) as Hnn.
  destruct Hc as [[HL Hn] | [HL [idx [Hi Hn]]]].
  - exists 0. split; [apply (py_index_nth lst 0 tok Hnd Hn) | lia].
  - exists idx. pose proof (int2_bound _ _ Hi) as Hb. split; [|now intros _].
    rewrite <- (Z2Nat.id idx) by lia. now apply py_index_nth.
Qed.

Lemma emitted_mid : forall lst bits tok rest,
  picks lst bits tok rest -> rest <> [] -> NoDup lst ->
  exists idx, py_index str_eqb tok lst = Ok idx /\
    (if negb (Z.log2 (len lst) =? 0) then zfill (bin2 idx) (Z.log2 (len lst)) else [])
    ++ rest = bits.
Proof.
  intros lst bits tok rest Hp Hr Hnd.
  destruct (picks_index _ _ _ _ Hp Hnd) as [idx [Hi Hint]].
  exists idx. split; [assumption|]. destruct Hp as [_ [Hrest _]].
  pose proof (Z.log2_nonneg (len lst)) as Hnn.
  destruct (Z.log2 (len lst) =? 0) eqn:E0; cbn [negb].
  - apply Z.eqb_eq in E0. rewrite E0 in Hrest. simpl in *. now subst.
  - apply Z.eqb_neq in E0. specialize (Hint E0).
    assert (Hlen : len (firstn (Z.to_nat (Z.log2 (len lst))) bits) = Z.log2 (len lst)).
    { unfold len at 1. rewrite length_firstn.
      assert (Z.to_nat (Z.log2 (len lst)) < List.length bits)%nat;
        [|rewrite Nat.min_l by lia; lia].
      destruct (Nat.lt_ge_cases (Z.to_nat (Z.log2 (len lst))) (List.length bits));
        [assumption|]. exfalso. apply Hr. subst rest. now apply skipn_all2. }
    rewrite <- Hlen at 1. rewrite (zfill_bin2 _ _ Hint). subst rest.
    apply firstn_skipn.
Qed.

Lemma emitted_last : forall lst bits tok,
  picks lst bits tok [] -> bits <> [] -> NoDup lst ->
  exists idx, py_index str_eqb tok lst = Ok idx /\
    (if negb (len bits =? 0) then zfill (bin2 idx) (len bits) else []) = bits /\
    zfill (bin2 idx) (len bits) = bits.
Proof.
  intros lst bits tok Hp Hb Hnd.
  destruct (picks_index _ _ _ _ Hp Hnd) as [idx [Hi Hint]].
  exists idx. split; [assumption|].
  pose proof (picks_all _ _ _ Hp) as Hall. rewrite Hall in Hint.
  assert (HL : Z.log2 (len lst) <> 0).
  { intro E. rewrite E in Hall. simpl in Hall. congruence. }
  specialize (Hint HL).
  assert (E : (len bits =? 0) = false).
  { apply Z.eqb_neq. destruct bits; [congruence|]. unfold len. simpl. lia. }
  rewrite E. cbn [negb]. split; now apply zfill_bin2.
Qed.

Lemma getitem_mark : forall i c pre tok post,
  getitem (mark i c (pre ++ tok :: post)) (len pre)
  = Ok (if (List.length pre =? i)%nat then tok ++ [c + 97] else tok).
Proof.
  intros. apply getitem_nth; [apply len_nonneg|].
  unfold len. rewrite Nat2Z.id. apply mark_nth_error.
Qed.

Lemma len_mark : forall i c U, len (mark i c U) = len U.
Proof. intros. unfold len. now rewrite mark_length. Qed.

Lemma len_cons : forall (A : Type) (x : A) l, len (x :: l) = 1 + len l.
Proof. intros. unfold len. simpl List.length. lia. Qed.

Lemma len_pos : forall (A : Type) (l : list A), l <> [] -> 1 <= len l.
Proof. intros A [|x l] H; [congruence|]. rewrite len_cons. pose proof (len_nonneg A l). lia. Qed.

(** The decoder follows a trace of the encoder and outputs its bits. *)
Lemma trace_decodes : forall m E U i n e g bits toks c,
  Trace m E n e g bits toks c ->
  (forall lst, candidate m E lst -> list_ok lst = true) ->
  2 <= len E ->
  (i < List.length U)%nat ->
  forall pre sd,
    U = pre ++ toks ->
    model sd = m -> entrypoints sd = E -> stega_text sd = mark i c U ->
    finished sd = false -> exhausted sd = e ->
    (if e then index sd = len pre else index sd = len pre - 1 /\ current_gram sd = g) ->
    ((i < List.length pre)%nat -> endkey sd = c) ->
    exists sd', solve (S n) sd = Some (Ok (output sd ++ bits, sd')).
Proof.
  intros m E U i n e g bits toks c H Hcand HE2 Hi.
  induction H as [g bits tok Hb Hp
                 | g bits tok rest n toks c Hp Hr Htr IH
                 | g lst bits n toks c Hl Hend Htr IH
                 | g lst bits tok Hl Hend Hb Hp
                 | g lst bits tok rest n toks c Hl Hend Hp Hr Htr IH];
    intros pre sd HU Hm HE Ht Hf He Hix Hek.
  - (* the only token is an entry point *)
    assert (HokE : list_ok E = true) by (apply Hcand; now left).
    destruct (list_ok_spec E HokE) as [Hnd _].
    destruct (emitted_last _ _ _ Hp Hb Hnd) as [idx [Hidx [_ Hz]]].
    pose proof (dec_choose_entrypoint sd
                  (if (List.length pre =? i)%nat then tok ++ [len bits + 97] else tok)
                  tok (if (List.length pre =? i)%nat then len bits else endkey sd) idx) as Hs.
    rewrite Ht, Hix, HU, HE in Hs. rewrite getitem_mark in Hs.
    specialize (Hs eq_refl (parse_token E tok _ _ _ HokE (picks_In _ _ _ _ Hp)) Hidx ltac:(lia)).
    rewrite len_mark, len_app, len_cons in Hs. change (len (@nil str)) with 0 in Hs.
    replace (len pre =? len pre + (1 + 0) - 1) with true in Hs by (symmetry; apply Z.eqb_eq; lia).
    assert (Hk : (if (List.length pre =? i)%nat then len bits else endkey sd) = len bits).
    { destruct (List.length pre =? i)%nat eqn:E0; [reflexivity|].
      apply Nat.eqb_neq in E0. apply Hek. rewrite HU, length_app in Hi. simpl in Hi. lia. }
    rewrite Hk, Hz in Hs.
    erewrite solve_step; [| assumption |].
    2:{ apply step_not_last; [left; assumption | | rewrite He; exact Hs | cbn; now rewrite Ht, HU].
        rewrite ?Ht, ?len_mark, ?HU, ?len_app, ?len_cons. pose proof (len_nonneg _ pre).
        change (len (@nil str)) with 0. lia. }
    match goal with |- exists _, solve _ ?s = _ =>
      destruct (solve_last 0 s) as [sd' Hsd'] end;
      [cbn; try assumption; try reflexivity; try (now rewrite HU) .. |].
    + rewrite ?Ht, ?len_mark, ?HU, ?len_app, ?len_cons. change (len (@nil str)) with 0. lia.
    + exists sd'. exact Hsd'.
  - (* an entry point followed by more tokens *)
    assert (HokE : list_ok E = true) by (apply Hcand; now left).
    destruct (list_ok_spec E HokE) as [Hnd _].
    destruct (emitted_mid _ _ _ _ Hp Hr Hnd) as [idx [Hidx Hz]].
    pose proof (Trace_nonempty _ _ _ _ _ _ _ _ Htr) as Hne.
    pose proof (len_pos _ _ Hne) as Hlt.
    pose proof (dec_choose_entrypoint sd
                  (if (List.length pre =? i)%nat then tok ++ [c + 97] else tok)
                  tok (if (List.length pre =? i)%nat then c else endkey sd) idx) as Hs.
    rewrite Ht, Hix, HU, HE in Hs. rewrite getitem_mark in Hs.
    specialize (Hs eq_refl (parse_token E tok _ _ _ HokE (picks_In _ _ _ _ Hp)) Hidx ltac:(lia)).
    rewrite len_mark, len_app, len_cons in Hs.
    replace (len pre =? len pre + (1 + len toks) - 1) with false in Hs
      by (symmetry; apply Z.eqb_neq; lia).
    assert (HL : (Z.log2 (len E) =? 0) = false).
    { apply Z.eqb_neq. pose proof (Z.log2_pos (len E)). lia. }
    rewrite HL in Hz. cbn [negb] in Hz.
    erewrite solve_step; [| assumption |].
    2:{ apply step_not_last; [left; assumption | | rewrite He; exact Hs | cbn; now rewrite Ht, HU].
        rewrite ?Ht, ?len_mark, ?HU, ?len_app, ?len_cons. pose proof (len_nonneg _ pre). lia. }
    match goal with |- exists _, solve _ ?s = _ =>
      destruct (IH (pre ++ [tok]) s) as [sd' Hsd'] end;
      [cbn; try assumption; try reflexivity; try (now rewrite HU) .. |].
    + now rewrite <- app_assoc.
    + rewrite Hm. split; [|reflexivity]. rewrite len_app. change (len [tok]) with 1. lia.
    + intro Hlt'. destruct (List.length pre =? i)%nat eqn:E0; [reflexivity|].
      apply Nat.eqb_neq in E0. apply Hek. rewrite length_app in Hlt'. simpl in Hlt'. lia.
    + exists sd'. rewrite Hsd'. cbn. now rewrite <- app_assoc, Hz.
  - (* a chain boundary *)
    destruct Hix as [Hix Hg].
    pose proof (Trace_nonempty _ _ _ _ _ _ _ _ Htr) as Hne.
    destruct toks as [|tok toks]; [congruence|].
    pose proof (dec_boundary sd lst
                  (if (List.length pre =? i)%nat then tok ++ [c + 97] else tok)) as Hs.
    rewrite Hg, Hm, Ht, Hix, HU in Hs. rewrite len_mark, len_app, len_cons in Hs.
    replace (len pre - 1 + 1) with (len pre) in Hs by lia.
    rewrite getitem_mark in Hs. pose proof (len_nonneg _ toks) as Hnn.
    specialize (Hs Hl ltac:(lia) eq_refl Hend).
    erewrite solve_step; [| assumption |].
    2:{ apply step_not_last; [right | | rewrite He; exact Hs | cbn; now rewrite Ht, HU].
        - rewrite ?Ht, ?len_mark, ?HU, ?len_app, ?len_cons. lia.
        - rewrite ?Ht, ?len_mark, ?HU, ?len_app, ?len_cons. pose proof (len_nonneg _ pre). lia. }
    match goal with |- exists _, solve _ ?s = _ =>
      destruct (IH pre s) as [sd' Hsd'] end;
      [cbn; try assumption; try reflexivity; try (now rewrite HU) .. |].
    exists sd'. exact Hsd'.
  - (* the last token, inside a chain *)
    destruct Hix as [Hix Hg].
    assert (Hok : list_ok lst = true) by (apply Hcand; right; eauto).
    destruct (list_ok_spec lst Hok) as [Hnd _].
    destruct (emitted_last _ _ _ Hp Hb Hnd) as [idx [Hidx [Hz _]]].
    pose proof (dec_choose_next_token sd g lst
                  (if (List.length pre =? i)%nat then tok ++ [len bits + 97] else tok)
                  tok (if (List.length pre =? i)%nat then len bits else endkey sd)) as Hs.
    rewrite Hm, Ht, Hix, HU in Hs. rewrite len_mark, len_app, len_cons in Hs.
    change (len (@nil str)) with 0 in Hs.
    replace (len pre - 1 + 1) with (len pre) in Hs by lia.
    rewrite getitem_mark in Hs.
    assert (Hll : 1 <= len lst) by (apply len_pos; apply Hp).
    specialize (Hs Hg Hl ltac:(lia) eq_refl Hend Hll
                  (parse_token lst tok _ _ _ Hok (picks_In _ _ _ _ Hp))).
    cbv zeta in Hs.
    replace (len pre - 1 =? len pre + (1 + 0) - 2) with true in Hs
      by (symmetry; apply Z.eqb_eq; lia).
    assert (Hk : (if (List.length pre =? i)%nat then len bits else endkey sd) = len bits).
    { destruct (List.length pre =? i)%nat eqn:E0; [reflexivity|].
      apply Nat.eqb_neq in E0. apply Hek. rewrite HU, length_app in Hi. simpl in Hi. lia. }
    rewrite Hk in Hs.
    assert (Eb : (len bits =? 0) = false).
    { apply Z.eqb_neq. pose proof (len_pos _ _ Hb). lia. }
    rewrite Eb in Hs, Hz. cbn [negb] in Hs, Hz. rewrite Hidx in Hs. cbn [bind] in Hs.
    rewrite Hz in Hs.
    erewrite solve_step; [| assumption |].
    2:{ apply step_not_last; [right | | rewrite He; exact Hs | cbn; now rewrite Ht, HU].
        - rewrite ?Ht, ?len_mark, ?HU, ?len_app, ?len_cons. change (len (@nil str)) with 0. lia.
        - rewrite ?Ht, ?len_mark, ?HU, ?len_app, ?len_cons. pose proof (len_nonneg _ pre).
          change (len (@nil str)) with 0. lia. }
    match goal with |- exists _, solve _ ?s = _ =>
      destruct (solve_last 0 s) as [sd' Hsd'] end;
      [cbn; try assumption; try reflexivity; try (now rewrite HU) .. |].
    + rewrite ?Ht, ?len_mark, ?HU, ?len_app, ?len_cons. change (len (@nil str)) with 0. lia.
    + exists sd'. exact Hsd'.
  - (* a token inside a chain followed by more tokens *)
    destruct Hix as [Hix Hg].
    assert (Hok : list_ok lst = true) by (apply Hcand; right; eauto).
    destruct (list_ok_spec lst Hok) as [Hnd _].
    destruct (emitted_mid _ _ _ _ Hp Hr Hnd) as [idx [Hidx Hz]].
    pose proof (Trace_nonempty _ _ _ _ _ _ _ _ Htr) as Hne.
    pose proof (len_pos _ _ Hne) as Hlt.
    pose proof (dec_choose_next_token sd g lst
                  (if (List.length pre =? i)%nat then tok ++ [c + 97] else tok)
                  tok (if (List.length pre =? i)%nat then c else endkey sd)) as Hs.
    rewrite Hm, Ht, Hix, HU in Hs. rewrite len_mark, len_app, len_cons in Hs.
    replace (len pre - 1 + 1) with (len pre) in Hs by lia.
    rewrite getitem_mark in Hs.
    assert (Hll : 1 <= len lst) by (apply len_pos; apply Hp).
    specialize (Hs Hg Hl ltac:(lia) eq_refl Hend Hll
                  (parse_token lst tok _ _ _ Hok (picks_In _ _ _ _ Hp))).
    cbv zeta in Hs.
    replace (len pre - 1 =? len pre + (1 + len toks) - 2) with false in Hs
      by (symmetry; apply Z.eqb_neq; lia).
    assert (Hbs : (if negb (Z.log2 (len lst) =? 0)
                   then i0 <- py_index str_eqb tok lst ;; Ok (zfill (bin2 i0) (Z.log2 (len lst)))
                   else Ok [])
                  = Ok (if negb (Z.log2 (len lst) =? 0)
                        then zfill (bin2 idx) (Z.log2 (len lst)) else [])).
    { destruct (Z.log2 (len lst) =? 0); cbn [negb]; [reflexivity|]. now rewrite Hidx. }
    rewrite Hbs in Hs. cbn [bind] in Hs.
    erewrite solve_step; [| assumption |].
    2:{ apply step_not_last; [right | | rewrite He; exact Hs | cbn; now rewrite Ht, HU].
        - rewrite ?Ht, ?len_mark, ?HU, ?len_app, ?len_cons. lia.
        - rewrite ?Ht, ?len_mark, ?HU, ?len_app, ?len_cons. pose proof (len_nonneg _ pre). lia. }
    match goal with |- exists _, solve _ ?s = _ =>
      destruct (IH (pre ++ [tok]) s) as [sd' Hsd'] end;
      [cbn; try assumption; try reflexivity; try (now rewrite HU) .. |].
    + now rewrite <- app_assoc.
    + split; [|reflexivity]. rewrite len_app. change (len [tok]) with 1. lia.
    + intro Hlt'. destruct (List.length pre =? i)%nat eqn:E0; [reflexivity|].
      apply Nat.eqb_neq in E0. apply Hek. rewrite length_app in Hlt'. simpl in Hlt'. lia.
    + exists sd'. rewrite Hsd'. cbn. now rewrite <- app_assoc, Hz.
Qed.

End DecoderRuns.

(** ** [split] after [join] *)

Lemma split_space_nonempty : forall s, split_space s <> [].
Proof.
  induction s as [|c cs IH]; simpl; [discriminate|].
  destruct (c =? 32); [discriminate|]. destruct (split_space cs); discriminate.
Qed.

Lemma split_space_app : forall w s,
  ~ In 32 w -> split_space (w ++ 32 :: s) = w :: split_space s.
Proof.
  induction w as [|c w IH]; intros s Hw; simpl.
  - reflexivity.
  - destruct (c =? 32) eqn:E; [apply Z.eqb_eq in E; subst; exfalso; apply Hw; now left|].
    rewrite IH; [reflexivity|]. intro H. apply Hw. now right.
Qed.

Lemma split_space_word : forall w, ~ In 32 w -> split_space w = [w].
Proof.
  induction w as [|c w IH]; intro Hw; simpl; [reflexivity|].
  destruct (c =? 32) eqn:E; [apply Z.eqb_eq in E; subst; exfalso; apply Hw; now left|].
  rewrite IH; [reflexivity|]. intro H. apply Hw. now right.
Qed.

Lemma split_join : forall toks,
  toks <> [] -> Forall (fun t => ~ In 32 t) toks ->
  split_space (join_space toks) = toks.
Proof.
  induction toks as [|w ws IH]; intros Hne Hall; [congruence|].
  inversion Hall as [|? ? Hw Hws]; subst.
  destruct ws as [|w' ws'].
  - simpl. now apply split_space_word.
  - change (join_space (w :: w' :: ws')) with (w ++ 32 :: join_space (w' :: ws')).
    rewrite split_space_app by assumption. f_equal. apply IH; [discriminate | assumption].
Qed.

Lemma replace_nth_Forall : forall (A : Type) (P : A -> Prop) n x l,
  Forall P l -> P x -> Forall P (replace_nth n x l).
Proof.
  intros A P n x l. revert n. induction l as [|y ys IH]; intros n Hl Hx.
  - destruct n; constructor.
  - inversion Hl; subst. destruct n; simpl; constructor; auto.
Qed.

(** ** More fuel does not change a result *)

Lemma solve_more : forall fuel fuel' sd r,
  EnhancedDecoder.solve fuel sd = Some r -> (fuel <= fuel')%nat ->
  EnhancedDecoder.solve fuel' sd = Some r.
Proof.
  induction fuel as [|fuel IH]; intros fuel' sd r H Hle.
  - simpl in H. destruct (EnhancedDecoder.finished sd) eqn:Ef; [|discriminate].
    destruct fuel'; simpl; now rewrite Ef.
  - destruct fuel' as [|fuel']; [lia|]. simpl in *.
    destruct (EnhancedDecoder.finished sd); [assumption|].
    destruct (EnhancedDecoder.step sd) as [[v sd1]|e]; [|assumption].
    apply IH; [assumption | lia].
Qed.

(** ** The empty bitstream *)

Lemma getitem_ok : forall (A : Type) (l : list A) i,
  0 <= i < len l -> exists x, getitem l i = Ok x.
Proof.
  intros A l i Hi. unfold getitem.
  destruct (i <? 0) eqn:E; [apply Z.ltb_lt in E; lia|]. rewrite E.
  destruct (nth_error l (Z.to_nat i)) eqn:En; [eauto|].
  apply nth_error_None in En. unfold len in Hi. lia.
Qed.

Lemma inject_ok : forall s removed,
  EnhancedEncoder.output_tokens s <> [] -> len removed + 97 < 1114112 ->
  exists i tok,
    0 <= i < len (EnhancedEncoder.output_tokens s) /\
    getitem (EnhancedEncoder.output_tokens s) i = Ok tok /\
    EnhancedEncoder._inject_end_key s removed =
    Ok {| EnhancedEncoder.model := EnhancedEncoder.model s;
          EnhancedEncoder.bitstream := EnhancedEncoder.bitstream s;
          EnhancedEncoder.bitstream_length := EnhancedEncoder.bitstream_length s;
          EnhancedEncoder.entrypoints := EnhancedEncoder.entrypoints s;
          EnhancedEncoder.current_gram := EnhancedEncoder.current_gram s;
          EnhancedEncoder.output_tokens :=
            setitem (EnhancedEncoder.output_tokens s) i (tok ++ [len removed + 97]);
          EnhancedEncoder.exhausted := EnhancedEncoder.exhausted s;
          EnhancedEncoder.finished := true;
          EnhancedEncoder.end_key := len removed;
          EnhancedEncoder.rng := {| draws := draws (EnhancedEncoder.rng s);
                                    drawn := S (drawn (EnhancedEncoder.rng s)) |} |}.
Proof.
  intros s removed Hne Hc. unfold EnhancedEncoder._inject_end_key, randint.
  pose proof (len_pos _ _ Hne) as Hl.
  destruct (len (EnhancedEncoder.output_tokens s) - 1 <? 0) eqn:E;
    [apply Z.ltb_lt in E; lia|]. cbn [bind].
  set (i := 0 + draws (EnhancedEncoder.rng s) (drawn (EnhancedEncoder.rng s))
                mod (len (EnhancedEncoder.output_tokens s) - 1 - 0 + 1)).
  assert (Hi : 0 <= i < len (EnhancedEncoder.output_tokens s)).
  { subst i.
    pose proof (Z.mod_pos_bound (draws (EnhancedEncoder.rng s) (drawn (EnhancedEncoder.rng s)))
                  (len (EnhancedEncoder.output_tokens s) - 1 - 0 + 1)). lia. }
  destruct (getitem_ok _ _ _ Hi) as [tok Htok].
  exists i, tok. split; [assumption|]. split; [assumption|].
  rewrite Htok. cbn [bind]. unfold chr.
  pose proof (len_nonneg _ removed).
  replace ((0 <=? len removed + 97) && (len removed + 97 <? 1114112)) with true.
  - reflexivity.
  - symmetry. apply andb_true_iff. split; [apply Z.leb_le | apply Z.ltb_lt]; lia.
Qed.

Lemma c_int_small : forall n, - 2 ^ 31 <= n < 2 ^ 31 -> c_int n = n.
Proof.
  intros n H. unfold c_int. rewrite Z.mod_small; lia.
Qed.

Lemma c_int_zero : forall n, c_int n = 0 <-> n mod 2 ^ 32 = 0.
Proof.
  intro n. unfold c_int.
  pose proof (Z.mod_pos_bound (n + 2 ^ 31) (2 ^ 32) ltac:(lia)) as Hb.
  pose proof (Z.mod_pos_bound n (2 ^ 32) ltac:(lia)) as Hn.
  pose proof (Z.div_mod (n + 2 ^ 31) (2 ^ 32) ltac:(lia)) as H1.
  pose proof (Z.div_mod n (2 ^ 32) ltac:(lia)) as H2.
  split; intro H.
  - assert (n = 2 ^ 32 * ((n + 2 ^ 31) / 2 ^ 32)) as Hq by lia.
    rewrite Hq, Z.mul_comm. apply Z.mod_mul. lia.
  - assert (n + 2 ^ 31 = 2 ^ 31 + (n / 2 ^ 32) * 2 ^ 32) as Hq by lia.
    rewrite Hq, Z.mod_add by lia. rewrite Z.mod_small; lia.
Qed.

Lemma empty_bitstream_step : forall s,
  EnhancedEncoder.bitstream s = [] -> EnhancedEncoder.bitstream_length s = 0 ->
  EnhancedEncoder.finished s = false -> EnhancedEncoder.exhausted s = true ->
  EnhancedEncoder.step s =
  Err (if len (EnhancedEncoder.entrypoints s) =? 1 then ZeroDivisionError else ValueError).
Proof.
  intros s Hb Hl Hf He. unfold EnhancedEncoder.step. rewrite Hf, He.
  unfold EnhancedEncoder._choose_entrypoint, EnhancedEncoder._consume_from_list.
  cbn [EnhancedEncoder.entrypoints EnhancedEncoder.bitstream EnhancedEncoder.set_exhausted].
  unfold ceil_log2. destruct (len (EnhancedEncoder.entrypoints s) <=? 0) eqn:E0.
  - apply Z.leb_le in E0. cbn [bind].
    destruct (len (EnhancedEncoder.entrypoints s) =? 1) eqn:E1; [|reflexivity].
    apply Z.eqb_eq in E1. lia.
  - apply Z.leb_gt in E0. cbn [bind]. rewrite canonical_length by lia. rewrite Hb.
    destruct (len (EnhancedEncoder.entrypoints s) =? 1) eqn:E1.
    + apply Z.eqb_eq in E1. rewrite E1. change (Z.log2 1) with 0.
      change (0 =? 0) with true. cbv iota. cbn [bind].
      destruct (getitem_ok _ (EnhancedEncoder.entrypoints s) 0 ltac:(lia)) as [tok Htok].
      rewrite Htok. cbn [bind]. cbn -[EnhancedEncoder._inject_end_key Z.eqb].
      match goal with
      | |- context [EnhancedEncoder._inject_end_key ?s1 ?r] =>
          destruct (inject_ok s1 r) as [i [tk [_ [_ Hinj]]]]
      end.
      * cbn. now destruct (EnhancedEncoder.output_tokens s).
      * reflexivity.
      * rewrite Hinj. cbn [bind]. cbn. now rewrite Hl.
    + apply Z.eqb_neq in E1.
      assert (Hpos : 0 < Z.log2 (len (EnhancedEncoder.entrypoints s)))
        by (apply Z.log2_pos; lia).
      destruct (Z.log2 (len (EnhancedEncoder.entrypoints s)) =? 0) eqn:E2;
        [apply Z.eqb_eq in E2; lia|].
      unfold slice_to. destruct (_ <? 0); simpl; now rewrite firstn_nil.
Qed.

Lemma init_enc_inv : forall m bits g s,
  EnhancedEncoder.__init__ m bits g = Ok s ->
  exists E, EnhancedEncoder._get_entrypoints m = Ok E /\
    s = {| EnhancedEncoder.model := m; EnhancedEncoder.bitstream := bits;
           EnhancedEncoder.bitstream_length := c_int (len bits);
           EnhancedEncoder.entrypoints := E; EnhancedEncoder.current_gram := None;
           EnhancedEncoder.output_tokens := []; EnhancedEncoder.exhausted := true;
           EnhancedEncoder.finished := false; EnhancedEncoder.end_key := 0;
           EnhancedEncoder.rng := g |}.
Proof.
  intros m bits g s H. unfold EnhancedEncoder.__init__ in H.
  destruct (EnhancedEncoder._get_entrypoints m) as [E|]; [|discriminate].
  cbn [bind] in H. injection H as <-. eauto.
Qed.

(** X26: on a marker-safe model, whenever [generate] returns a stego text
    for a bitstream, whichever token the random source picks for the end
    key, [solve] on that text returns the bitstream, in at most one step
    more than the encoder took. *)
Theorem enhanced_round_trip : forall m bits g fuel text,
  marker_safe m = true ->
  encode_enhanced m bits g fuel = Some (Ok text) ->
  decode_enhanced m text (S fuel) = Some (Ok bits).
Proof.
  intros m bits g fuel text Hsafe Henc.
  destruct (marker_safe_spec m Hsafe) as [E [HE [HE2 Hcand]]].
  unfold encode_enhanced in Henc.
  destruct (EnhancedEncoder.__init__ m bits g) as [s|] eqn:Hinit; [|discriminate].
  destruct (init_enc_inv _ _ _ _ Hinit) as [E' [HE' Hs]].
  rewrite HE in HE'. injection HE' as <-.
  destruct (EnhancedEncoder.generate fuel s) as [[[text' sf]|]|] eqn:Hgen;
    try discriminate. injection Henc as ->.
  assert (Hb : bits <> []).
  { intros ->. destruct fuel as [|fuel]; subst s; [discriminate|].
    simpl in Hgen. rewrite empty_bitstream_step in Hgen by reflexivity. discriminate. }
  apply generate_trace in Hgen; [| subst s; reflexivity | subst s; exact Hb].
  destruct Hgen as [n [toks [c [i [Hn [Htr [Hi [Ho Htx]]]]]]]].
  subst s. simpl in Htr, Hi, Ho. rewrite Ho in Htx.
  pose proof (Trace_nonempty _ _ _ _ _ _ _ _ Htr) as Hne.
  pose proof (Trace_key _ _ _ _ _ _ _ _ Htr) as Hc.
  assert (Hsp : Forall (fun t => ~ In 32 t) toks).
  { eapply Forall_impl; [|exact (Trace_tokens _ _ _ _ _ _ _ _ Htr)].
    intros t [lst [Hl Ht]]. apply (list_ok_spec lst (Hcand lst Hl)). exact Ht. }
  assert (Hsplit : split_space text = mark i c toks).
  { subst text. apply split_join.
    - intro Hnil. apply (f_equal (@List.length str)) in Hnil.
      rewrite mark_length in Hnil. destruct toks; [congruence | discriminate].
    - apply replace_nth_Forall; [assumption|].
      intro H32. apply in_app_or in H32. destruct H32 as [H32 | [H32 | []]]; [|lia].
      rewrite Forall_forall in Hsp. apply (Hsp (nth i toks [])); [|assumption].
      apply nth_In. exact Hi. }
  unfold decode_enhanced, EnhancedDecoder.__init__.
  change (EnhancedDecoder._get_entrypoints m) with (EnhancedEncoder._get_entrypoints m).
  rewrite HE. cbn [bind]. rewrite Hsplit.
  match goal with |- context [EnhancedDecoder.solve _ ?sd0] =>
    destruct (trace_decodes m E toks i n true None bits toks c Htr Hcand HE2 Hi [] sd0)
      as [sd' Hsd']; try reflexivity; [simpl; lia|]
  end.
  rewrite (solve_more _ (S fuel) _ _ Hsd') by lia. reflexivity.
Qed.

Lemma enhanced_round_trip_witness :
  marker_safe zoo_model = true /\
  encode_enhanced zoo_model [true; false; true; true; false; true; false; false]
    (always 3) 12 = Some (Ok (tk "a cat ran ab cat ran the dog")) /\
  decode_enhanced zoo_model (tk "a cat ran ab cat ran the dog") 13
  = Some (Ok [true; false; true; true; false; true; false; false]).
Proof.
  split; [vm_compute; reflexivity|]. split; [vm_compute; reflexivity|].
  apply (enhanced_round_trip zoo_model
           [true; false; true; true; false; true; false; false] (always 3) 12);
    vm_compute; reflexivity.
Defined.

(** In [ab_model] the entry point [a] with the end key 1 reads as the entry
    point [ab]: the zero byte comes back with a bit set, shown for the marker
    on the first and on the last token. *)
Lemma round_trip_fails_on_marker_collision :
  marker_safe ab_model = false /\
  encode_enhanced ab_model (repeat false 8) (always 0) 15
  = Some (Ok (tk "ab a a a a a a a")) /\
  decode_enhanced ab_model (tk "ab a a a a a a a") 16
  = Some (Ok [true; false; false; false; false; false; false; false]) /\
  encode_enhanced ab_model (repeat false 8) (always 7) 15
  = Some (Ok (tk "a a a a a a a ab")) /\
  decode_enhanced ab_model (tk "a a a a a a a ab") 16
  = Some (Ok [false; false; false; false; false; false; false; true]).
Proof. repeat split; vm_compute; reflexivity. Qed.

(** With a single entry point the selection of the entry point takes no
    bit, and the decoder writes a 0 for it. *)
Example single_entry_point_extra_bit :
  EnhancedEncoder._get_entrypoints one_entry_model = Ok [tk "y"] /\
  encode_enhanced one_entry_model [true] (always 0) 5 = Some (Ok (tk "yb w")) /\
  decode_enhanced one_entry_model (tk "yb w") 6 = Some (Ok [false; true]).
Proof. repeat split; vm_compute; reflexivity. Qed.

(** C1: the round trip does not hold of the code.  On [ab_model], whose
    entry points are [a] and [ab], the file of the one byte 0x00 is encoded
    as [ab a a a a a a a] (the first [a] carries the end key 1, the letter
    b) and decoded, without any error, as the byte 0x80: the decoder takes
    the marked token for the entry point [ab].  On [one_entry_model], with
    its single entry point, the payload 1 is encoded as [yb w] and decoded
    as 01: the decoder writes a 0 for the entry point, for which the encoder
    consumed no bit. *)
Theorem enhanced_round_trip_fails :
  file_to_bitstream [Byte.x00] = repeat false 8 /\
  hide_file ab_model [Byte.x00] (always 0) 15 = Some (Ok (tk "ab a a a a a a a")) /\
  decode_enhanced ab_model (tk "ab a a a a a a a") 16
  = Some (Ok [true; false; false; false; false; false; false; false]) /\
  recover_file ab_model (tk "ab a a a a a a a") 16 = Some (Ok [Byte.x80]) /\
  encode_enhanced one_entry_model [true] (always 0) 5 = Some (Ok (tk "yb w")) /\
  decode_enhanced one_entry_model (tk "yb w") 6 = Some (Ok [false; true]).
Proof. repeat split; vm_compute; reflexivity. Qed.

(** ** Stable descending sort *)

Lemma insert_desc_perm : forall (A : Type) (x : A * Z) l,
  Permutation (x :: l) (insert_desc x l).
Proof.
  intros A x l. induction l as [|y ys IH]; simpl; [constructor; constructor|].
  destruct (snd x <? snd y); [|apply Permutation_refl].
  eapply perm_trans; [apply perm_swap|]. now constructor.
Qed.

Lemma sorted_desc_perm : forall (A : Type) (l : list (A * Z)),
  Permutation l (sorted_desc l).
Proof.
  intros A l. induction l as [|x xs IH]; simpl; [constructor|].
  eapply perm_trans; [|apply insert_desc_perm]. now constructor.
Qed.

Lemma insert_desc_Forall : forall (A : Type) (P : A * Z -> Prop) x l,
  P x -> Forall P l -> Forall P (insert_desc x l).
Proof.
  intros A P x l Hx Hl. induction Hl as [|y ys Hy Hys IH]; simpl.
  - now constructor.
  - destruct (snd x <? snd y); repeat constructor; assumption.
Qed.

Lemma insert_desc_sorted : forall (A : Type) (x : A * Z) l,
  StronglySorted by_freq l -> StronglySorted by_freq (insert_desc x l).
Proof.
  intros A x l H. induction H as [|y ys Hs IH Hall]; simpl.
  - repeat constructor.
  - destruct (snd x <? snd y) eqn:E.
    + apply Z.ltb_lt in E. constructor; [assumption|].
      apply insert_desc_Forall; [unfold by_freq; lia | assumption].
    + apply Z.ltb_ge in E. constructor; [now constructor|].
      constructor; [exact E|].
      eapply Forall_impl; [|exact Hall]. unfold by_freq. intros; lia.
Qed.

Lemma sorted_desc_sorted : forall (A : Type) (l : list (A * Z)),
  StronglySorted by_freq (sorted_desc l).
Proof.
  intros A l. induction l as [|x xs IH]; simpl; [constructor|].
  now apply insert_desc_sorted.
Qed.

Lemma insert_desc_filter : forall (A : Type) (x : A * Z) l f,
  filter (fun kv => snd kv =? f) (insert_desc x l)
  = filter (fun kv => snd kv =? f) (x :: l).
Proof.
  intros A x l f. induction l as [|y ys IH]; [reflexivity|].
  simpl insert_desc. destruct (snd x <? snd y) eqn:E; [|reflexivity].
  apply Z.ltb_lt in E. simpl in *. rewrite IH.
  destruct (snd x =? f) eqn:Ex; [|reflexivity].
  apply Z.eqb_eq in Ex.
  destruct (snd y =? f) eqn:Ey; [apply Z.eqb_eq in Ey; lia | reflexivity].
Qed.

Lemma sorted_desc_stable : forall (A : Type) (l : list (A * Z)) f,
  filter (fun kv => snd kv =? f) (sorted_desc l) = filter (fun kv => snd kv =? f) l.
Proof.
  intros A l f. induction l as [|x xs IH]; [reflexivity|].
  simpl sorted_desc. rewrite insert_desc_filter. simpl. now rewrite IH.
Qed.

(** C7: for every model and every context the encoder and the decoder
    derive the same candidate list (or both raise), and for a context of the
    model that list is the model's transitions in descending order of
    frequency, equal frequencies keeping the order they have in the
    model. *)
Theorem canonical_order_determinism : forall m g,
  EnhancedEncoder._get_transitions m g = EnhancedDecoder._get_transitions m g /\
  forall k items,
    g = Some k ->
    dict_get gram_eqb k (chain_model m) = Some items ->
    exists sorted,
      EnhancedDecoder._get_transitions m g = Ok (map fst sorted) /\
      Permutation items sorted /\
      StronglySorted by_freq sorted /\
      forall f, filter (fun kv => snd kv =? f) sorted = filter (fun kv => snd kv =? f) items.
Proof.
  intros m g. split; [reflexivity|]. intros k items -> H.
  exists (sorted_desc items). split.
  - unfold EnhancedDecoder._get_transitions, dict_item. now rewrite H.
  - split; [apply sorted_desc_perm|]. split; [apply sorted_desc_sorted|].
    apply sorted_desc_stable.
Qed.

Lemma canonical_order_determinism_witness :
  EnhancedEncoder._get_transitions zoo_model (Some [BEGIN; BEGIN])
  = EnhancedDecoder._get_transitions zoo_model (Some [BEGIN; BEGIN]) /\
  exists sorted,
    EnhancedDecoder._get_transitions zoo_model (Some [BEGIN; BEGIN]) = Ok (map fst sorted) /\
    Permutation [(tk "x", 1); (tk "the", 2); (tk "a", 1)] sorted /\
    StronglySorted by_freq sorted /\
    filter (fun kv => snd kv =? 1) sorted = [(tk "x", 1); (tk "a", 1)].
Proof.
  destruct (canonical_order_determinism zoo_model (Some [BEGIN; BEGIN])) as [Heq H].
  destruct (H [BEGIN; BEGIN] [(tk "x", 1); (tk "the", 2); (tk "a", 1)] eq_refl eq_refl)
    as [sorted [Ht [Hp [Hs Hf]]]].
  split; [exact Heq|]. exists sorted. repeat split; try assumption. apply (Hf 1).
Defined.

(** The order computed by hand for the tied context of [zoo_model]. *)
Example zoo_order :
  EnhancedEncoder._get_transitions zoo_model (Some [BEGIN; tk "the"])
  = Ok [tk "dog"; tk "cat"; tk "cow"] /\
  EnhancedDecoder._get_transitions zoo_model (Some [BEGIN; BEGIN])
  = Ok [tk "the"; tk "x"; tk "a"].
Proof. split; reflexivity. Qed.

(** ** Code length *)

Lemma len_firstn : forall (A : Type) (l : list A) n,
  0 <= n -> len (firstn (Z.to_nat n) l) = Z.min n (len l).
Proof.
  intros A l n Hn. unfold len. rewrite length_firstn.
  destruct (Nat.min_spec (Z.to_nat n) (List.length l)) as [[? ->] | [? ->]]; lia.
Qed.




(** ** The empty payload *)

(** C9: on the empty bitstream the first [step] of the Enhanced encoder
    raises, whatever the model and the random source: [ValueError] from
    [log2(0)] or [int] of the empty string, or [ZeroDivisionError] from the progress
    fraction; [generate] ends with that error. *)
Theorem empty_payload_not_encodable : forall m g s,
  EnhancedEncoder.__init__ m [] g = Ok s ->
  exists e, (e = ValueError \/ e = ZeroDivisionError) /\
    EnhancedEncoder.step s = Err e /\
    forall fuel, EnhancedEncoder.generate (S fuel) s = Some (Err e) /\
                 encode_enhanced m [] g (S fuel) = Some (Err e).
Proof.
  intros m g s H. pose proof H as Hinit.
  apply init_enc_inv in H. destruct H as [E [HE Hs]].
  assert (Hstep : EnhancedEncoder.step s =
                  Err (if len E =? 1 then ZeroDivisionError else ValueError)).
  { subst s. now rewrite empty_bitstream_step. }
  exists (if len E =? 1 then ZeroDivisionError else ValueError).
  split; [destruct (len E =? 1); auto|]. split; [exact Hstep|].
  intro fuel.
  assert (Hgen : EnhancedEncoder.generate (S fuel) s =
                 Some (Err (if len E =? 1 then ZeroDivisionError else ValueError))).
  { simpl. rewrite Hstep. now subst s. }
  split; [exact Hgen|]. unfold encode_enhanced. now rewrite Hinit, Hgen.
Qed.

Lemma empty_payload_not_encodable_witness :
  exists s e,
    EnhancedEncoder.__init__ zoo_model [] (always 0) = Ok s /\
    (e = ValueError \/ e = ZeroDivisionError) /\
    EnhancedEncoder.step s = Err e /\
    EnhancedEncoder.generate 1 s = Some (Err e) /\
    encode_enhanced zoo_model [] (always 0) 1 = Some (Err e).
Proof.
  eexists.
  destruct (empty_payload_not_encodable zoo_model (always 0) _ eq_refl)
    as [e [He [Hs Hg]]].
  exists e. split; [reflexivity|]. split; [exact He|]. split; [exact Hs|].
  exact (Hg O).
Defined.

(** ** The end key *)

(** [chr] rejects the end key only beyond the last code point. *)
Lemma end_key_beyond_code_points : forall s removed,
  EnhancedEncoder.output_tokens s <> [] ->
  1114112 <= len removed + 97 ->
  EnhancedEncoder._inject_end_key s removed = Err ValueError.
Proof.
  intros s removed Hne Hc. unfold EnhancedEncoder._inject_end_key, randint.
  pose proof (len_pos _ _ Hne) as Hl.
  destruct (len (EnhancedEncoder.output_tokens s) - 1 <? 0) eqn:E;
    [apply Z.ltb_lt in E; lia|]. cbn [bind].
  match goal with |- context [getitem ?l ?i] =>
    destruct (getitem_ok _ l i) as [tok Htok] end.
  { pose proof (Z.mod_pos_bound (draws (EnhancedEncoder.rng s) (drawn (EnhancedEncoder.rng s)))
                  (len (EnhancedEncoder.output_tokens s) - 1 - 0 + 1)). lia. }
  rewrite Htok. cbn [bind]. unfold chr.
  replace (len removed + 97 <? 1114112) with false; [now rewrite andb_false_r|].
  symmetry. apply Z.ltb_ge. lia.
Qed.

(** C5 as the code has it: the end key [c = len(removed)] is added to one
    emitted token as the character [chr(97 + c)], [a] for 0 and [z] for 25;
    there is no check of the range 0..25, and 26 gives the character after
    [z]. *)
Theorem end_key_embedding : forall s removed,
  EnhancedEncoder.output_tokens s <> [] ->
  len removed + 97 < 1114112 ->
  (exists i tok,
     0 <= i < len (EnhancedEncoder.output_tokens s) /\
     getitem (EnhancedEncoder.output_tokens s) i = Ok tok /\
     chr (len removed + 97) = Ok (len removed + 97) /\
     EnhancedEncoder._inject_end_key s removed =
     Ok {| EnhancedEncoder.model := EnhancedEncoder.model s;
           EnhancedEncoder.bitstream := EnhancedEncoder.bitstream s;
           EnhancedEncoder.bitstream_length := EnhancedEncoder.bitstream_length s;
           EnhancedEncoder.entrypoints := EnhancedEncoder.entrypoints s;
           EnhancedEncoder.current_gram := EnhancedEncoder.current_gram s;
           EnhancedEncoder.output_tokens :=
             setitem (EnhancedEncoder.output_tokens s) i (tok ++ [len removed + 97]);
           EnhancedEncoder.exhausted := EnhancedEncoder.exhausted s;
           EnhancedEncoder.finished := true;
           EnhancedEncoder.end_key := len removed;
           EnhancedEncoder.rng := {| draws := draws (EnhancedEncoder.rng s);
                                     drawn := S (drawn (EnhancedEncoder.rng s)) |} |}) /\
  [0 + 97] = tk "a" /\ [25 + 97] = tk "z" /\ [26 + 97] = tk "{".
Proof.
  intros s removed Hne Hc. split; [|repeat split].
  destruct (inject_ok s removed Hne Hc) as [i [tok [Hi [Ht Hinj]]]].
  exists i, tok. repeat split; try assumption; try apply Hi.
  unfold chr. pose proof (len_nonneg _ removed).
  replace ((0 <=? len removed + 97) && (len removed + 97 <? 1114112)) with true;
    [reflexivity|].
  symmetry. apply andb_true_iff. split; [apply Z.leb_le | apply Z.ltb_lt]; lia.
Qed.

Lemma end_key_embedding_witness :
  (exists i tok,
     0 <= i < 2 /\
     getitem [tk "the"; tk "dog"] i = Ok tok /\
     chr 122 = Ok 122 /\
     EnhancedEncoder._inject_end_key (zoo_session [] [tk "the"; tk "dog"]) (repeat true 25) =
     Ok {| EnhancedEncoder.model := zoo_model;
           EnhancedEncoder.bitstream := [];
           EnhancedEncoder.bitstream_length := 32;
           EnhancedEncoder.entrypoints := [tk "the"; tk "a"];
           EnhancedEncoder.current_gram := None;
           EnhancedEncoder.output_tokens := setitem [tk "the"; tk "dog"] i (tok ++ [122]);
           EnhancedEncoder.exhausted := true;
           EnhancedEncoder.finished := true;
           EnhancedEncoder.end_key := 25;
           EnhancedEncoder.rng := {| draws := fun _ => 0; drawn := 1 |} |}) /\
  [0 + 97] = tk "a" /\ [25 + 97] = tk "z" /\ [26 + 97] = tk "{".
Proof.
  apply (end_key_embedding (zoo_session [] [tk "the"; tk "dog"]) (repeat true 25)).
  - discriminate.
  - reflexivity.
Defined.

(** The end key 26 is embedded like any other. *)
Lemma end_key_26_embedded :
  exists s', EnhancedEncoder._inject_end_key (zoo_session [] [tk "the"; tk "dog"])
               (repeat true 26) = Ok s' /\
             EnhancedEncoder.output_tokens s' = [tk "the{"; tk "dog"] /\
             EnhancedEncoder.finished s' = true /\ EnhancedEncoder.end_key s' = 26.
Proof. eexists. split; [vm_compute; reflexivity|]. repeat split. Qed.

(** ** Entry points *)

(** C2, what the code computes at the example: of the keys with [k - 1]
    START tokens, [(START, "the")] and [(START, "a")], the first is dropped;
    the all-START key has [k] of them and does not pass the filter. *)
Theorem entrypoints_example :
  EnhancedEncoder._get_entrypoints the_a_model = Ok [tk "a"] /\
  EnhancedDecoder._get_entrypoints the_a_model = Ok [tk "a"].
Proof. split; reflexivity. Qed.

(** The Existing decoder filters on "contains START" and drops the
    all-START key. *)
Example existing_entrypoints_example :
  exists s, ExistingDecoder.__init__ the_a_model (tk "a") = Ok s /\
            ExistingDecoder.entrypoints s = [tk "the"; tk "a"].
Proof. eexists. split; reflexivity. Qed.

(** ** Sessions that are over *)

Ltac crunch H :=
  repeat first
    [ inv_bind H
    | match type of H with
      | (if ?c then _ else _) = Ok _ => destruct c
      | (let '(_, _) := ?x in _) = Ok _ => destruct x
      | match ?x with _ => _ end = Ok _ => destruct x
      end ];
  try discriminate; try (injection H as <-; reflexivity).

Lemma enh_dec_entry_finished : forall s s',
  EnhancedDecoder._choose_entrypoint s = Ok s' ->
  EnhancedDecoder.finished s' = EnhancedDecoder.finished s.
Proof. intros s s' H. unfold EnhancedDecoder._choose_entrypoint in H. crunch H. Qed.

Lemma enh_dec_next_finished : forall s s',
  EnhancedDecoder._choose_next_token s = Ok s' ->
  EnhancedDecoder.finished s' = EnhancedDecoder.finished s.
Proof. intros s s' H. unfold EnhancedDecoder._choose_next_token in H. crunch H. Qed.

Lemma enh_dec_step_over : forall s v s',
  over_enh s -> EnhancedDecoder.step s = Ok (v, s') -> over_enh s'.
Proof.
  intros s v s' Hinv H. unfold EnhancedDecoder.step in H.
  destruct ((len (EnhancedDecoder.stega_text s) - 1 <=? EnhancedDecoder.index s)
            && negb (EnhancedDecoder.exhausted s)) eqn:E.
  - injection H as _ <-. intros _. exact E.
  - inv_bind H. inv_bind H. injection H as _ <-. intro Hf.
    assert (EnhancedDecoder.finished a = EnhancedDecoder.finished s) as Hfs.
    { destruct (EnhancedDecoder.exhausted s);
        [now apply enh_dec_entry_finished | now apply enh_dec_next_finished]. }
    rewrite Hfs in Hf. specialize (Hinv Hf). congruence.
Qed.

Lemma ex_dec_step_over : forall cb s v s',
  over_ex s -> ExistingDecoder.step cb s = Ok (v, s') -> over_ex s'.
Proof.
  intros cb s v s' Hinv H. unfold ExistingDecoder.step in H.
  destruct ((len (ExistingDecoder.stega_text s) - 1 <=? ExistingDecoder.index s)
            && negb (ExistingDecoder.exhausted s)) eqn:E.
  - injection H as _ <-. intros _. exact E.
  - inv_bind H. inv_bind H. injection H as _ <-. intro Hf.
    assert (ExistingDecoder.finished a = ExistingDecoder.finished s) as Hfs.
    { clear - Ha. crunch Ha. }
    rewrite Hfs in Hf. specialize (Hinv Hf). congruence.
Qed.

Lemma reachable_over : forall cb x, reachable cb x -> over x.
Proof.
  intros cb x H. induction H as [x Hc | x v y Hr IH Hs].
  - destruct Hc as [m bits g s Hi | m text s Hi | m bits g s Hi | m text s Hi];
      simpl; try exact I.
    + unfold EnhancedDecoder.__init__ in Hi. inv_bind Hi. injection Hi as <-.
      intro Hf. discriminate Hf.
    + unfold ExistingDecoder.__init__ in Hi. inv_bind Hi. injection Hi as <-.
      intro Hf. discriminate Hf.
  - destruct x as [s | s | s | s]; simpl in Hs; inv_bind Hs;
      destruct a as [v' s']; injection Hs as _ <-; simpl; try exact I.
    + eapply enh_dec_step_over; eauto.
    + eapply ex_dec_step_over; eauto.
Qed.

(** C8: in each of the four sessions, once [finished] is true a call of
    [step] returns the completion value of its class (1 for the Enhanced
    pair, [None] for the Existing pair) and leaves the session as it is. *)
Theorem idempotent_terminal_step : forall cb x,
  reachable cb x -> session_finished x = true ->
  session_step cb x = Ok (completion_value x, x).
Proof.
  intros cb x Hr Hf. pose proof (reachable_over cb x Hr) as Hinv.
  destruct x as [s | s | s | s]; simpl in *.
  - unfold EnhancedEncoder.step. now rewrite Hf.
  - unfold EnhancedDecoder.step. rewrite (Hinv Hf). cbn [bind].
    destruct s; simpl in *; now subst.
  - unfold ExistingEncoder.step. now rewrite Hf.
  - unfold ExistingDecoder.step. rewrite (Hinv Hf). cbn [bind].
    destruct s; simpl in *; now subst.
Qed.

Lemma solve_reachable : forall cb fuel s out s',
  reachable cb (EnhDec s) ->
  EnhancedDecoder.solve fuel s = Some (Ok (out, s')) ->
  reachable cb (EnhDec s') /\ EnhancedDecoder.finished s' = true.
Proof.
  intros cb. induction fuel as [|fuel IH]; intros s out s' Hr H; simpl in H.
  - destruct (EnhancedDecoder.finished s) eqn:Ef; [|discriminate].
    injection H as _ <-. now split.
  - destruct (EnhancedDecoder.finished s) eqn:Ef.
    + injection H as _ <-. now split.
    + destruct (EnhancedDecoder.step s) as [[v s1]|e] eqn:Es; [|discriminate].
      apply IH in H; [assumption|].
      eapply reachable_step; [exact Hr|]. simpl. now rewrite Es.
Qed.

Lemma idempotent_terminal_step_witness :
  exists s0 out s,
    EnhancedDecoder.__init__ zoo_model (tk "a cat ran ab cat ran the dog") = Ok s0 /\
    EnhancedDecoder.solve 13 s0 = Some (Ok (out, s)) /\
    forall cb, session_step cb (EnhDec s) = Ok (PyInt 1, EnhDec s).
Proof.
  eexists. eexists. eexists. split; [reflexivity|]. split; [vm_compute; reflexivity|].
  intro cb. apply (idempotent_terminal_step cb (EnhDec _)); [|reflexivity].
  refine (proj1 (solve_reachable cb 13 _ _ _ _ _)).
  - apply reachable_created.
    apply (created_EnhDec zoo_model (tk "a cat ran ab cat ran the dog")). reflexivity.
  - vm_compute. reflexivity.
Defined.

(** ** The Existing decoder inside a chain *)

Lemma py_max_ok : forall l, l <> [] -> exists d, py_max l = Ok d.
Proof. intros [|x xs] H; [congruence|]. simpl. eauto. Qed.

Lemma getitem_nil : forall (A : Type) i, getitem (@nil A) i = Err IndexError.
Proof.
  intros A i. unfold getitem.
  destruct ((if i <? 0 then i + len (@nil A) else i) <? 0); [reflexivity|].
  now destruct (Z.to_nat (if i <? 0 then i + len (@nil A) else i)).
Qed.

(** One [step] of the Existing decoder in the middle of a chain. *)
Lemma existing_decoder_mid_step : forall cb s g tm next,
  ExistingDecoder.exhausted s = false ->
  ExistingDecoder.index s < len (ExistingDecoder.stega_text s) - 1 ->
  ExistingDecoder.current_gram s = Some g ->
  dict_get gram_eqb g (chain_model (ExistingDecoder.model s)) = Some tm ->
  getitem (ExistingDecoder.stega_text s) (ExistingDecoder.index s + 1) = Ok next ->
  (1 < len tm -> cb tm <> []) ->
  ExistingDecoder.step cb s =
  ('(tok, bits, ex) <-
     (forced <- ExistingDecoder.at_sentence_end (Some g) tm ;;
      if 1 <? len tm then
        let '(nt, ex) :=
          if forced && negb (py_in str_eqb next (keys tm)) then (END, true)
          else (next, false) in
        if match_literal nt then Ok (ExistingDecoder.INVALID, [], ex)
        else bits <- dict_item str_eqb (cb tm) nt ;; Ok (nt, bits, ex)
      else if forced then Ok (END, [], true) else Ok (next, [], false)) ;;
   Ok (PyQuot (ExistingDecoder.index s + 1) (len (ExistingDecoder.stega_text s)),
       taken s g tok bits ex)).
Proof.
  intros cb s g tm next Hex Hix Hg Htm Hnext Hcb. unfold ExistingDecoder.step.
  assert (E : (len (ExistingDecoder.stega_text s) - 1 <=? ExistingDecoder.index s) = false)
    by (apply Z.leb_gt; lia).
  assert (E' : (ExistingDecoder.index s =? len (ExistingDecoder.stega_text s) - 1) = false)
    by (apply Z.eqb_neq; lia).
  assert (Hd : (len (ExistingDecoder.stega_text s) =? 0) = false).
  { apply Z.eqb_neq. pose proof (len_nonneg _ (ExistingDecoder.stega_text s)).
    destruct (ExistingDecoder.stega_text s); [now rewrite getitem_nil in Hnext|].
    rewrite len_cons. pose proof (len_nonneg _ l). lia. }
  rewrite E, Hex. cbn [andb bind].
  unfold ExistingDecoder.get_transition_matrix, dict_item. rewrite Hg, Htm. cbn [bind].
  rewrite E', Hnext. cbn [bind].
  destruct (ExistingDecoder.at_sentence_end (Some g) tm) as [forced|e] eqn:Ef.
  - destruct (1 <? len tm) eqn:El.
    + apply Z.ltb_lt in El. destruct (py_max_ok (map len (keys (cb tm)))) as [d Hd'].
      { intro Hnil. apply (Hcb El). unfold keys in Hnil.
        destruct (cb tm); [reflexivity | discriminate Hnil]. }
      rewrite Hd'. cbn [bind].
      destruct (forced && negb (py_in str_eqb next (keys tm))).
      * destruct (match_literal END); cbn [bind].
        -- unfold py_div, taken;
             cbn [ExistingDecoder.index ExistingDecoder.stega_text]; now rewrite Hd.
        -- destruct (dict_get str_eqb END (cb tm)); cbn [bind]; [|reflexivity].
           unfold py_div, taken;
             cbn [ExistingDecoder.index ExistingDecoder.stega_text]; now rewrite Hd.
      * destruct (match_literal next); cbn [bind].
        -- unfold py_div, taken;
             cbn [ExistingDecoder.index ExistingDecoder.stega_text]; now rewrite Hd.
        -- destruct (dict_get str_eqb next (cb tm)); cbn [bind]; [|reflexivity].
           unfold py_div, taken;
             cbn [ExistingDecoder.index ExistingDecoder.stega_text]; now rewrite Hd.
    + cbn [bind]. destruct forced; cbn [bind]; rewrite ?Hex; unfold py_div, taken;
        cbn [ExistingDecoder.index ExistingDecoder.stega_text]; now rewrite Hd.
  - destruct (1 <? len tm) eqn:El; cbn [bind]; [|reflexivity].
    apply Z.ltb_lt in El. destruct (py_max_ok (map len (keys (cb tm)))) as [d Hd'].
    { intro Hnil. apply (Hcb El). unfold keys in Hnil.
      destruct (cb tm); [reflexivity | discriminate Hnil]. }
    rewrite Hd'. reflexivity.
Qed.

(** C4 as the code has it: in a context whose last token ends in [.], [?]
    or [!] and which has END among its transitions, the decoder ends the
    chain when the context has a single transition, and when it has several
    only if the next token is not one of them; a next token that is a valid
    transition does not end the chain: it is decoded as that transition, or,
    when it has the form of a bit literal, replaced by the placeholder with
    no bits appended. *)
Theorem punctuation_forced_termination : forall cb s g tm next,
  ExistingDecoder.exhausted s = false ->
  ExistingDecoder.index s < len (ExistingDecoder.stega_text s) - 1 ->
  ExistingDecoder.current_gram s = Some g ->
  dict_get gram_eqb g (chain_model (ExistingDecoder.model s)) = Some tm ->
  getitem (ExistingDecoder.stega_text s) (ExistingDecoder.index s + 1) = Ok next ->
  (1 < len tm -> cb tm <> []) ->
  ExistingDecoder.at_sentence_end (Some g) tm = Ok true ->
  (len tm <= 1 ->
   ExistingDecoder.step cb s =
   Ok (PyQuot (ExistingDecoder.index s + 1) (len (ExistingDecoder.stega_text s)),
       taken s g END [] true)) /\
  (1 < len tm -> py_in str_eqb next (keys tm) = false ->
   ExistingDecoder.step cb s =
   (bits <- dict_item str_eqb (cb tm) END ;;
    Ok (PyQuot (ExistingDecoder.index s + 1) (len (ExistingDecoder.stega_text s)),
        taken s g END bits true))) /\
  (1 < len tm -> py_in str_eqb next (keys tm) = true ->
   ExistingDecoder.step cb s =
   (if match_literal next then
      Ok (PyQuot (ExistingDecoder.index s + 1) (len (ExistingDecoder.stega_text s)),
          taken s g ExistingDecoder.INVALID [] false)
    else
      bits <- dict_item str_eqb (cb tm) next ;;
      Ok (PyQuot (ExistingDecoder.index s + 1) (len (ExistingDecoder.stega_text s)),
          taken s g next bits false))).
Proof.
  intros cb s g tm next Hex Hix Hg Htm Hnext Hcb Hf.
  pose proof (existing_decoder_mid_step cb s g tm next Hex Hix Hg Htm Hnext Hcb) as Hs.
  rewrite Hf in Hs. cbn [bind] in Hs. repeat split.
  - intro Hl. rewrite Hs.
    replace (1 <? len tm) with false by (symmetry; apply Z.ltb_ge; lia). reflexivity.
  - intros Hl Hin. rewrite Hs, Hin.
    replace (1 <? len tm) with true by (symmetry; apply Z.ltb_lt; lia).
    cbn [andb negb]. change (match_literal END) with false. cbv iota.
    now destruct (dict_item str_eqb (cb tm) END).
  - intros Hl Hin. rewrite Hs, Hin.
    replace (1 <? len tm) with true by (symmetry; apply Z.ltb_lt; lia).
    cbn [andb negb]. destruct (match_literal next); [reflexivity|].
    now destruct (dict_item str_eqb (cb tm) next).
Qed.

(** After [go on.], where END and [and] are the transitions, the next
    token [go] is not one of them: the chain is ended, with the bits of the
    code of END, for every code book that has one. *)
Lemma punctuation_forced_termination_witness :
  ExistingDecoder.at_sentence_end (Some [tk "go"; tk "on."]) [(END, 1); (tk "and", 1)]
  = Ok true /\
  (exists (cb : codebook_fn) code,
     dict_get str_eqb END (cb [(END, 1); (tk "and", 1)]) = Some code) /\
  forall cb code out,
    dict_get str_eqb END (cb [(END, 1); (tk "and", 1)]) = Some code ->
    ExistingDecoder.step cb
      (go_session [tk "go"; tk "on."; tk "go"; tk "up."] (Some [tk "go"; tk "on."]) 1 out)
    = Ok (PyQuot 2 4,
          taken (go_session [tk "go"; tk "on."; tk "go"; tk "up."]
                   (Some [tk "go"; tk "on."]) 1 out)
            [tk "go"; tk "on."] END code true).
Proof.
  split; [reflexivity|].
  split; [exists (fun tm => map (fun kv => (fst kv, [])) tm), []; reflexivity|].
  intros cb code out Hc.
  destruct (punctuation_forced_termination cb
              (go_session [tk "go"; tk "on."; tk "go"; tk "up."]
                 (Some [tk "go"; tk "on."]) 1 out)
              [tk "go"; tk "on."] [(END, 1); (tk "and", 1)] (tk "go")
              eq_refl eq_refl eq_refl eq_refl eq_refl
              ltac:(intros _ Hnil; rewrite Hnil in Hc; discriminate Hc) eq_refl)
    as [_ [H _]].
  rewrite (H eq_refl eq_refl). unfold dict_item. rewrite Hc. reflexivity.
Defined.

(** After a sentence end with END among the transitions, a next token that
    is a valid transition keeps the chain going: after [go on.] the token
    [and] is taken, for every code book that has a code for it. *)
Lemma punctuation_not_forced :
  ExistingDecoder.at_sentence_end (Some [tk "go"; tk "on."]) [(END, 1); (tk "and", 1)]
  = Ok true /\
  ExistingDecoder.get_transition_matrix go_model (Some [tk "go"; tk "on."])
  = Ok [(END, 1); (tk "and", 1)] /\
  (exists (cb : codebook_fn) code,
     dict_get str_eqb (tk "and") (cb [(END, 1); (tk "and", 1)]) = Some code) /\
  forall cb code out,
    dict_get str_eqb (tk "and") (cb [(END, 1); (tk "and", 1)]) = Some code ->
    ExistingDecoder.step cb
      (go_session [tk "go"; tk "on."; tk "and"; tk "so."] (Some [tk "go"; tk "on."]) 1 out)
    = Ok (PyQuot 2 4,
          taken (go_session [tk "go"; tk "on."; tk "and"; tk "so."]
                   (Some [tk "go"; tk "on."]) 1 out)
            [tk "go"; tk "on."] (tk "and") code false).
Proof.
  split; [reflexivity|]. split; [reflexivity|].
  split; [exists (fun tm => map (fun kv => (fst kv, [])) tm), []; reflexivity|].
  intros cb code out Hc.
  rewrite (existing_decoder_mid_step cb
             (go_session [tk "go"; tk "on."; tk "and"; tk "so."]
                (Some [tk "go"; tk "on."]) 1 out)
             [tk "go"; tk "on."] [(END, 1); (tk "and", 1)]
             (tk "and") eq_refl eq_refl eq_refl eq_refl eq_refl
             ltac:(intros _ Hnil; rewrite Hnil in Hc; discriminate Hc)).
  change (ExistingDecoder.at_sentence_end (Some [tk "go"; tk "on."])
            [(END, 1); (tk "and", 1)]) with (@Ok bool true).
  cbn [bind]. change (1 <? len [(END, 1); (tk "and", 1)]) with true.
  change (py_in str_eqb (tk "and") (keys [(END, 1); (tk "and", 1)])) with true.
  cbn [andb negb]. change (match_literal (tk "and")) with false. cbv iota.
  unfold dict_item. rewrite Hc. reflexivity.
Qed.

(** C3 as the code has it: a next token that begins with a bracketed bit
    literal, met in a context with several transitions (and not replaced by
    END under the punctuation rule), adds no bits, enters the context window
    as a fixed placeholder string and lets the session go on; [step] raises
    nothing, and when the literal is the last token [solve] returns the bits
    decoded before it. *)
Theorem literal_token_not_reported : forall cb s g tm next forced,
  ExistingDecoder.exhausted s = false ->
  ExistingDecoder.finished s = false ->
  ExistingDecoder.index s < len (ExistingDecoder.stega_text s) - 1 ->
  ExistingDecoder.current_gram s = Some g ->
  dict_get gram_eqb g (chain_model (ExistingDecoder.model s)) = Some tm ->
  getitem (ExistingDecoder.stega_text s) (ExistingDecoder.index s + 1) = Ok next ->
  1 < len tm -> cb tm <> [] ->
  match_literal next = true ->
  ExistingDecoder.at_sentence_end (Some g) tm = Ok forced ->
  forced && negb (py_in str_eqb next (keys tm)) = false ->
  ExistingDecoder.step cb s =
  Ok (PyQuot (ExistingDecoder.index s + 1) (len (ExistingDecoder.stega_text s)),
      taken s g ExistingDecoder.INVALID [] false) /\
  (ExistingDecoder.index s + 1 = len (ExistingDecoder.stega_text s) - 1 ->
   forall fuel, exists s',
     ExistingDecoder.solve cb (S (S fuel)) s = Some (Ok (ExistingDecoder.output s, s'))).
Proof.
  intros cb s g tm next forced Hex Hfin Hix Hg Htm Hnext Hl Hcb Hlit Hf Hnf.
  pose proof (existing_decoder_mid_step cb s g tm next Hex Hix Hg Htm Hnext
                (fun _ => Hcb)) as Hs.
  rewrite Hf in Hs. cbn [bind] in Hs. rewrite Hnf, Hlit in Hs.
  replace (1 <? len tm) with true in Hs by (symmetry; apply Z.ltb_lt; lia).
  cbn [bind] in Hs. split; [exact Hs|].
  intros Hlast fuel. eexists. simpl ExistingDecoder.solve at 1.
  rewrite Hfin, Hs. unfold taken. simpl. rewrite Hfin.
  unfold ExistingDecoder.step. cbn.
  replace (len (ExistingDecoder.stega_text s) - 1 <=? ExistingDecoder.index s + 1)
    with true by (symmetry; apply Z.leb_le; lia).
  cbn. rewrite app_nil_r. destruct fuel; reflexivity.
Qed.

(** The token [<0>] after [go], where [on.] and [up.] are the transitions,
    for every code book that has a code: the step puts the placeholder into
    the context, appends nothing, and [solve] returns what was decoded
    before. *)
Lemma literal_token_not_reported_witness :
  match_literal (tk "<0>") = true /\
  (exists cb : codebook_fn, cb [(tk "on.", 1); (tk "up.", 1)] <> []) /\
  forall cb out,
    cb [(tk "on.", 1); (tk "up.", 1)] <> [] ->
    ExistingDecoder.step cb
      (go_session [tk "go"; tk "up."; tk "go"; tk "<0>"] (Some [BEGIN; tk "go"]) 2 out)
    = Ok (PyQuot 3 4,
          taken (go_session [tk "go"; tk "up."; tk "go"; tk "<0>"]
                   (Some [BEGIN; tk "go"]) 2 out)
            [BEGIN; tk "go"] ExistingDecoder.INVALID [] false) /\
    exists s',
      ExistingDecoder.solve cb 2
        (go_session [tk "go"; tk "up."; tk "go"; tk "<0>"] (Some [BEGIN; tk "go"]) 2 out)
      = Some (Ok (out, s')).
Proof.
  split; [reflexivity|].
  split; [exists (fun tm => map (fun kv => (fst kv, [])) tm); discriminate|].
  intros cb out Hcb.
  destruct (literal_token_not_reported cb
              (go_session [tk "go"; tk "up."; tk "go"; tk "<0>"] (Some [BEGIN; tk "go"]) 2 out)
              [BEGIN; tk "go"] [(tk "on.", 1); (tk "up.", 1)] (tk "<0>") false
              eq_refl eq_refl eq_refl eq_refl eq_refl eq_refl eq_refl
              Hcb eq_refl eq_refl eq_refl) as [Hs Hsolve].
  split; [exact Hs|]. exact (Hsolve eq_refl O).
Defined.

(** *** The last bit of a payload in the Existing encoder *)

Lemma literal_not_END : forall tail, str_eqb (literal_token tail) END = false.
Proof. reflexivity. Qed.

Lemma slice_from_all : forall (A : Type) (l : list A), slice_from l (len l) = [].
Proof.
  intros A l. rewrite slice_from_nonneg by apply len_nonneg.
  unfold len. rewrite Nat2Z.id. apply skipn_all.
Qed.

Lemma dict_set_nonempty : forall (K V : Type) (eqb : K -> K -> bool) k (v : V) d,
  dict_set eqb k v d <> [].
Proof. intros K V eqb k v [|[k' v'] d]; simpl; [|destruct (eqb k' k)]; discriminate. Qed.

Lemma invert_nonempty : forall code, code <> [] -> ExistingEncoder.invert code <> [].
Proof.
  intros code Hne. unfold ExistingEncoder.invert.
  assert (H : forall l (acc : dict (list bool) str),
             acc <> [] ->
             fold_left (fun d (kv : str * list bool) =>
                          dict_set bits_eqb (snd kv) (fst kv) d) l acc <> []).
  { induction l as [|kv l IH]; intros acc Ha; [exact Ha|].
    simpl. apply IH. apply dict_set_nonempty. }
  destruct code as [|kv code]; [congruence|]. simpl. apply H. discriminate.
Qed.

(** With one bit left no width of the search loop is below the length of
    the bitstream. *)
Lemma search_short : forall code bits d,
  len bits <= 1 -> ExistingEncoder.search code bits d = None.
Proof.
  intros code bits d Hl. induction d as [|d IH]; [reflexivity|].
  cbn [ExistingEncoder.search].
  replace (len bits <=? Z.of_nat (S d)) with true by (symmetry; apply Z.leb_le; lia).
  exact IH.
Qed.

(** A step of the Existing encoder in a context with several transitions
    when at most one bit is left: the rest of the bitstream is written out
    as a literal and the session is over. *)
Lemma existing_encoder_last_bit : forall cb s g tm,
  ExistingEncoder.finished s = false ->
  ExistingEncoder.exhausted s = false ->
  ExistingEncoder.current_gram s = Some g ->
  dict_get gram_eqb g (chain_model (ExistingEncoder.model s)) = Some tm ->
  1 < len tm -> cb tm <> [] ->
  len (ExistingEncoder.bitstream s) <= 1 ->
  ExistingEncoder.bitstream_length s <> 0 ->
  ExistingEncoder.step cb s =
  Ok (PyQuot (ExistingEncoder.bitstream_length s - 0) (ExistingEncoder.bitstream_length s),
      {| ExistingEncoder.model := ExistingEncoder.model s;
         ExistingEncoder.bitstream := [];
         ExistingEncoder.bitstream_length := ExistingEncoder.bitstream_length s;
         ExistingEncoder.entrypoints := ExistingEncoder.entrypoints s;
         ExistingEncoder.current_gram :=
           Some (slice_from (g ++ [literal_token (ExistingEncoder.bitstream s)]) 1);
         ExistingEncoder.output_tokens :=
           ExistingEncoder.output_tokens s ++ [literal_token (ExistingEncoder.bitstream s)];
         ExistingEncoder.exhausted := false;
         ExistingEncoder.finished := true;
         ExistingEncoder.c := ExistingEncoder.c s + 1;
         ExistingEncoder.rng := ExistingEncoder.rng s |}).
Proof.
  intros cb s g tm Hf Hex Hg Htm Hl Hcb Hb Hbl.
  unfold ExistingEncoder.step. rewrite Hf, Hex.
  unfold ExistingEncoder.get_transition_matrix, dict_item. rewrite Hg, Htm. cbn [bind].
  replace (1 <? len tm) with true by (symmetry; apply Z.ltb_lt; lia).
  destruct (py_max_ok (map len (keys (ExistingEncoder.invert (cb tm))))) as [d Hd].
  { pose proof (invert_nonempty _ Hcb) as Hi. unfold keys.
    destruct (ExistingEncoder.invert (cb tm)); [congruence | discriminate]. }
  rewrite Hd. cbn [bind]. rewrite search_short by assumption.
  rewrite slice_from_all. cbn [bind].
  change ([60] ++ bits_str (ExistingEncoder.bitstream s) ++ [62])
    with (literal_token (ExistingEncoder.bitstream s)).
  rewrite literal_not_END. cbn [negb bind ExistingEncoder.bitstream].
  cbn [ExistingEncoder.bitstream_length ExistingEncoder.bitstream len List.length Z.of_nat].
  unfold py_div. apply Z.eqb_neq in Hbl. rewrite Hbl. cbn [bind].
  reflexivity.
Qed.

Lemma existing_generate_two : forall cb s v1 s1 v2 s2,
  ExistingEncoder.step cb s = Ok (v1, s1) ->
  ExistingEncoder.step cb s1 = Ok (v2, s2) ->
  ExistingEncoder.finished s = false ->
  ExistingEncoder.finished s1 = false ->
  ExistingEncoder.finished s2 = true ->
  ExistingEncoder.generate cb 2 s = Some (Ok (ExistingEncoder.output s2, s2)).
Proof.
  intros cb s v1 s1 v2 s2 H1 H2 Hf Hf1 Hf2.
  simpl. now rewrite Hf, H1, Hf1, H2, Hf2.
Qed.

(** A run of two steps: the entry token, then the literal for the one bit
    of the payload, in the context [g] with the transitions [tm]. *)
Ltac one_bit_run cb Hcb g tm :=
  unfold encode_existing, ExistingEncoder.__init__;
  match goal with
  | |- context [ExistingEncoder.generate cb 2 ?s0] =>
      let r := eval cbv in (ExistingEncoder.step cb s0) in
      match r with
      | Ok (?v1, ?s1) =>
          let H1 := fresh "H1" in
          let H2 := fresh "H2" in
          assert (H1 : ExistingEncoder.step cb s0 = Ok (v1, s1)) by reflexivity;
          pose proof (existing_encoder_last_bit cb s1 g tm
                        eq_refl eq_refl eq_refl eq_refl eq_refl Hcb
                        ltac:(cbv; discriminate) ltac:(discriminate)) as H2;
          rewrite (existing_generate_two cb _ _ _ _ _ H1 H2 eq_refl eq_refl eq_refl)
      end
  end;
  reflexivity.

(** On [go_model] the one-bit payload 0 is written out as a literal,
    whatever code the code book gives the two transitions of [go]. *)
Lemma go_encodes_one_bit : forall cb,
  cb [(tk "on.", 1); (tk "up.", 1)] <> [] ->
  encode_existing cb go_model [false] (always 0) 2 = Some (Ok (tk "go <0>")).
Proof.
  intros cb Hcb. one_bit_run cb Hcb [BEGIN; tk "go"] [(tk "on.", 1); (tk "up.", 1)].
Qed.

(** The Existing encoder writes the one-bit payload 0 on [go_model] as the
    text [go <0>], and the decoder returns the empty bitstream for that text
    and raises nothing, for every code book that has a code for the
    transitions of [go]. *)
Lemma literal_token_decoded_silently :
  ExistingEncoder.get_transition_matrix go_model (Some [BEGIN; tk "go"])
  = Ok [(tk "on.", 1); (tk "up.", 1)] /\
  (exists cb : codebook_fn, cb [(tk "on.", 1); (tk "up.", 1)] <> []) /\
  forall cb,
    cb [(tk "on.", 1); (tk "up.", 1)] <> [] ->
    encode_existing cb go_model [false] (always 0) 2 = Some (Ok (tk "go <0>")) /\
    decode_existing cb go_model (tk "go <0>") 3 = Some (Ok []).
Proof.
  split; [reflexivity|].
  split; [exists (fun tm => map (fun kv => (fst kv, [])) tm); discriminate|].
  intros cb Hcb. split; [now apply go_encodes_one_bit|].
  unfold decode_existing.
  change (ExistingDecoder.__init__ go_model (tk "go <0>"))
    with (Ok {| ExistingDecoder.model := go_model;
                ExistingDecoder.stega_text := [tk "go"; tk "<0>"];
                ExistingDecoder.entrypoints := [tk "go"]; ExistingDecoder.endkey := 0;
                ExistingDecoder.current_gram := None; ExistingDecoder.index := 0;
                ExistingDecoder.exhausted := true; ExistingDecoder.finished := false;
                ExistingDecoder.output := [] |}).
  cbn [ExistingDecoder.solve ExistingDecoder.finished].
  match goal with
  | |- context [ExistingDecoder.step cb ?s0] =>
      change (ExistingDecoder.step cb s0)
        with (Ok (PyQuot 0 2, go_session [tk "go"; tk "<0>"] (Some [BEGIN; tk "go"]) 0 []))
  end.
  cbn [go_session ExistingDecoder.finished].
  match goal with
  | |- context [ExistingDecoder.step cb ?s1] =>
      rewrite (existing_decoder_mid_step cb s1 [BEGIN; tk "go"]
                 [(tk "on.", 1); (tk "up.", 1)] (tk "<0>")
                 eq_refl eq_refl eq_refl eq_refl eq_refl (fun _ => Hcb))
  end.
  reflexivity.
Qed.

(** ** Entry contexts and the order of the model *)






Lemma mapM_getitem_fails : forall (l : list gram) i key,
  In key l -> getitem key i = Err IndexError ->
  mapM (fun key => getitem key i) l = Err IndexError.
Proof.
  intros l i key. induction l as [|k l IH]; intros Hin He; [destruct Hin|].
  simpl. destruct (getitem k i) as [x|e] eqn:Hk.
  - destruct Hin as [->|Hin]; [congruence|]. cbn. now rewrite IH.
  - cbn. unfold getitem in Hk.
    destruct ((if i <? 0 then i + len k else i) <? 0); [congruence|].
    destruct (nth_error k _); congruence.
Qed.







(** * Further properties of the module *)

(** ** The file functions: bytes and bits *)

Lemma unpackbits_int2 : forall b,
  int2 (unpackbits b) = Ok (Z.of_N (Byte.to_N b)).
Proof. intro b. destruct b; reflexivity. Qed.

Lemma unpackbits_length : forall b, List.length (unpackbits b) = 8%nat.
Proof. intro b. reflexivity. Qed.

Lemma to_byte_to_N : forall b, to_byte (Z.of_N (Byte.to_N b)) = Ok b.
Proof.
  intro b. unfold to_byte.
  destruct (Z.of_N (Byte.to_N b) <? 0) eqn:E; [apply Z.ltb_lt in E; lia|].
  now rewrite N2Z.id, Byte.of_to_N.
Qed.

Lemma py_range_step8 : forall n,
  py_range 0 (8 * Z.of_nat n) 8 = map (fun k => 8 * Z.of_nat k) (seq 0 n).
Proof.
  intro n. unfold py_range.
  replace ((8 * Z.of_nat n - 0 + 8 - 1) / 8) with (Z.of_nat n).
  - rewrite Nat2Z.id. apply map_ext. intro k. lia.
  - apply Z.div_unique with (r := 7); lia.
Qed.

Lemma file_to_bitstream_length : forall data,
  List.length (file_to_bitstream data) = (8 * List.length data)%nat.
Proof.
  induction data as [|b data IH]; [reflexivity|].
  change (file_to_bitstream (b :: data)) with (unpackbits b ++ file_to_bitstream data).
  rewrite length_app, IH, unpackbits_length. simpl List.length. lia.
Qed.

Lemma file_to_bitstream_app : forall d1 d2,
  file_to_bitstream (d1 ++ d2) = file_to_bitstream d1 ++ file_to_bitstream d2.
Proof. intros. unfold file_to_bitstream. apply flat_map_app. Qed.

(** The slices of eight taken at 8s, 8(s+1), ... of some bytes' bits are
    the bits of the bytes from the s-th on. *)
Lemma byte_slices : forall data pre,
  map (fun i => slice_to (slice_from (file_to_bitstream (pre ++ data)) i) 8)
      (map (fun k => 8 * Z.of_nat k) (seq (List.length pre) (List.length data)))
  = map unpackbits data.
Proof.
  induction data as [|b data IH]; intro pre; [reflexivity|].
  cbn [List.length seq map]. f_equal.
  - rewrite slice_from_nonneg by lia. rewrite slice_to_nonneg by lia.
    rewrite file_to_bitstream_app.
    change (file_to_bitstream (b :: data)) with (unpackbits b ++ file_to_bitstream data).
    replace (Z.to_nat (8 * Z.of_nat (List.length pre)))
      with (List.length (file_to_bitstream pre))
      by (rewrite file_to_bitstream_length; lia).
    rewrite skipn_app, skipn_all, Nat.sub_diag. cbn [skipn app].
    change (Z.to_nat 8) with (List.length (unpackbits b)).
    rewrite firstn_app, Nat.sub_diag, firstn_all. cbn [firstn]. apply app_nil_r.
  - specialize (IH (pre ++ [b])). rewrite <- app_assoc in IH. simpl app in IH.
    rewrite length_app in IH. simpl List.length in IH.
    rewrite Nat.add_1_r in IH. exact IH.
Qed.

Lemma file_to_bitstream_len : forall data,
  len (file_to_bitstream data) = 8 * len data.
Proof.
  intro data. unfold len. rewrite file_to_bitstream_length. lia.
Qed.

Lemma mapM_bytes : forall data,
  mapM (fun byte => n <- int2 byte ;; to_byte n) (map unpackbits data) = Ok data.
Proof.
  induction data as [|b data IH]; [reflexivity|].
  cbn [map mapM]. rewrite unpackbits_int2. cbn [bind]. rewrite to_byte_to_N. cbn [bind].
  now rewrite IH.
Qed.

Lemma bytes_bits_bytes : forall file_data,
  bitstream_to_file (file_to_bitstream file_data) = Ok file_data.
Proof.
  intro data. unfold bitstream_to_file.
  rewrite file_to_bitstream_len. unfold len at 1. rewrite py_range_step8.
  pose proof (byte_slices data []) as H. cbn [app List.length] in H.
  rewrite H. apply mapM_bytes.
Qed.

(** X1: a file read with [file_to_bitstream] and written back with
    [bitstream_to_file] has the contents it had: for every sequence of bytes,
    the bytes written for its bitstream are those bytes, and no error is
    raised. *)
Theorem bytes_round_trip : forall file_data,
  bitstream_to_file (file_to_bitstream file_data) = Ok file_data.
Proof. exact bytes_bits_bytes. Qed.

(** A chunk of one to eight bits becomes the byte whose bits are the chunk
    filled with zeros on the left. *)
Lemma chunk_byte : forall l,
  (1 <= List.length l <= 8)%nat ->
  exists b, (n <- int2 l ;; to_byte n) = Ok b /\ unpackbits b = zfill l 8.
Proof.
  intros l Hl.
  repeat match goal with
         | l : list bool |- _ => destruct l as [|? ?]; simpl in Hl; try lia
         end;
    repeat match goal with b : bool |- _ => destruct b end;
    (eexists; split; [vm_compute; reflexivity | reflexivity]).
Qed.

Lemma py_range_next : forall n,
  0 < n -> py_range 0 n 8 = 0 :: map (fun i => i + 8) (py_range 0 (n - 8) 8).
Proof.
  intros n Hn. unfold py_range.
  replace ((n - 0 + 8 - 1) / 8) with ((n - 8 - 0 + 8 - 1) / 8 + 1).
  - assert (0 <= (n - 8 - 0 + 8 - 1) / 8) by (apply Z.div_pos; lia).
    rewrite Z2Nat.inj_add by lia. rewrite Nat.add_1_r. cbn [seq map].
    f_equal. rewrite <- seq_shift, !map_map. apply map_ext. intro k. lia.
  - replace (n - 0 + 8 - 1) with ((n - 8 - 0 + 8 - 1) + 1 * 8) by lia.
    now rewrite Z.div_add by lia.
Qed.

Lemma py_range_none : forall n, n <= 0 -> py_range 0 n 8 = [].
Proof.
  intros n Hn. unfold py_range.
  replace (Z.to_nat ((n - 0 + 8 - 1) / 8)) with 0%nat; [reflexivity|].
  assert ((n - 0 + 8 - 1) / 8 <= 0); [|lia].
  apply Z.lt_succ_r. apply Z.div_lt_upper_bound; lia.
Qed.

(** [bitstream_to_file] by chunks: the first eight bits, then the rest. *)
Lemma bitstream_to_file_step : forall bits,
  bits <> [] ->
  bitstream_to_file bits =
  (b <- (n <- int2 (firstn 8 bits) ;; to_byte n) ;;
   bs <- bitstream_to_file (skipn 8 bits) ;; Ok (b :: bs)).
Proof.
  intros bits Hne. unfold bitstream_to_file.
  rewrite py_range_next by (apply len_pos in Hne; lia).
  cbn [map mapM]. rewrite slice_from_nonneg, slice_to_nonneg by lia.
  change (Z.to_nat 0) with 0%nat. change (Z.to_nat 8) with 8%nat. cbn [skipn].
  replace (len bits - 8) with (if len bits <? 8 then len bits - 8 else len (skipn 8 bits)).
  2:{ destruct (len bits <? 8) eqn:E; [reflexivity|]. apply Z.ltb_ge in E.
      unfold len in *. rewrite length_skipn. lia. }
  assert (Hr : map (fun i => slice_to (slice_from bits i) 8)
                 (map (fun i => i + 8)
                    (py_range 0 (if len bits <? 8 then len bits - 8
                                 else len (skipn 8 bits)) 8))
               = map (fun i => slice_to (slice_from (skipn 8 bits) i) 8)
                   (py_range 0 (len (skipn 8 bits)) 8)).
  { destruct (len bits <? 8) eqn:E.
    - apply Z.ltb_lt in E. rewrite py_range_none by lia.
      rewrite py_range_none; [reflexivity|].
      unfold len in *. rewrite length_skipn. lia.
    - rewrite map_map. apply map_ext_in. intros i Hi.
      unfold py_range in Hi. apply in_map_iff in Hi. destruct Hi as [k [<- _]].
      rewrite !slice_from_nonneg by lia. rewrite skipn_skipn. do 2 f_equal. lia. }
  now rewrite Hr.
Qed.

Lemma bitstream_to_file_nil : bitstream_to_file [] = Ok [].
Proof. reflexivity. Qed.

Lemma bitstream_to_file_spec : forall bits,
  exists data,
    bitstream_to_file bits = Ok data /\
    len data = (len bits + 7) / 8 /\
    file_to_bitstream data =
    firstn (8 * (List.length bits / 8)) bits ++
    match skipn (8 * (List.length bits / 8)) bits with
    | [] => []
    | tail => zfill tail 8
    end.
Proof.
  intro bits. remember (List.length bits) as n eqn:Hn. revert bits Hn.
  induction n as [n IH] using lt_wf_ind. intros bits Hn.
  destruct bits as [|b0 bits0] eqn:Eb.
  - subst n. exists []. repeat split.
  - rewrite <- Eb in *. assert (Hne : bits <> []) by (rewrite Eb; discriminate).
    rewrite bitstream_to_file_step by assumption.
    destruct (Nat.lt_ge_cases n 8) as [Hlt | Hge].
    + (* a single short chunk *)
      assert (Hpos : (1 <= n)%nat) by (subst n bits; simpl; lia).
      destruct (chunk_byte bits) as [b [Hb Hu]]; [lia|].
      rewrite firstn_all2 by lia. rewrite Hb. cbn [bind].
      rewrite skipn_all2 by lia. rewrite bitstream_to_file_nil. cbn [bind].
      exists [b]. split; [reflexivity|]. split.
      * unfold len. rewrite <- Hn. simpl List.length.
        apply Z.div_unique with (r := Z.of_nat n - 1); lia.
      * rewrite (Nat.div_small n 8) by lia. change (8 * 0)%nat with 0%nat.
        cbn [firstn skipn app].
        unfold file_to_bitstream. cbn [flat_map]. rewrite app_nil_r, Hu.
        rewrite Eb. reflexivity.
    + (* a full chunk and the rest *)
      destruct (chunk_byte (firstn 8 bits)) as [b [Hb Hu]];
        [rewrite length_firstn; lia|].
      rewrite Hb. cbn [bind].
      destruct (IH (n - 8)%nat ltac:(lia) (skipn 8 bits)) as [data [Hd [Hl Hf]]];
        [rewrite length_skipn; lia|].
      rewrite Hd. cbn [bind]. exists (b :: data). split; [reflexivity|]. split.
      * rewrite len_cons, Hl. unfold len. rewrite length_skipn, <- Hn.
        replace (Z.of_nat n + 7) with ((Z.of_nat (n - 8) + 7) + 1 * 8) by lia.
        rewrite Z.div_add by lia. lia.
      * change (file_to_bitstream (b :: data)) with (unpackbits b ++ file_to_bitstream data).
        rewrite Hu, Hf.
        assert (Hz : zfill (firstn 8 bits) 8 = firstn 8 bits).
        { unfold zfill, len. rewrite length_firstn, <- Hn.
          replace (Z.to_nat (8 - Z.of_nat (Nat.min 8 n))) with 0%nat by lia.
          reflexivity. }
        rewrite Hz.
        assert (Hdiv : (n / 8 = S ((n - 8) / 8))%nat).
        { replace n with ((n - 8) + 1 * 8)%nat at 1 by lia.
          rewrite Nat.div_add by lia. lia. }
        rewrite Hdiv.
        replace (8 * S ((n - 8) / 8))%nat with (8 + 8 * ((n - 8) / 8))%nat by lia.
        rewrite <- !skipn_skipn, app_assoc. f_equal.
        rewrite <- (firstn_skipn 8 bits) at 3.
        rewrite firstn_app, length_firstn, <- Hn.
        replace (8 + 8 * ((n - 8) / 8) - Nat.min 8 n)%nat with (8 * ((n - 8) / 8))%nat by lia.
        rewrite firstn_firstn.
        replace (Nat.min (8 + 8 * ((n - 8) / 8)) 8) with 8%nat by lia.
        reflexivity.
        rewrite !skipn_skipn.
        now replace (8 * ((n - 8) / 8) + 8)%nat with (8 + 8 * ((n - 8) / 8))%nat by lia.
Qed.

(** X2: [bitstream_to_file] never raises on a string of binary digits: it
    writes one byte for every eight bits, rounded up, and reading the bytes
    back gives the bitstream with its last, incomplete group of bits padded
    with zeros on the left to eight (so a bitstream whose length is not a
    multiple of 8 does not come back as it was). *)
Theorem bits_to_file_and_back : forall bits,
  exists data,
    bitstream_to_file bits = Ok data /\
    len data = (len bits + 7) / 8 /\
    file_to_bitstream data =
    firstn (8 * (List.length bits / 8)) bits ++
    match skipn (8 * (List.length bits / 8)) bits with
    | [] => []
    | tail => zfill tail 8
    end.
Proof. exact bitstream_to_file_spec. Qed.

(** X3: a bitstream whose length is a multiple of 8 written with
    [bitstream_to_file] and read back with [file_to_bitstream] is the same
    bitstream. *)
Theorem bits_round_trip : forall bits,
  len bits mod 8 = 0 ->
  exists data, bitstream_to_file bits = Ok data /\ file_to_bitstream data = bits.
Proof.
  intros bits Hm. destruct (bitstream_to_file_spec bits) as [data [Hd [_ Hf]]].
  exists data. split; [assumption|]. rewrite Hf.
  assert (Hk : (8 * (List.length bits / 8) = List.length bits)%nat).
  { unfold len in Hm. apply Nat2Z.inj. rewrite Nat2Z.inj_mul, Nat2Z.inj_div.
    change (Z.of_nat 8) with 8. pose proof (Z.div_mod (Z.of_nat (List.length bits)) 8). lia. }
  rewrite Hk, firstn_all, skipn_all. apply app_nil_r.
Qed.

Lemma bits_round_trip_witness :
  exists data,
    bitstream_to_file [false; true; false; false; false; false; false; true;
                       true; true; true; true; true; true; true; true] = Ok data /\
    file_to_bitstream data = [false; true; false; false; false; false; false; true;
                              true; true; true; true; true; true; true; true].
Proof.
  apply (bits_round_trip [false; true; false; false; false; false; false; true;
                          true; true; true; true; true; true; true; true]).
  reflexivity.
Defined.

(** ** Comparing two bitstreams *)

Lemma py_range_1 : forall lo hi,
  py_range lo hi 1 = map (fun k => lo + Z.of_nat k) (seq 0 (Z.to_nat (hi - lo))).
Proof.
  intros lo hi. unfold py_range.
  replace ((hi - lo + 1 - 1) / 1) with (hi - lo) by (rewrite Z.div_1_r; lia).
  apply map_ext. intro k. lia.
Qed.

Lemma py_range_1_In : forall lo hi i, In i (py_range lo hi 1) <-> lo <= i < hi.
Proof.
  intros lo hi i. rewrite py_range_1, in_map_iff. split.
  - intros [k [<- Hk]]. apply in_seq in Hk. lia.
  - intro H. exists (Z.to_nat (i - lo)). split; [lia|]. apply in_seq. lia.
Qed.

Lemma py_range_1_sorted : forall lo hi, StronglySorted Z.lt (py_range lo hi 1).
Proof.
  intros lo hi. rewrite py_range_1. generalize (Z.to_nat (hi - lo)) as n.
  intro n. revert lo. induction n as [|n IH]; intro lo; [constructor|].
  cbn [seq map]. rewrite <- seq_shift, map_map.
  replace (map (fun k => lo + Z.of_nat (S k)) (seq 0 n))
    with (map (fun k => (lo + 1) + Z.of_nat k) (seq 0 n))
    by (apply map_ext; intro k; lia).
  constructor; [apply IH|].
  apply Forall_forall. intros x Hx. apply in_map_iff in Hx. destruct Hx as [k [<- _]]. lia.
Qed.

Lemma mismatches_In : forall a b s i,
  In i (where_ne s a b ++ py_range (s + Z.min (len a) (len b)) (s + Z.max (len a) (len b)) 1)
  <-> s <= i < s + Z.max (len a) (len b) /\
      nth_error a (Z.to_nat (i - s)) <> nth_error b (Z.to_nat (i - s)).
Proof.
  induction a as [|x a IH]; intros b s i.
  - cbn [where_ne app]. change (len (@nil bool)) with 0.
    pose proof (len_nonneg _ b) as Hb.
    rewrite Z.min_l, Z.max_r by lia. rewrite py_range_1_In.
    assert (Hnil : nth_error (@nil bool) (Z.to_nat (i - s)) = None)
      by (now destruct (Z.to_nat (i - s))).
    rewrite Hnil. split; [|intros [H _]; lia].
    intro H. split; [lia|]. intro Hn. symmetry in Hn.
    apply nth_error_None in Hn. unfold len in H. lia.
  - destruct b as [|y b].
    + cbn [where_ne app]. change (len (@nil bool)) with 0.
      pose proof (len_nonneg _ (x :: a)) as Ha.
      rewrite Z.min_r, Z.max_l by lia. rewrite py_range_1_In.
      split; [|intros [H _]; lia].
      intro H. split; [lia|].
      destruct (nth_error (x :: a) (Z.to_nat (i - s))) eqn:En.
      * destruct (Z.to_nat (i - s)); discriminate.
      * apply nth_error_None in En. unfold len in H. lia.
    + rewrite !len_cons. pose proof (len_nonneg _ a). pose proof (len_nonneg _ b).
      rewrite Z.add_min_distr_l, Z.add_max_distr_l.
      specialize (IH b (s + 1) i).
      replace (s + 1 + Z.min (len a) (len b)) with (s + (1 + Z.min (len a) (len b))) in IH by lia.
      replace (s + 1 + Z.max (len a) (len b)) with (s + (1 + Z.max (len a) (len b))) in IH by lia.
      cbn [where_ne].
      destruct (Z.eq_dec i s) as [-> | Hne].
      * replace (Z.to_nat (s - s)) with 0%nat by lia. cbn [nth_error].
        destruct (Bool.eqb x y) eqn:Exy.
        -- apply eqb_prop in Exy. subst y. rewrite IH. split; [lia|]. intros [_ H']. congruence.
        -- apply eqb_false_iff in Exy. split; [|intros _; now left].
           intros _. split; [lia|]. congruence.
      * assert (Ht : i < s \/ Z.to_nat (i - s) = S (Z.to_nat (i - (s + 1)))) by lia.
        destruct (Bool.eqb x y); cbn [app In]; rewrite IH;
          (split; [intros H'; repeat destruct H' as [H'|H']; try lia;
                   destruct H' as [Hr Hn]; split; [lia|];
                   destruct Ht as [Ht|Ht]; [lia|]; now rewrite Ht
                  | intros [Hr Hn]; destruct Ht as [Ht|Ht]; [lia|];
                    rewrite Ht in Hn; cbn [nth_error] in Hn;
                    first [right; split; [lia|exact Hn] | split; [lia|exact Hn]]]).
Qed.

Lemma where_ne_firstn : forall a b s,
  where_ne s (slice_to a (Z.min (len a) (len b))) (slice_to b (Z.min (len a) (len b)))
  = where_ne s a b.
Proof.
  intros a b s.
  assert (Hs : forall l : list bool,
             slice_to l (Z.min (len a) (len b))
             = firstn (Nat.min (List.length a) (List.length b)) l).
  { intro l. pose proof (len_nonneg _ a). pose proof (len_nonneg _ b).
    rewrite slice_to_nonneg by lia. f_equal. unfold len. lia. }
  rewrite !Hs. clear Hs. revert b s.
  induction a as [|x a IH]; intros b s; [reflexivity|].
  destruct b as [|y b]; [reflexivity|].
  cbn [List.length Nat.min firstn where_ne]. now rewrite !IH.
Qed.

Lemma validate_unfold : forall a b,
  validate_bitstreams a b =
  where_ne 0 a b ++ py_range (0 + Z.min (len a) (len b)) (0 + Z.max (len a) (len b)) 1.
Proof. intros. unfold validate_bitstreams. now rewrite where_ne_firstn. Qed.

(** X4: [validate_bitstreams] returns exactly the positions at which the
    two bitstreams differ: an index is in the result if and only if it lies
    below the length of the longer bitstream and the two bitstreams do not
    have the same bit there (a position that only the longer one has counts
    as a difference). *)
Theorem validate_bitstreams_spec : forall bitstream1 bitstream2 i,
  In i (validate_bitstreams bitstream1 bitstream2) <->
  0 <= i < Z.max (len bitstream1) (len bitstream2) /\
  nth_error bitstream1 (Z.to_nat i) <> nth_error bitstream2 (Z.to_nat i).
Proof.
  intros a b i. rewrite validate_unfold, mismatches_In.
  now replace (i - 0) with i by lia.
Qed.

Lemma mismatches_sorted : forall a b s,
  StronglySorted Z.lt
    (where_ne s a b ++ py_range (s + Z.min (len a) (len b)) (s + Z.max (len a) (len b)) 1).
Proof.
  induction a as [|x a IH]; intros b s; [apply py_range_1_sorted|].
  destruct b as [|y b]; [apply py_range_1_sorted|].
  rewrite !len_cons, Z.add_min_distr_l, Z.add_max_distr_l. cbn [where_ne].
  specialize (IH b (s + 1)).
  replace (s + (1 + Z.min (len a) (len b))) with (s + 1 + Z.min (len a) (len b)) by lia.
  replace (s + (1 + Z.max (len a) (len b))) with (s + 1 + Z.max (len a) (len b)) by lia.
  destruct (Bool.eqb x y); [exact IH|]. cbn [app]. constructor; [exact IH|].
  apply Forall_forall. intros i Hi. apply mismatches_In in Hi. lia.
Qed.

(** X5: the indices returned by [validate_bitstreams] are in strictly
    ascending order, so none is reported twice. *)
Theorem validate_bitstreams_ascending : forall bitstream1 bitstream2,
  StronglySorted Z.lt (validate_bitstreams bitstream1 bitstream2).
Proof. intros a b. rewrite validate_unfold. apply mismatches_sorted. Qed.

(** X6: [validate_bitstreams] returns the empty array if and only if the
    two bitstreams are equal. *)
Theorem validate_bitstreams_empty : forall bitstream1 bitstream2,
  validate_bitstreams bitstream1 bitstream2 = [] <-> bitstream1 = bitstream2.
Proof.
  intros a b. split.
  - intro H. apply nth_error_ext. intro n.
    destruct (Z.lt_ge_cases (Z.of_nat n) (Z.max (len a) (len b))) as [Hlt | Hge].
    + assert (Hmis : nth_error a n <> nth_error b n -> False).
      { intro Hne. assert (Hin : In (Z.of_nat n) (validate_bitstreams a b)).
        { rewrite validate_unfold. apply mismatches_In. split; [lia|].
          now replace (Z.to_nat (Z.of_nat n - 0)) with n by lia. }
        rewrite H in Hin. contradiction. }
      destruct (nth_error a n) as [x|], (nth_error b n) as [y|];
        try reflexivity; try (exfalso; apply Hmis; discriminate).
      destruct (Bool.bool_dec x y) as [-> | Hxy]; [reflexivity|].
      exfalso. apply Hmis. congruence.
    + assert (Ha : nth_error a n = None) by (apply nth_error_None; unfold len in Hge; lia).
      assert (Hb : nth_error b n = None) by (apply nth_error_None; unfold len in Hge; lia).
      congruence.
  - intros <-. destruct (validate_bitstreams a a) as [|i l] eqn:E; [reflexivity|].
    assert (Hin : In i (validate_bitstreams a a)) by (rewrite E; now left).
    rewrite validate_unfold in Hin. apply mismatches_In in Hin.
    destruct Hin as [_ Hn]. congruence.
Qed.

Lemma validate_same : forall a, validate_bitstreams a a = [].
Proof.
  intro a. destruct (validate_bitstreams a a) as [|i l] eqn:E; [reflexivity|].
  assert (Hin : In i (validate_bitstreams a a)) by (rewrite E; now left).
  rewrite validate_unfold in Hin. apply mismatches_In in Hin.
  destruct Hin as [_ Hn]. congruence.
Qed.

(** ** What a step of the Enhanced encoder changes *)

Lemma setitem_len : forall (A : Type) (l : list A) i x, len (setitem l i x) = len l.
Proof. intros. unfold setitem, len. now rewrite replace_nth_length. Qed.

Lemma inject_frame : forall s removed s1,
  EnhancedEncoder._inject_end_key s removed = Ok s1 ->
  EnhancedEncoder.model s1 = EnhancedEncoder.model s /\
  EnhancedEncoder.entrypoints s1 = EnhancedEncoder.entrypoints s /\
  EnhancedEncoder.bitstream_length s1 = EnhancedEncoder.bitstream_length s /\
  EnhancedEncoder.bitstream s1 = EnhancedEncoder.bitstream s /\
  len (EnhancedEncoder.output_tokens s1) = len (EnhancedEncoder.output_tokens s) /\
  EnhancedEncoder.end_key s1 = len removed /\
  EnhancedEncoder.finished s1 = true.
Proof.
  intros s removed s1 H. unfold EnhancedEncoder._inject_end_key in H.
  inv_bind H. destruct a as [i g]. inv_bind H. inv_bind H. injection H as <-.
  cbn. rewrite setitem_len. repeat split.
Qed.

Lemma picks_split : forall lst bits tok rest,
  picks lst bits tok rest -> exists removed, bits = removed ++ rest.
Proof.
  intros lst bits tok rest [_ [-> _]].
  exists (firstn (Z.to_nat (Z.log2 (len lst))) bits). symmetry. apply firstn_skipn.
Qed.

Lemma enc_step_frame : forall s v s',
  EnhancedEncoder.step s = Ok (v, s') ->
  EnhancedEncoder.model s' = EnhancedEncoder.model s /\
  EnhancedEncoder.entrypoints s' = EnhancedEncoder.entrypoints s /\
  EnhancedEncoder.bitstream_length s' = EnhancedEncoder.bitstream_length s /\
  (exists removed, EnhancedEncoder.bitstream s = removed ++ EnhancedEncoder.bitstream s') /\
  len (EnhancedEncoder.output_tokens s) <= len (EnhancedEncoder.output_tokens s')
    <= len (EnhancedEncoder.output_tokens s) + 1.
Proof.
  intros s v s' H. destruct (EnhancedEncoder.finished s) eqn:Hf.
  - unfold EnhancedEncoder.step in H. rewrite Hf in H. injection H as _ <-.
    repeat split; try lia. now exists [].
  - apply step_inv in H; [|assumption].
    destruct (EnhancedEncoder.exhausted s).
    + apply choose_entrypoint_inv in H. destruct H as [tok [rest [Hp H]]].
      destruct (picks_split _ _ _ _ Hp) as [removed Hr]. cbv zeta in H.
      destruct H as [[-> H] | [_ ->]].
      * apply inject_frame in H. cbn in H.
        destruct H as [Hm [He [Hl [Hb [Ho _]]]]]. rewrite Hm, He, Hl, Hb, Ho.
        rewrite len_app. change (len [tok]) with 1.
        repeat split; try lia. exists removed. now rewrite Hr.
      * cbn. rewrite len_app. change (len [tok]) with 1.
        repeat split; try lia. now exists removed.
    + apply choose_next_token_inv in H.
      destruct H as [g [lst [Hg [Ht [[_ ->] | [_ [tok [rest [Hp H]]]]]]]]].
      * cbn. repeat split; try lia. now exists [].
      * destruct (picks_split _ _ _ _ Hp) as [removed Hr]. cbv zeta in H.
        destruct H as [[-> H] | [_ ->]].
        -- apply inject_frame in H. cbn in H.
           destruct H as [Hm [He [Hl [Hb [Ho _]]]]]. rewrite Hm, He, Hl, Hb, Ho.
           rewrite len_app. change (len [tok]) with 1.
           repeat split; try lia. exists removed. now rewrite Hr.
        -- cbn. rewrite len_app. change (len [tok]) with 1.
           repeat split; try lia. now exists removed.
Qed.

(** X7: a step of the Enhanced encoder that returns leaves the model, the
    entry points and [bitstream_length] as they are, removes a prefix of
    the bitstream (possibly empty) and appends at most one token to the
    output. *)
Theorem encoder_step_frame : forall s v s',
  EnhancedEncoder.step s = Ok (v, s') ->
  EnhancedEncoder.model s' = EnhancedEncoder.model s /\
  EnhancedEncoder.entrypoints s' = EnhancedEncoder.entrypoints s /\
  EnhancedEncoder.bitstream_length s' = EnhancedEncoder.bitstream_length s /\
  (exists removed, EnhancedEncoder.bitstream s = removed ++ EnhancedEncoder.bitstream s') /\
  len (EnhancedEncoder.output_tokens s) <= len (EnhancedEncoder.output_tokens s')
    <= len (EnhancedEncoder.output_tokens s) + 1.
Proof. exact enc_step_frame. Qed.

Lemma encoder_step_frame_witness :
  exists v s',
    EnhancedEncoder.step (zoo_session [true; false; true] []) = Ok (v, s') /\
    EnhancedEncoder.model s' = zoo_model /\
    EnhancedEncoder.entrypoints s' = [tk "the"; tk "a"] /\
    EnhancedEncoder.bitstream_length s' = 32 /\
    (exists removed, [true; false; true] = removed ++ EnhancedEncoder.bitstream s') /\
    0 <= len (EnhancedEncoder.output_tokens s') <= 0 + 1.
Proof.
  eexists. eexists. split; [reflexivity|].
  eapply (encoder_step_frame (zoo_session [true; false; true] [])). reflexivity.
Defined.

(** After any number of steps the session holds a rest of the payload and
    the length stored by the constructor. *)
Lemma enc_steps_frame : forall n s0 s,
  enc_steps n s0 = Ok s ->
  EnhancedEncoder.bitstream_length s = EnhancedEncoder.bitstream_length s0 /\
  exists removed, EnhancedEncoder.bitstream s0 = removed ++ EnhancedEncoder.bitstream s.
Proof.
  induction n as [|n IH]; intros s0 s H; simpl in H.
  - injection H as <-. split; [reflexivity | now exists []].
  - inv_bind H. destruct a as [v s1]. cbv zeta in H.
    apply enc_step_frame in Ha. destruct Ha as [_ [_ [Hl [[r1 Hb1] _]]]].
    apply IH in H. destruct H as [Hl' [r2 Hb2]]. split; [congruence|].
    exists (r1 ++ r2). now rewrite Hb1, Hb2, app_assoc.
Qed.

(** X8: in a session of the Enhanced encoder that is not over, a step
    returns the quotient of [bitstream_length - len(bitstream)] by
    [bitstream_length], where [bitstream_length] is the length of the
    payload as the C [int] holds it.  For a payload of fewer than 2^31 bits
    that is the number of bits consumed so far over the positive length of
    the payload, between 0 and the length and not smaller than before the
    step; for a payload of 2^31 bits or more (below 2^32) the stored length
    is the length minus 2^32, a negative number. *)
Theorem encoder_progress : forall m bits g s0 n s v s',
  EnhancedEncoder.__init__ m bits g = Ok s0 ->
  enc_steps n s0 = Ok s ->
  EnhancedEncoder.finished s = false ->
  EnhancedEncoder.step s = Ok (v, s') ->
  v = PyQuot (c_int (len bits) - len (EnhancedEncoder.bitstream s')) (c_int (len bits)) /\
  (len bits < 2 ^ 31 ->
   c_int (len bits) = len bits /\ 0 < len bits /\
   0 <= len bits - len (EnhancedEncoder.bitstream s)
     <= len bits - len (EnhancedEncoder.bitstream s') /\
   len bits - len (EnhancedEncoder.bitstream s') <= len bits) /\
  (2 ^ 31 <= len bits < 2 ^ 32 ->
   c_int (len bits) = len bits - 2 ^ 32 /\ c_int (len bits) < 0).
Proof.
  intros m bits g s0 n s v s' Hi Hn Hf H.
  apply init_enc_inv in Hi. destruct Hi as [E [_ Hs0]].
  apply enc_steps_frame in Hn. destruct Hn as [Hl0 [r0 Hb0]].
  rewrite Hs0 in Hl0, Hb0. cbn in Hl0, Hb0.
  pose proof (enc_step_frame _ _ _ H) as [_ [_ [Hl [[removed Hb] _]]]].
  unfold EnhancedEncoder.step in H. rewrite Hf in H. inv_bind H. inv_bind H.
  injection H as -> ->. unfold py_div in Ha0.
  destruct (EnhancedEncoder.bitstream_length s' =? 0) eqn:Hz; [discriminate|].
  injection Ha0 as <-. apply Z.eqb_neq in Hz. rewrite Hl, Hl0 in *.
  pose proof (len_nonneg _ bits) as Hnn.
  split; [reflexivity|]. split.
  - intro Hlt. rewrite c_int_small in * by lia.
    rewrite Hb0, Hb, !len_app in *.
    pose proof (len_nonneg _ removed). pose proof (len_nonneg _ r0).
    pose proof (len_nonneg _ (EnhancedEncoder.bitstream s')).
    repeat split; lia.
  - intro Hge. assert (Hc : c_int (len bits) = len bits - 2 ^ 32).
    { unfold c_int.
      replace (len bits + 2 ^ 31) with (len bits - 2 ^ 31 + 1 * 2 ^ 32) by lia.
      rewrite Z.mod_add by lia. rewrite Z.mod_small; lia. }
    split; [exact Hc | lia].
Qed.

Lemma encoder_progress_witness :
  exists s0 v s',
    EnhancedEncoder.__init__ zoo_model [true; false; true] (always 0) = Ok s0 /\
    EnhancedEncoder.step s0 = Ok (v, s') /\
    v = PyQuot (3 - len (EnhancedEncoder.bitstream s')) 3 /\
    0 <= 3 - len (EnhancedEncoder.bitstream s0)
      <= 3 - len (EnhancedEncoder.bitstream s') /\
    3 - len (EnhancedEncoder.bitstream s') <= 3.
Proof.
  eexists. eexists. eexists. split; [reflexivity|]. split; [reflexivity|].
  match goal with
  | |- ?v = PyQuot (_ - len (EnhancedEncoder.bitstream ?s')) _ /\
       0 <= _ - len (EnhancedEncoder.bitstream ?s0) <= _ /\ _ =>
      destruct (encoder_progress zoo_model [true; false; true] (always 0) s0 0 s0 v s'
                  eq_refl eq_refl eq_refl eq_refl) as [Hv [Hsmall _]];
      destruct (Hsmall eq_refl) as [_ [_ Hb]]
  end.
  split; [exact Hv | exact Hb].
Defined.

(** X9: when [_consume_from_list] returns, the index it read from the
    bitstream lies in [0, 2^bit_length), [2^bit_length] is the largest power
    of two not above the length of the list, and the token returned is the
    element of the list at that index: candidates beyond the first
    [2^bit_length] are never selected. *)
Theorem consume_addressable : forall s lst tok removed bl idx s',
  EnhancedEncoder._consume_from_list s lst = Ok (tok, removed, bl, idx, s') ->
  0 <= idx < 2 ^ bl /\ 2 ^ bl <= len lst /\ len lst < 2 ^ (bl + 1) /\
  nth_error lst (Z.to_nat idx) = Some tok.
Proof.
  intros s lst tok removed bl idx s' H.
  pose proof (consume_inv _ _ _ _ _ _ _ H) as [Hbl _].
  unfold EnhancedEncoder._consume_from_list in H. cbv zeta in H.
  inv_bind H. unfold ceil_log2 in Ha.
  destruct (len lst <=? 0) eqn:Hpos; [discriminate|]. apply Z.leb_gt in Hpos.
  injection Ha as <-. inv_bind H. inv_bind H. injection H as <- _ Hbl' <- _.
  rewrite Hbl' in *. clear Hbl'.
  pose proof (Z.log2_spec _ Hpos) as [Hlo Hhi]. rewrite <- Hbl in Hlo, Hhi.
  replace (Z.succ bl) with (bl + 1) in Hhi by lia.
  assert (Hb0 : 0 <= bl) by (rewrite Hbl; apply Z.log2_nonneg).
  assert (Hidx : 0 <= a < 2 ^ bl).
  { destruct (bl =? 0) eqn:Hz.
    - injection Ha as <-. apply Z.eqb_eq in Hz. rewrite Hz. simpl. lia.
    - pose proof (int2_bound _ _ Ha) as Hb.
      assert (Hle : len (slice_to (EnhancedEncoder.bitstream s) bl) <= bl).
      { unfold slice_to. destruct (bl <? 0) eqn:Hn; [apply Z.ltb_lt in Hn; lia|].
        pose proof (len_firstn _ (EnhancedEncoder.bitstream s) bl Hb0). lia. }
      assert (2 ^ len (slice_to (EnhancedEncoder.bitstream s) bl) <= 2 ^ bl).
      { apply Z.pow_le_mono_r; [lia|]. exact Hle. }
      lia. }
  repeat split; try lia.
  apply getitem_inv in Ha0; [tauto | lia].
Qed.

Lemma consume_addressable_witness :
  0 <= 2 < 2 ^ 2 /\ 2 ^ 2 <= len (some_tokens 5) /\ len (some_tokens 5) < 2 ^ (2 + 1) /\
  nth_error (some_tokens 5) (Z.to_nat 2) = Some [50].
Proof.
  apply (consume_addressable (zoo_session [true; false; true] []) (some_tokens 5)
           [50] [true; false] 2 2
           (EnhancedEncoder.set_bitstream (zoo_session [true; false; true] []) [true])).
  reflexivity.
Defined.

(** ** The shape of a stego text *)

Lemma picks_rest_len : forall lst bits tok rest,
  picks lst bits tok rest -> len rest <= len bits.
Proof.
  intros lst bits tok rest H. destruct (picks_split _ _ _ _ H) as [removed ->].
  rewrite len_app. pose proof (len_nonneg _ removed). lia.
Qed.

Lemma Trace_bounds : forall m E n e g bits toks c,
  Trace m E n e g bits toks c -> c <= len bits /\ (List.length toks <= n)%nat.
Proof.
  intros m E n e g bits toks c H. induction H; simpl.
  - lia.
  - apply picks_rest_len in H. lia.
  - lia.
  - lia.
  - apply picks_rest_len in H1. lia.
Qed.

(** X10: every text that [EnhancedEncoder.generate] returns is the
    space-joined list of the selected tokens, each taken from the entry
    points or from the sorted transitions of a context of the model, with
    one character [chr(97 + c)] appended to one of them, where the end key
    [c] is at least 1 and at most the length of the bitstream; the number of
    tokens is at most the number of steps taken. *)
Theorem stego_text_shape : forall m bits g fuel text E,
  EnhancedEncoder._get_entrypoints m = Ok E ->
  encode_enhanced m bits g fuel = Some (Ok text) ->
  exists toks i c,
    text = join_space (mark i c toks) /\
    (i < List.length toks <= fuel)%nat /\
    1 <= c <= len bits /\
    Forall (fun t => exists lst, candidate m E lst /\ In t lst) toks.
Proof.
  intros m bits g fuel text E HE H. unfold encode_enhanced in H.
  destruct (EnhancedEncoder.__init__ m bits g) as [s|e] eqn:Hi; [|discriminate].
  destruct (init_enc_inv _ _ _ _ Hi) as [E' [HE' Hs]].
  rewrite HE in HE'. injection HE' as <-.
  destruct (EnhancedEncoder.generate fuel s) as [[[t sf]|e]|] eqn:Hg; try discriminate.
  injection H as ->.
  assert (Hne : bits <> []).
  { intros ->. destruct fuel as [|fuel]; rewrite Hs in Hg; simpl in Hg; [discriminate|].
    rewrite empty_bitstream_step in Hg by reflexivity. discriminate. }
  apply generate_trace in Hg; [| now rewrite Hs | now rewrite Hs].
  destruct Hg as [n [toks [c [i [Hn [Ht [Hi' [Ho ->]]]]]]]].
  rewrite Hs in Ht, Hi', Ho. cbn in Ht, Hi', Ho.
  exists toks, i, c. rewrite Ho.
  pose proof (Trace_bounds _ _ _ _ _ _ _ _ Ht) as [Hc Hl].
  pose proof (Trace_key _ _ _ _ _ _ _ _ Ht).
  repeat split; try lia. eapply Trace_tokens; eassumption.
Qed.

Lemma stego_text_shape_witness :
  exists toks i c,
    tk "ab cat ran" = join_space (mark i c toks) /\
    (i < List.length toks <= 10)%nat /\
    1 <= c <= len [true; false; true] /\
    Forall (fun t => exists lst, candidate zoo_model [tk "the"; tk "a"] lst /\ In t lst) toks.
Proof.
  apply (stego_text_shape zoo_model [true; false; true] (always 0) 10); reflexivity.
Defined.

(** ** Runs of the Enhanced encoder that never produce a text *)

Lemma picks_narrow : forall lst bits tok rest,
  picks lst bits tok rest -> len lst < 2 -> rest = bits.
Proof.
  intros lst bits tok rest [Hne [-> _]] Hlt.
  assert (len lst = 1).
  { destruct lst; [congruence|]. rewrite len_cons in *. pose proof (len_nonneg _ lst). lia. }
  now replace (len lst) with 1.
Qed.

Lemma Trace_narrow : forall m E n e g bits toks c,
  Trace m E n e g bits toks c ->
  (forall lst, candidate m E lst -> len lst < 2) ->
  bits = [].
Proof.
  intros m E n e g bits toks c H Hn. induction H.
  - apply picks_narrow in H0; [congruence | apply Hn; now left].
  - apply picks_narrow in H; [| apply Hn; now left]. subst rest. auto.
  - auto.
  - apply picks_narrow in H2; [congruence | apply Hn; right; eauto].
  - apply picks_narrow in H1; [| apply Hn; right; eauto]. subst rest. auto.
Qed.

(** X11: a model that offers no choice (at most one entry point and at
    most one transition in every context) cannot carry any payload: no
    selection consumes a bit, and [EnhancedEncoder.generate] never returns
    a text, for any bitstream and any number of steps. *)
Theorem no_branching_no_text : forall m E bits g fuel text,
  EnhancedEncoder._get_entrypoints m = Ok E ->
  (forall lst, candidate m E lst -> len lst < 2) ->
  encode_enhanced m bits g fuel <> Some (Ok text).
Proof.
  intros m E bits g fuel text HE Hn H. unfold encode_enhanced in H.
  destruct (EnhancedEncoder.__init__ m bits g) as [s|e] eqn:Hi; [|discriminate].
  destruct (init_enc_inv _ _ _ _ Hi) as [E' [HE' Hs]].
  rewrite HE in HE'. injection HE' as <-.
  destruct (EnhancedEncoder.generate fuel s) as [[[t sf]|e]|] eqn:Hg; try discriminate.
  assert (Hne : bits <> []).
  { intros ->. destruct fuel as [|fuel]; rewrite Hs in Hg; simpl in Hg; [discriminate|].
    rewrite empty_bitstream_step in Hg by reflexivity. discriminate. }
  apply generate_trace in Hg; [| now rewrite Hs | now rewrite Hs].
  destruct Hg as [n [toks [c [i [_ [Ht _]]]]]].
  rewrite Hs in Ht. cbn in Ht. apply Trace_narrow in Ht; auto.
Qed.

Lemma no_branching_no_text_witness :
  encode_enhanced line_model [true; false] (always 0) 50 <> Some (Ok (tk "hello world")).
Proof.
  apply (no_branching_no_text line_model [tk "hello"]); [reflexivity|].
  intros lst [-> | [g H]]; [reflexivity|].
  unfold EnhancedEncoder._get_transitions, dict_item in H.
  cbn [line_model chain_model dict_get] in H.
  repeat match type of H with
         | context [if ?c then _ else _] =>
             destruct c; [cbn in H; injection H as <-; reflexivity|]
         end.
  discriminate.
Defined.

(** The two steps of the cycle. *)
Lemma loop_step : forall s t lst,
  let g := if state_size (EnhancedEncoder.model s) =? 1 then [t]
           else repeat BEGIN (Z.to_nat (state_size (EnhancedEncoder.model s) - 1)) ++ [t] in
  EnhancedEncoder.entrypoints s = [t] ->
  EnhancedEncoder._get_transitions (EnhancedEncoder.model s) (Some g) = Ok lst ->
  py_in str_eqb END lst = true ->
  EnhancedEncoder.finished s = false ->
  EnhancedEncoder.bitstream s <> [] ->
  EnhancedEncoder.bitstream_length s <> 0 ->
  EnhancedEncoder.exhausted s = true \/
  (EnhancedEncoder.exhausted s = false /\ EnhancedEncoder.current_gram s = Some g) ->
  exists v s',
    EnhancedEncoder.step s = Ok (v, s') /\
    EnhancedEncoder.model s' = EnhancedEncoder.model s /\
    EnhancedEncoder.entrypoints s' = [t] /\
    EnhancedEncoder.finished s' = false /\
    EnhancedEncoder.bitstream s' = EnhancedEncoder.bitstream s /\
    EnhancedEncoder.bitstream_length s' = EnhancedEncoder.bitstream_length s /\
    (EnhancedEncoder.exhausted s' = true \/
     (EnhancedEncoder.exhausted s' = false /\ EnhancedEncoder.current_gram s' = Some g)).
Proof.
  intros s t lst g HE Ht Hend Hf Hb Hl Hph.
  destruct s as [m bits n E cg toks ex fin ek r]. cbn in *. subst E fin.
  apply Z.eqb_neq in Hl.
  destruct Hph as [-> | [-> ->]].
  - unfold EnhancedEncoder.step, EnhancedEncoder._choose_entrypoint,
      EnhancedEncoder._consume_from_list. cbn.
    destruct bits as [|b bits]; [congruence|]. cbn. unfold py_div. rewrite Hl.
    eexists. eexists. split; [reflexivity|]. cbn. fold g. repeat split. now right.
  - unfold EnhancedEncoder.step, EnhancedEncoder._choose_next_token. cbn.
    fold g. rewrite Ht. cbn. rewrite Hend. cbn. unfold py_div. rewrite Hl.
    eexists. eexists. split; [reflexivity|]. cbn. repeat split. now left.
Qed.

(** With the stored length 0 the first step divides by zero. *)
Lemma first_step_zero_length : forall s t,
  EnhancedEncoder.entrypoints s = [t] ->
  EnhancedEncoder.finished s = false ->
  EnhancedEncoder.exhausted s = true ->
  EnhancedEncoder.bitstream s <> [] ->
  EnhancedEncoder.bitstream_length s = 0 ->
  EnhancedEncoder.step s = Err ZeroDivisionError.
Proof.
  intros s t HE Hf Hex Hb Hl.
  destruct s as [m bits n E cg toks ex fin ek r]. cbn in *. subst E fin ex n.
  unfold EnhancedEncoder.step, EnhancedEncoder._choose_entrypoint,
    EnhancedEncoder._consume_from_list. cbn.
  destruct bits as [|b bits]; [congruence|]. reflexivity.
Qed.

(** X12: on a non-empty bitstream, when the model has one entry point and
    END can follow it, [EnhancedEncoder.generate] never returns a text.
    The encoder emits the entry point, meets END and starts over, consuming
    no bit: unless the length of the bitstream is a multiple of 2^32, after
    any number of steps the session is not finished and no step has raised
    (the list of output tokens grows with every pass); when it is such a
    multiple, the stored [bitstream_length] is 0 and the first step raises
    [ZeroDivisionError]. *)
Theorem one_word_sentence_loops : forall m bits g t lst,
  bits <> [] ->
  EnhancedEncoder._get_entrypoints m = Ok [t] ->
  EnhancedEncoder._get_transitions m
    (Some (if state_size m =? 1 then [t]
           else repeat BEGIN (Z.to_nat (state_size m - 1)) ++ [t])) = Ok lst ->
  py_in str_eqb END lst = true ->
  (len bits mod 2 ^ 32 <> 0 ->
   forall fuel, encode_enhanced m bits g fuel = None) /\
  (len bits mod 2 ^ 32 = 0 ->
   forall fuel, encode_enhanced m bits g (S fuel) = Some (Err ZeroDivisionError)).
Proof.
  intros m bits g t lst Hne HE Ht Hend. split.
  - intros Hmod fuel. unfold encode_enhanced.
    unfold EnhancedEncoder.__init__. rewrite HE. cbn [bind].
    match goal with
    | |- context [EnhancedEncoder.generate fuel ?s0] => remember s0 as s eqn:Hs
    end.
    assert (Hinv : EnhancedEncoder.model s = m /\ EnhancedEncoder.entrypoints s = [t] /\
                   EnhancedEncoder.finished s = false /\ EnhancedEncoder.bitstream s <> [] /\
                   EnhancedEncoder.bitstream_length s <> 0 /\
                   (EnhancedEncoder.exhausted s = true \/
                    (EnhancedEncoder.exhausted s = false /\
                     EnhancedEncoder.current_gram s =
                     Some (if state_size m =? 1 then [t]
                           else repeat BEGIN (Z.to_nat (state_size m - 1)) ++ [t])))).
    { subst s. cbn. repeat split; auto. intro Hz. now apply c_int_zero in Hz. }
    clear Hs. enough (EnhancedEncoder.generate fuel s = None) as -> by reflexivity.
    revert s Hinv. induction fuel as [|fuel IH]; intros s [Hm [He [Hf [Hb [Hl Hph]]]]].
    + simpl. now rewrite Hf.
    + simpl. rewrite Hf. subst m.
      destruct (loop_step s t lst He Ht Hend Hf Hb Hl Hph)
        as [v [s' [-> [Hm' [He' [Hf' [Hb' [Hl' Hph']]]]]]]].
      apply IH. rewrite Hm', Hb', Hl'. repeat split; auto.
  - intros Hmod fuel. unfold encode_enhanced.
    unfold EnhancedEncoder.__init__. rewrite HE. cbn [bind].
    cbn [EnhancedEncoder.generate EnhancedEncoder.finished].
    rewrite (first_step_zero_length _ t); try reflexivity; try assumption.
    cbn. now apply c_int_zero.
Qed.

Lemma one_word_sentence_loops_witness :
  encode_enhanced the_a_model [true] (always 0) 1000 = None.
Proof.
  refine (proj1 (one_word_sentence_loops the_a_model [true] (always 0) (tk "a") [END]
                   _ _ _ _) _ 1000%nat);
    try reflexivity; try discriminate; vm_compute; discriminate.
Defined.

(** ** What a step of the Enhanced decoder changes, and why [solve] ends *)

Ltac crunch_all H :=
  repeat first
    [ inv_bind H
    | match type of H with
      | (if ?c then _ else _) = Ok _ => destruct c eqn:?
      | (let '(_, _) := ?x in _) = Ok _ => destruct x eqn:?
      | match ?x with _ => _ end = Ok _ => destruct x eqn:?
      end ];
  try discriminate.

Ltac frame_done H :=
  injection H as <-; cbn;
  repeat split;
  first [ reflexivity | eexists; reflexivity | exists []; symmetry; apply app_nil_r ].

Lemma enh_dec_entry_frame : forall s s',
  EnhancedDecoder._choose_entrypoint s = Ok s' ->
  EnhancedDecoder.model s' = EnhancedDecoder.model s /\
  EnhancedDecoder.stega_text s' = EnhancedDecoder.stega_text s /\
  EnhancedDecoder.entrypoints s' = EnhancedDecoder.entrypoints s /\
  EnhancedDecoder.finished s' = EnhancedDecoder.finished s /\
  EnhancedDecoder.index s' = EnhancedDecoder.index s /\
  EnhancedDecoder.exhausted s' = false /\
  exists added, EnhancedDecoder.output s' = EnhancedDecoder.output s ++ added.
Proof.
  intros s s' H. unfold EnhancedDecoder._choose_entrypoint in H.
  crunch_all H; frame_done H.
Qed.

Lemma enh_dec_next_frame : forall s s',
  EnhancedDecoder._choose_next_token s = Ok s' ->
  EnhancedDecoder.model s' = EnhancedDecoder.model s /\
  EnhancedDecoder.stega_text s' = EnhancedDecoder.stega_text s /\
  EnhancedDecoder.entrypoints s' = EnhancedDecoder.entrypoints s /\
  EnhancedDecoder.finished s' = EnhancedDecoder.finished s /\
  EnhancedDecoder.index s' = EnhancedDecoder.index s + 1 /\
  exists added, EnhancedDecoder.output s' = EnhancedDecoder.output s ++ added.
Proof.
  intros s s' H. unfold EnhancedDecoder._choose_next_token in H.
  crunch_all H; frame_done H.
Qed.

Lemma enh_dec_step_cases : forall s v s',
  EnhancedDecoder.step s = Ok (v, s') ->
  EnhancedDecoder.model s' = EnhancedDecoder.model s /\
  EnhancedDecoder.stega_text s' = EnhancedDecoder.stega_text s /\
  EnhancedDecoder.entrypoints s' = EnhancedDecoder.entrypoints s /\
  (exists added, EnhancedDecoder.output s' = EnhancedDecoder.output s ++ added) /\
  ((EnhancedDecoder.finished s' = true /\
    EnhancedDecoder.index s' = EnhancedDecoder.index s /\
    EnhancedDecoder.exhausted s' = EnhancedDecoder.exhausted s) \/
   (EnhancedDecoder.finished s' = EnhancedDecoder.finished s /\
    EnhancedDecoder.exhausted s = true /\ EnhancedDecoder.exhausted s' = false /\
    EnhancedDecoder.index s' = EnhancedDecoder.index s) \/
   (EnhancedDecoder.finished s' = EnhancedDecoder.finished s /\
    EnhancedDecoder.exhausted s = false /\
    EnhancedDecoder.index s < len (EnhancedDecoder.stega_text s) - 1 /\
    EnhancedDecoder.index s' = EnhancedDecoder.index s + 1)).
Proof.
  intros s v s' H. unfold EnhancedDecoder.step in H.
  destruct ((len (EnhancedDecoder.stega_text s) - 1 <=? EnhancedDecoder.index s)
            && negb (EnhancedDecoder.exhausted s)) eqn:E.
  - injection H as _ <-. cbn. repeat split; [exists []; symmetry; apply app_nil_r|].
    left. repeat split.
  - inv_bind H. inv_bind H. injection H as _ <-.
    destruct (EnhancedDecoder.exhausted s) eqn:Hex.
    + apply enh_dec_entry_frame in Ha. destruct Ha as [Hm [Ht [He [Hf [Hi [Hx Ho]]]]]].
      repeat split; auto. right. left. repeat split; auto.
    + apply enh_dec_next_frame in Ha. destruct Ha as [Hm [Ht [He [Hf [Hi Ho]]]]].
      repeat split; auto. right. right. repeat split; auto.
      rewrite andb_true_r in E. apply Z.leb_gt in E. lia.
Qed.

(** X13: a step of the Enhanced decoder that returns leaves the model,
    the token list and the entry points as they are, only appends to the
    output, and advances the index by at most one. *)
Theorem decoder_step_frame : forall s v s',
  EnhancedDecoder.step s = Ok (v, s') ->
  EnhancedDecoder.model s' = EnhancedDecoder.model s /\
  EnhancedDecoder.stega_text s' = EnhancedDecoder.stega_text s /\
  EnhancedDecoder.entrypoints s' = EnhancedDecoder.entrypoints s /\
  (exists added, EnhancedDecoder.output s' = EnhancedDecoder.output s ++ added) /\
  EnhancedDecoder.index s <= EnhancedDecoder.index s' <= EnhancedDecoder.index s + 1.
Proof.
  intros s v s' H. apply enh_dec_step_cases in H.
  destruct H as [Hm [Ht [He [Ho Hc]]]]. repeat split; auto;
    destruct Hc as [[_ [-> _]] | [[_ [_ [_ ->]]] | [_ [_ [_ ->]]]]]; lia.
Qed.

Lemma decoder_step_frame_witness :
  exists s v s',
    EnhancedDecoder.__init__ zoo_model (tk "ab cat ran") = Ok s /\
    EnhancedDecoder.step s = Ok (v, s') /\
    EnhancedDecoder.model s' = EnhancedDecoder.model s /\
    EnhancedDecoder.stega_text s' = EnhancedDecoder.stega_text s /\
    EnhancedDecoder.entrypoints s' = EnhancedDecoder.entrypoints s /\
    (exists added, EnhancedDecoder.output s' = EnhancedDecoder.output s ++ added) /\
    EnhancedDecoder.index s <= EnhancedDecoder.index s' <= EnhancedDecoder.index s + 1.
Proof.
  eexists. eexists. eexists. split; [reflexivity|].
  match goal with
  | |- EnhancedDecoder.step ?s = _ /\ _ =>
      split; [reflexivity|]; eapply (decoder_step_frame s)
  end.
  reflexivity.
Defined.

Lemma enh_solve_finished : forall fuel s,
  EnhancedDecoder.finished s = true ->
  EnhancedDecoder.solve fuel s = Some (Ok (EnhancedDecoder.output s, s)).
Proof. intros fuel s H. destruct fuel; simpl; now rewrite H. Qed.

Lemma enh_solve_terminates : forall fuel s,
  (steps_left (len (EnhancedDecoder.stega_text s)) (EnhancedDecoder.index s)
     (EnhancedDecoder.exhausted s) <= fuel)%nat ->
  exists r, EnhancedDecoder.solve fuel s = Some r.
Proof.
  induction fuel as [|fuel IH]; intros s Hm.
  - unfold steps_left in Hm. lia.
  - simpl. destruct (EnhancedDecoder.finished s) eqn:Hf; [eauto|].
    destruct (EnhancedDecoder.step s) as [[v s']|e] eqn:Hs; [|eauto].
    apply enh_dec_step_cases in Hs. destruct Hs as [_ [Ht [_ [_ Hc]]]].
    destruct Hc as [[Hf' _] | [[_ [Hx [Hx' Hi]]] | [_ [Hx [Hlt Hi]]]]].
    + rewrite enh_solve_finished by assumption. eauto.
    + apply IH. rewrite Ht, Hi, Hx'. rewrite Hx in Hm. unfold steps_left in *. lia.
    + apply IH. rewrite Ht, Hi. rewrite Hx in Hm. unfold steps_left in *.
      destruct (EnhancedDecoder.exhausted s'); lia.
Qed.

(** X14: [EnhancedDecoder.solve] always terminates, with the decoded
    bits or with an exception: for every model and text it is over within
    two steps per token of the text. *)
Theorem enhanced_decoder_terminates : forall m text,
  exists r, decode_enhanced m text (2 * List.length (split_space text)) = Some r.
Proof.
  intros m text. unfold decode_enhanced.
  destruct (EnhancedDecoder.__init__ m text) as [s|e] eqn:Hi; [|eauto].
  unfold EnhancedDecoder.__init__ in Hi. inv_bind Hi. injection Hi as <-.
  match goal with
  | |- context [EnhancedDecoder.solve ?f ?s0] =>
      destruct (enh_solve_terminates f s0) as [[[bits sf]|e] ->]; [|eauto|eauto]
  end.
  cbn. unfold steps_left, len.
  assert (split_space text <> []) by (destruct text as [|c cs]; simpl;
    [discriminate | destruct (c =? 32); [discriminate | destruct (split_space cs); discriminate]]).
  destruct (split_space text); [congruence|]. simpl List.length. lia.
Qed.

(** ** A text that does not start with an entry point *)

Lemma py_index_absent : forall (x : str) l,
  py_in str_eqb x l = false -> py_index str_eqb x l = Err ValueError.
Proof.
  intros x l. induction l as [|y l IH]; simpl; intro H; [reflexivity|].
  apply orb_false_elim in H. destruct H as [Hxy Hl].
  assert (str_eqb y x = false) as ->.
  { destruct (str_eqb y x) eqn:E; [|reflexivity].
    apply str_eqb_eq in E. subst y.
    assert (str_eqb x x = true) by now apply str_eqb_eq. congruence. }
  now rewrite IH.
Qed.

(** X15: the Enhanced decoder rejects a text whose first token is not an
    entry point, also after its last character is dropped as an end-key
    marker: [solve] raises [ValueError] at its first step, and [IndexError]
    when that token is the empty string. *)
Theorem unknown_first_token_rejected : forall m text E tok rest fuel,
  EnhancedDecoder._get_entrypoints m = Ok E ->
  split_space text = tok :: rest ->
  py_in str_eqb tok E = false ->
  py_in str_eqb (removelast tok) E = false ->
  decode_enhanced m text (S fuel) =
  Some (Err (match tok with [] => IndexError | _ => ValueError end)).
Proof.
  intros m text E tok rest fuel HE Hsp Hin Hin'.
  unfold decode_enhanced, EnhancedDecoder.__init__. rewrite HE. cbn [bind].
  cbn [EnhancedDecoder.solve EnhancedDecoder.finished].
  unfold EnhancedDecoder.step. cbn [EnhancedDecoder.exhausted negb].
  rewrite andb_false_r. unfold EnhancedDecoder._choose_entrypoint.
  cbn [EnhancedDecoder.stega_text EnhancedDecoder.index EnhancedDecoder.entrypoints
       EnhancedDecoder.endkey].
  rewrite Hsp. change (getitem (tok :: rest) 0) with (Ok tok). cbn [bind].
  rewrite Hin. cbn [negb].
  destruct tok as [|c0 tok0].
  - rewrite getitem_nil. reflexivity.
  - cbv iota. remember (c0 :: tok0) as tok eqn:Htok.
    assert (Hne : tok <> []) by (rewrite Htok; discriminate).
    assert (getitem tok (-1) = Ok (last tok 0)) as ->
      by (rewrite (app_removelast_last 0 Hne) at 1; apply getitem_last).
    assert (slice_to tok (-1) = removelast tok) as ->
      by (rewrite (app_removelast_last 0 Hne) at 1; apply slice_to_last).
    cbn [bind]. rewrite py_index_absent by assumption. reflexivity.
Qed.

Lemma unknown_first_token_rejected_witness :
  decode_enhanced zoo_model (tk "zebra ran") 3 = Some (Err ValueError) /\
  decode_enhanced zoo_model [] 1 = Some (Err IndexError).
Proof.
  split.
  - apply (unknown_first_token_rejected zoo_model (tk "zebra ran") [tk "the"; tk "a"]
             (tk "zebra") [tk "ran"] 2); reflexivity.
  - apply (unknown_first_token_rejected zoo_model [] [tk "the"; tk "a"] [] [] 0);
      reflexivity.
Defined.

(** ** The decoder of the Existing family *)

Lemma ex_dec_step_cases : forall cb s v s',
  ExistingDecoder.step cb s = Ok (v, s') ->
  ExistingDecoder.model s' = ExistingDecoder.model s /\
  ExistingDecoder.stega_text s' = ExistingDecoder.stega_text s /\
  ExistingDecoder.entrypoints s' = ExistingDecoder.entrypoints s /\
  (exists added, ExistingDecoder.output s' = ExistingDecoder.output s ++ added) /\
  ((ExistingDecoder.finished s' = true /\
    ExistingDecoder.index s' = ExistingDecoder.index s /\
    ExistingDecoder.exhausted s' = ExistingDecoder.exhausted s) \/
   (ExistingDecoder.finished s' = ExistingDecoder.finished s /\
    ExistingDecoder.exhausted s = true /\ ExistingDecoder.exhausted s' = false /\
    ExistingDecoder.index s' = ExistingDecoder.index s) \/
   (ExistingDecoder.finished s' = ExistingDecoder.finished s /\
    ExistingDecoder.exhausted s = false /\
    ExistingDecoder.index s < len (ExistingDecoder.stega_text s) - 1 /\
    ExistingDecoder.index s' = ExistingDecoder.index s + 1)).
Proof.
  intros cb s v s' H. unfold ExistingDecoder.step in H.
  destruct ((len (ExistingDecoder.stega_text s) - 1 <=? ExistingDecoder.index s)
            && negb (ExistingDecoder.exhausted s)) eqn:E.
  - injection H as _ <-. cbn. repeat split; [exists []; symmetry; apply app_nil_r|].
    left. repeat split.
  - inv_bind H. inv_bind H. injection H as _ <-.
    destruct (ExistingDecoder.exhausted s) eqn:Hex.
    + inv_bind Ha. injection Ha as <-. cbn.
      repeat split; [exists []; symmetry; apply app_nil_r|].
      right. left. repeat split; auto.
    + rewrite andb_true_r in E. apply Z.leb_gt in E.
      inv_bind Ha. inv_bind Ha. inv_bind Ha. destruct a3 as [[nt bs] ex].
      injection Ha as <-. cbn.
      do 3 (split; [reflexivity|]). split; [eexists; reflexivity|].
      right. right. repeat split; auto.
Qed.

Lemma ex_solve_finished : forall cb fuel s,
  ExistingDecoder.finished s = true ->
  ExistingDecoder.solve cb fuel s = Some (Ok (ExistingDecoder.output s, s)).
Proof. intros cb fuel s H. destruct fuel; simpl; now rewrite H. Qed.

Lemma ex_solve_terminates : forall cb fuel s,
  (steps_left (len (ExistingDecoder.stega_text s)) (ExistingDecoder.index s)
     (ExistingDecoder.exhausted s) <= fuel)%nat ->
  exists r, ExistingDecoder.solve cb fuel s = Some r.
Proof.
  intros cb. induction fuel as [|fuel IH]; intros s Hm.
  - unfold steps_left in Hm. lia.
  - simpl. destruct (ExistingDecoder.finished s) eqn:Hf; [eauto|].
    destruct (ExistingDecoder.step cb s) as [[v s']|e] eqn:Hs; [|eauto].
    apply ex_dec_step_cases in Hs. destruct Hs as [_ [Ht [_ [_ Hc]]]].
    destruct Hc as [[Hf' _] | [[_ [Hx [Hx' Hi]]] | [_ [Hx [Hlt Hi]]]]].
    + rewrite ex_solve_finished by assumption. eauto.
    + apply IH. rewrite Ht, Hi, Hx'. rewrite Hx in Hm. unfold steps_left in *. lia.
    + apply IH. rewrite Ht, Hi. rewrite Hx in Hm. unfold steps_left in *.
      destruct (ExistingDecoder.exhausted s'); lia.
Qed.

(** X16: [ExistingDecoder.solve] always terminates, with the decoded bits
    or with an exception, for every code book, model and text: it is over
    within two steps per token of the text. *)
Theorem existing_decoder_terminates : forall cb m text,
  exists r, decode_existing cb m text (2 * List.length (split_space text)) = Some r.
Proof.
  intros cb m text. unfold decode_existing.
  destruct (ExistingDecoder.__init__ m text) as [s|e] eqn:Hi; [|eauto].
  unfold ExistingDecoder.__init__ in Hi. inv_bind Hi. injection Hi as <-.
  match goal with
  | |- context [ExistingDecoder.solve cb ?f ?s0] =>
      destruct (ex_solve_terminates cb f s0) as [[[bits sf]|e] ->]; [|eauto|eauto]
  end.
  cbn. unfold steps_left, len.
  pose proof (split_space_nonempty text).
  destruct (split_space text); [congruence|]. simpl List.length. lia.
Qed.

(** X17: the constructor of [ExistingDecoder] raises [IndexError] when a
    key of the model that contains START has fewer than two elements, as the
    keys of a model of state size 1 do. *)
Theorem existing_decoder_short_key : forall m text key,
  In key (keys (chain_model m)) ->
  py_in str_eqb BEGIN key = true ->
  len key < 2 ->
  ExistingDecoder.__init__ m text = Err IndexError.
Proof.
  intros m text key Hin Hb Hlen. unfold ExistingDecoder.__init__.
  rewrite (mapM_getitem_fails _ 1 key); [reflexivity | |].
  - apply filter_In. split; assumption.
  - unfold getitem. cbn. change (Pos.to_nat 1) with 1%nat.
    destruct (nth_error key 1) eqn:E; [|reflexivity].
    assert (nth_error key 1 <> None) as Hn by congruence.
    apply nth_error_Some in Hn. unfold len in Hlen. lia.
Qed.

Lemma existing_decoder_short_key_witness :
  ExistingDecoder.__init__ ab_model (tk "a") = Err IndexError.
Proof.
  apply (existing_decoder_short_key ab_model (tk "a") [BEGIN]).
  - left. reflexivity.
  - reflexivity.
  - reflexivity.
Defined.

(** ** The encoder of the Existing family *)

Lemma search_found : forall code bits d tok c,
  ExistingEncoder.search code bits d = Some (tok, c) ->
  1 <= c <= Z.of_nat d /\ c < len bits /\
  dict_get bits_eqb (slice_to bits c) code = Some tok /\
  forall j, c < j <= Z.of_nat d -> j < len bits ->
            dict_get bits_eqb (slice_to bits j) code = None.
Proof.
  intros code bits d tok c. induction d as [|d IH]; intro H; [discriminate|].
  cbn [ExistingEncoder.search] in H.
  destruct (len bits <=? Z.of_nat (S d)) eqn:Hle.
  - apply Z.leb_le in Hle. destruct (IH H) as [Hc [Hlt [Hg Hmax]]].
    repeat split; try lia; try assumption.
    intros j Hj Hjl. apply Hmax; lia.
  - apply Z.leb_gt in Hle.
    destruct (dict_get bits_eqb (slice_to bits (Z.of_nat (S d))) code) as [tok'|] eqn:Hg.
    + injection H as <- <-. repeat split; try lia; try assumption.
    + destruct (IH H) as [Hc [Hlt [Hg' Hmax]]].
      repeat split; try lia; try assumption.
      intros j Hj Hjl. destruct (Z.eq_dec j (Z.of_nat (S d))) as [->|Hne]; [assumption|].
      apply Hmax; lia.
Qed.

Lemma search_none : forall code bits d,
  ExistingEncoder.search code bits d = None ->
  forall j, 1 <= j <= Z.of_nat d -> j < len bits ->
            dict_get bits_eqb (slice_to bits j) code = None.
Proof.
  intros code bits d. induction d as [|d IH]; intros H j Hj Hjl; [lia|].
  cbn [ExistingEncoder.search] in H.
  destruct (len bits <=? Z.of_nat (S d)) eqn:Hle.
  - apply Z.leb_le in Hle. apply IH; [assumption | lia | assumption].
  - destruct (dict_get bits_eqb (slice_to bits (Z.of_nat (S d))) code) as [tok'|] eqn:Hg;
      [discriminate|].
    destruct (Z.eq_dec j (Z.of_nat (S d))) as [->|Hne]; [assumption|].
    apply IH; [assumption | lia | assumption].
Qed.

(** X18: the search loop of [ExistingEncoder.step] finds the longest code
    word, of at most [tree_depth] bits, that is a proper prefix of the
    remaining bitstream: the count it breaks with is at least 1 and smaller
    than the length of the bitstream, and no longer proper prefix within
    [tree_depth] is a code word; when it runs to its [else], no proper
    prefix within [tree_depth] is a code word. *)
Theorem search_longest_match : forall code bits d,
  match ExistingEncoder.search code bits d with
  | Some (tok, c) =>
      1 <= c <= Z.of_nat d /\ c < len bits /\
      dict_get bits_eqb (slice_to bits c) code = Some tok /\
      forall j, c < j <= Z.of_nat d -> j < len bits ->
                dict_get bits_eqb (slice_to bits j) code = None
  | None =>
      forall j, 1 <= j <= Z.of_nat d -> j < len bits ->
                dict_get bits_eqb (slice_to bits j) code = None
  end.
Proof.
  intros code bits d.
  destruct (ExistingEncoder.search code bits d) as [[tok c]|] eqn:H.
  - now apply search_found.
  - now apply search_none.
Qed.

Lemma slice_from_part : forall (A : Type) (l : list A) c,
  1 <= c < len l ->
  slice_from l c <> [] /\ exists pre, l = pre ++ slice_from l c.
Proof.
  intros A l c Hc. rewrite slice_from_nonneg by lia. split.
  - intro H. apply (f_equal (@List.length A)) in H. rewrite length_skipn in H.
    unfold len in Hc. simpl in H. lia.
  - exists (firstn (Z.to_nat c) l). symmetry. apply firstn_skipn.
Qed.

Lemma ex_enc_step_cases : forall cb s v s',
  ExistingEncoder.finished s = false ->
  ExistingEncoder.bitstream s <> [] ->
  ExistingEncoder.step cb s = Ok (v, s') ->
  (ExistingEncoder.finished s' = false /\
   ExistingEncoder.bitstream s' <> [] /\
   (exists pre, ExistingEncoder.bitstream s = pre ++ ExistingEncoder.bitstream s') /\
   (exists toks, ExistingEncoder.output_tokens s' = ExistingEncoder.output_tokens s ++ toks))
  \/
  (ExistingEncoder.finished s' = true /\
   ExistingEncoder.bitstream s' = [] /\
   ExistingEncoder.output_tokens s' =
   ExistingEncoder.output_tokens s ++ [literal_token (ExistingEncoder.bitstream s)]).
Proof.
  intros cb s v s' Hf Hb H. unfold ExistingEncoder.step in H. rewrite Hf in H.
  inv_bind H. cbv zeta in H. inv_bind H. injection H as _ <-. clear Ha0.
  destruct (ExistingEncoder.exhausted s) eqn:Hex.
  - inv_bind Ha. destruct a1 as [g r]. inv_bind Ha. injection Ha as <-. cbn.
    destruct (ExistingEncoder.bitstream s) eqn:Eb; [congruence|]. cbn.
    left. repeat split; [discriminate | now exists [] | eauto].
  - inv_bind Ha. inv_bind Ha. destruct a2 as [[next_token bits] c'].
    assert (Hbits :
      (bits <> [] /\ exists pre, ExistingEncoder.bitstream s = pre ++ bits) \/
      (bits = [] /\ next_token = literal_token (ExistingEncoder.bitstream s))).
    { rename Ha1 into Hsel. destruct (1 <? len a1).
      - apply bind_Ok in Hsel. destruct Hsel as [depth [Hd Hsel]].
        destruct (ExistingEncoder.search _ (ExistingEncoder.bitstream s) (Z.to_nat depth))
          as [[tok c]|] eqn:Hs.
        + injection Hsel as <- <- _. apply search_found in Hs.
          left. apply slice_from_part. lia.
        + injection Hsel as <- <- _. right. split; [apply slice_from_all | reflexivity].
      - apply bind_Ok in Hsel. destruct Hsel as [nt [Hnt Hsel]].
        injection Hsel as _ <- _. left. split; [assumption | now exists []]. }
    destruct Hbits as [[Hne Hpre] | [-> ->]].
    + left. destruct (negb (str_eqb next_token END)); injection Ha as <-; cbn;
        (destruct bits; [congruence|]); cbn;
        (repeat split; [discriminate | assumption | ]).
      * eauto.
      * exists []. symmetry. apply app_nil_r.
    + right. rewrite literal_not_END in Ha. cbn in Ha. injection Ha as <-. cbn.
      repeat split.
Qed.

Lemma ex_generate_literal : forall cb fuel s text sf,
  ExistingEncoder.finished s = false ->
  ExistingEncoder.bitstream s <> [] ->
  ExistingEncoder.generate cb fuel s = Some (Ok (text, sf)) ->
  exists toks pre tail,
    ExistingEncoder.bitstream s = pre ++ tail /\ tail <> [] /\
    text = join_space (ExistingEncoder.output_tokens s ++ toks ++ [literal_token tail]).
Proof.
  intros cb. induction fuel as [|fuel IH]; intros s text sf Hf Hb H.
  - simpl in H. rewrite Hf in H. discriminate.
  - simpl in H. rewrite Hf in H.
    destruct (ExistingEncoder.step cb s) as [[v s']|e] eqn:Hs; [|discriminate].
    destruct (ex_enc_step_cases _ _ _ _ Hf Hb Hs)
      as [[Hf' [Hb' [[pre Hpre] [toks Ht]]]] | [Hf' [Hb' Ht]]].
    + destruct (IH _ _ _ Hf' Hb' H) as [toks' [pre' [tail [Hp [Hne ->]]]]].
      exists (toks ++ toks'), (pre ++ pre'), tail.
      rewrite Hpre, Hp, Ht, !app_assoc. repeat split; auto.
    + destruct fuel; simpl in H; rewrite Hf' in H; injection H as <- <-;
        exists [], [], (ExistingEncoder.bitstream s);
        (repeat split; [assumption | unfold ExistingEncoder.output; now rewrite Ht]).
Qed.

Lemma ex_empty_step : forall cb s,
  ExistingEncoder.finished s = false -> ExistingEncoder.exhausted s = true ->
  ExistingEncoder.bitstream s = [] -> ExistingEncoder.bitstream_length s = 0 ->
  ExistingEncoder.step cb s = Err IndexError \/
  ExistingEncoder.step cb s = Err ZeroDivisionError.
Proof.
  intros cb s Hf Hx Hb Hl. unfold ExistingEncoder.step. rewrite Hf, Hx.
  destruct (choice (ExistingEncoder.entrypoints s) (ExistingEncoder.rng s))
    as [[g r]|e] eqn:Hc.
  - cbn [bind]. destruct (getitem g 1) as [tok|e] eqn:Hg.
    + cbn. rewrite Hb. cbn. rewrite Hl. now right.
    + cbn. left. unfold getitem in Hg. cbn in Hg.
      destruct (nth_error g (Pos.to_nat 1)); [discriminate | congruence].
  - cbn. left. unfold choice in Hc.
    destruct (nth_error _ _); congruence.
Qed.

(** X19: every text that [ExistingEncoder.generate] returns ends with
    the literal escape token: its last token is a non-empty tail of the
    payload, written out as binary digits between angle brackets. *)
Theorem existing_text_ends_with_literal : forall cb m bits g fuel text,
  encode_existing cb m bits g fuel = Some (Ok text) ->
  exists toks pre tail,
    bits = pre ++ tail /\ tail <> [] /\
    text = join_space (toks ++ [literal_token tail]).
Proof.
  intros cb m bits g fuel text H. unfold encode_existing, ExistingEncoder.__init__ in H.
  match type of H with
  | context [ExistingEncoder.generate cb fuel ?s0] => remember s0 as s eqn:Hs
  end.
  destruct (ExistingEncoder.generate cb fuel s) as [[[t sf]|e]|] eqn:Hg; try discriminate.
  injection H as ->.
  assert (Hne : bits <> []).
  { intros ->. destruct fuel as [|fuel]; rewrite Hs in Hg; simpl in Hg; [discriminate|].
    match type of Hg with
    | context [ExistingEncoder.step cb ?s0] =>
        destruct (ex_empty_step cb s0) as [He | He]; try reflexivity;
          rewrite He in Hg; discriminate
    end. }
  apply ex_generate_literal in Hg; [| now rewrite Hs | now rewrite Hs].
  destruct Hg as [toks [pre [tail [Hp [Ht ->]]]]]. rewrite Hs in *. cbn in *.
  exists toks, pre, tail. auto.
Qed.

(** The text for the one-bit payload 0 on [go_model], for every code book
    that has a code for the transitions of [go]. *)
Lemma existing_text_ends_with_literal_witness :
  literal_token [false] = tk "<0>" /\
  (exists cb : codebook_fn, cb [(tk "on.", 1); (tk "up.", 1)] <> []) /\
  forall cb : codebook_fn,
    cb [(tk "on.", 1); (tk "up.", 1)] <> [] ->
    exists toks pre tail,
      [false] = pre ++ tail /\ tail <> [] /\
      tk "go <0>" = join_space (toks ++ [literal_token tail]).
Proof.
  split; [reflexivity|].
  split; [exists (fun tm => map (fun kv => (fst kv, [])) tm); discriminate|].
  intros cb Hcb.
  apply (existing_text_ends_with_literal cb go_model [false] (always 0) 2).
  now apply go_encodes_one_bit.
Defined.

(** X20: [ExistingEncoder.generate] on the empty payload raises at its
    first step, for every model, code book and random source: [IndexError]
    when no entry context can be chosen or the chosen one has no element 1,
    and [ZeroDivisionError] otherwise (the progress value divides by
    [bitstream_length = 0]). *)
Theorem existing_empty_payload : forall cb m g fuel,
  encode_existing cb m [] g (S fuel) = Some (Err IndexError) \/
  encode_existing cb m [] g (S fuel) = Some (Err ZeroDivisionError).
Proof.
  intros cb m g fuel. unfold encode_existing, ExistingEncoder.__init__.
  cbn [ExistingEncoder.generate ExistingEncoder.finished].
  match goal with
  | |- context [ExistingEncoder.step cb ?s0] =>
      destruct (ex_empty_step cb s0) as [He | He]; try reflexivity; rewrite He; auto
  end.
Qed.

Lemma choice_nil : forall (A : Type) g, choice (@nil A) g = Err IndexError.
Proof. intros A g. unfold choice. now destruct (Z.to_nat _). Qed.

(** X21: when at most one key of the model contains START, as in every
    model of state size 1, the Existing encoder has no entry points (the
    first such key is dropped) and its first step raises [IndexError]. *)
Theorem existing_encoder_no_entry : forall cb m bits g s,
  ExistingEncoder.__init__ m bits g = Ok s ->
  len (filter (py_in str_eqb BEGIN) (keys (chain_model m))) <= 1 ->
  ExistingEncoder.step cb s = Err IndexError.
Proof.
  intros cb m bits g s Hi Hk. unfold ExistingEncoder.__init__ in Hi.
  injection Hi as <-. unfold ExistingEncoder.step.
  cbn [ExistingEncoder.finished ExistingEncoder.exhausted ExistingEncoder.entrypoints].
  destruct (filter (py_in str_eqb BEGIN) (keys (chain_model m))) as [|k [|k' l]].
  - cbn [tl]. now rewrite choice_nil.
  - cbn [tl]. now rewrite choice_nil.
  - rewrite !len_cons in Hk. pose proof (len_nonneg _ l). lia.
Qed.

Lemma existing_encoder_no_entry_witness :
  exists s, ExistingEncoder.__init__ ab_model [true] (always 0) = Ok s /\
            forall cb, ExistingEncoder.step cb s = Err IndexError.
Proof.
  eexists. split; [reflexivity|]. intro cb.
  apply (existing_encoder_no_entry cb ab_model [true] (always 0));
    [reflexivity | vm_compute; discriminate].
Defined.

(** ** Hiding a file and recovering it *)

Lemma encode_then_decode : forall m bits g fuel text,
  marker_safe m = true ->
  encode_enhanced m bits g fuel = Some (Ok text) ->
  decode_enhanced m text (S fuel) = Some (Ok bits).
Proof.
  intros m bits g fuel text Hsafe Henc.
  destruct (marker_safe_spec m Hsafe) as [E [HE [HE2 Hcand]]].
  unfold encode_enhanced in Henc.
  destruct (EnhancedEncoder.__init__ m bits g) as [s|] eqn:Hinit; [|discriminate].
  destruct (init_enc_inv _ _ _ _ Hinit) as [E' [HE' Hs]].
  rewrite HE in HE'. injection HE' as <-.
  destruct (EnhancedEncoder.generate fuel s) as [[[text' sf]|]|] eqn:Hgen;
    try discriminate. injection Henc as ->.
  assert (Hb : bits <> []).
  { intros ->. destruct fuel as [|fuel]; subst s; [discriminate|].
    simpl in Hgen. rewrite empty_bitstream_step in Hgen by reflexivity. discriminate. }
  apply generate_trace in Hgen; [| subst s; reflexivity | subst s; exact Hb].
  destruct Hgen as [n [toks [c [i [Hn [Htr [Hi [Ho Htx]]]]]]]].
  subst s. simpl in Htr, Hi, Ho. rewrite Ho in Htx.
  pose proof (Trace_nonempty _ _ _ _ _ _ _ _ Htr) as Hne.
  pose proof (Trace_key _ _ _ _ _ _ _ _ Htr) as Hc.
  assert (Hsp : Forall (fun t => ~ In 32 t) toks).
  { eapply Forall_impl; [|exact (Trace_tokens _ _ _ _ _ _ _ _ Htr)].
    intros t [lst [Hl Ht]]. apply (list_ok_spec lst (Hcand lst Hl)). exact Ht. }
  assert (Hsplit : split_space text = mark i c toks).
  { subst text. apply split_join.
    - intro Hnil. apply (f_equal (@List.length str)) in Hnil.
      rewrite mark_length in Hnil. destruct toks; [congruence | discriminate].
    - apply replace_nth_Forall; [assumption|].
      intro H32. apply in_app_or in H32. destruct H32 as [H32 | [H32 | []]]; [|lia].
      rewrite Forall_forall in Hsp. apply (Hsp (nth i toks [])); [|assumption].
      apply nth_In. exact Hi. }
  unfold decode_enhanced, EnhancedDecoder.__init__.
  change (EnhancedDecoder._get_entrypoints m) with (EnhancedEncoder._get_entrypoints m).
  rewrite HE. cbn [bind]. rewrite Hsplit.
  match goal with |- context [EnhancedDecoder.solve _ ?sd0] =>
    destruct (trace_decodes m E toks i n true None bits toks c Htr Hcand HE2 Hi [] sd0)
      as [sd' Hsd']; try reflexivity; [simpl; lia|]
  end.
  rewrite (solve_more _ (S fuel) _ _ Hsd') by lia. reflexivity.
Qed.

(** X22: on a marker-safe model, when the Enhanced encoder returns a stego
    text for the bitstream of a file, decoding the text and writing the bits
    with [bitstream_to_file] gives back the bytes of the file, whichever
    token the random source picks for the end key. *)
Theorem hide_then_recover_file : forall m file_data g fuel text,
  marker_safe m = true ->
  hide_file m file_data g fuel = Some (Ok text) ->
  recover_file m text (S fuel) = Some (Ok file_data).
Proof.
  intros m data g fuel text Hsafe H. unfold hide_file in H. unfold recover_file.
  rewrite (encode_then_decode _ _ _ _ _ Hsafe H). now rewrite bytes_bits_bytes.
Qed.

Lemma hide_then_recover_file_witness :
  hide_file zoo_model [Byte.x41] (always 3) 20 = Some (Ok (tk "the cat sat theb dog sat the cat")) /\
  recover_file zoo_model (tk "the cat sat theb dog sat the cat") 21 = Some (Ok [Byte.x41]).
Proof.
  split; [vm_compute; reflexivity|].
  apply (hide_then_recover_file zoo_model [Byte.x41] (always 3) 20); vm_compute; reflexivity.
Defined.

(** X23: on a marker-safe model, [validate_bitstreams] finds no mismatch
    between a payload that the Enhanced encoder has encoded and the bits the
    Enhanced decoder returns for the text. *)
Theorem decoded_payload_validates : forall m bits g fuel text,
  marker_safe m = true ->
  encode_enhanced m bits g fuel = Some (Ok text) ->
  exists out, decode_enhanced m text (S fuel) = Some (Ok out) /\
              validate_bitstreams bits out = [].
Proof.
  intros m bits g fuel text Hsafe H. exists bits.
  split; [exact (encode_then_decode _ _ _ _ _ Hsafe H) | apply validate_same].
Qed.

Lemma decoded_payload_validates_witness :
  exists out,
    decode_enhanced zoo_model (tk "ab cat ran") 11 = Some (Ok out) /\
    validate_bitstreams [true; false; true] out = [].
Proof.
  apply (decoded_payload_validates zoo_model [true; false; true] (always 0) 10);
    vm_compute; reflexivity.
Defined.

(** ** Steps of the Enhanced encoder that return *)

Lemma consume_ok : forall s lst,
  lst <> [] -> EnhancedEncoder.bitstream s <> [] ->
  exists tok idx,
    EnhancedEncoder._consume_from_list s lst =
    Ok (tok, firstn (Z.to_nat (Z.log2 (len lst))) (EnhancedEncoder.bitstream s),
        Z.log2 (len lst), idx,
        EnhancedEncoder.set_bitstream s
          (skipn (Z.to_nat (Z.log2 (len lst))) (EnhancedEncoder.bitstream s))).
Proof.
  intros s lst Hne Hb. pose proof (len_pos _ lst Hne) as Hn.
  pose proof (Z.log2_nonneg (len lst)) as Hnn.
  pose proof (len_firstn _ (EnhancedEncoder.bitstream s) _ Hnn) as Hlen.
  unfold EnhancedEncoder._consume_from_list, ceil_log2.
  destruct (len lst <=? 0) eqn:E0; [apply Z.leb_le in E0; lia|]. cbn [bind].
  rewrite canonical_length by assumption.
  rewrite slice_to_nonneg, slice_from_nonneg by assumption.
  destruct (Z.log2 (len lst) =? 0) eqn:E.
  - cbn [bind]. destruct (getitem_ok _ lst 0 ltac:(lia)) as [tok Htok].
    exists tok, 0. rewrite Htok. reflexivity.
  - apply Z.eqb_neq in E.
    destruct (int2 (firstn (Z.to_nat (Z.log2 (len lst))) (EnhancedEncoder.bitstream s)))
      as [idx|e] eqn:Ei.
    + cbn [bind]. pose proof (int2_bound _ _ Ei) as Hidx. rewrite Hlen in Hidx.
      pose proof (Z.log2_spec (len lst) ltac:(lia)) as Hspec.
      assert (Hpow : 2 ^ Z.min (Z.log2 (len lst)) (len (EnhancedEncoder.bitstream s))
                     <= 2 ^ Z.log2 (len lst)).
      { apply Z.pow_le_mono_r; [lia|].
        pose proof (len_nonneg _ (EnhancedEncoder.bitstream s)). lia. }
      destruct (getitem_ok _ lst idx ltac:(lia)) as [tok Htok].
      exists tok, idx. rewrite Htok. reflexivity.
    + exfalso. unfold int2 in Ei.
      destruct (EnhancedEncoder.bitstream s) as [|b bs]; [congruence|].
      destruct (Z.to_nat (Z.log2 (len lst))) eqn:En; [lia | discriminate Ei].
Qed.

Lemma inject_after_emit : forall s g tok removed,
  len removed + 97 < 1114112 ->
  exists s1, EnhancedEncoder._inject_end_key (EnhancedEncoder.emit s g tok) removed = Ok s1 /\
             EnhancedEncoder.bitstream_length s1 = EnhancedEncoder.bitstream_length s.
Proof.
  intros s g tok removed Hr.
  destruct (inject_ok (EnhancedEncoder.emit s g tok) removed) as [i [t [_ [_ ->]]]].
  - cbn. destruct (EnhancedEncoder.output_tokens s); discriminate.
  - assumption.
  - eexists. split; reflexivity.
Qed.

Lemma firstn_short : forall (bits : list bool) n,
  len bits + 97 < 1114112 -> len (firstn n bits) + 97 < 1114112.
Proof.
  intros bits n H. unfold len in *. rewrite length_firstn. lia.
Qed.

(** X24: a step of the Enhanced encoder returns normally while bits
    remain, provided the model has what the step looks up: with a non-empty
    bitstream (of fewer than 1114015 bits, so that the end key is a code
    point) and a positive [bitstream_length], choosing an entry point
    succeeds whenever there is one, and choosing the next token succeeds
    whenever the current context is a key of the model with at least one
    transition.  In particular the index read from the bitstream is always
    within the list. *)
Theorem encoder_step_succeeds : forall s,
  EnhancedEncoder.finished s = false ->
  EnhancedEncoder.bitstream s <> [] ->
  EnhancedEncoder.bitstream_length s <> 0 ->
  len (EnhancedEncoder.bitstream s) + 97 < 1114112 ->
  (if EnhancedEncoder.exhausted s then EnhancedEncoder.entrypoints s <> []
   else exists lst,
       EnhancedEncoder._get_transitions (EnhancedEncoder.model s)
         (EnhancedEncoder.current_gram s) = Ok lst /\ lst <> []) ->
  exists v s', EnhancedEncoder.step s = Ok (v, s').
Proof.
  intros s Hf Hb Hl Hlen Hc.
  assert (Hs1 : exists s1,
    (if EnhancedEncoder.exhausted s then EnhancedEncoder._choose_entrypoint s
     else EnhancedEncoder._choose_next_token s) = Ok s1 /\
    EnhancedEncoder.bitstream_length s1 = EnhancedEncoder.bitstream_length s).
  { destruct (EnhancedEncoder.exhausted s).
    - unfold EnhancedEncoder._choose_entrypoint. cbv zeta.
      destruct (consume_ok (EnhancedEncoder.set_exhausted s false)
                  (EnhancedEncoder.entrypoints s) Hc Hb) as [tok [idx Hco]].
      change (EnhancedEncoder.entrypoints (EnhancedEncoder.set_exhausted s false))
        with (EnhancedEncoder.entrypoints s).
      rewrite Hco. cbn [bind].
      cbn [EnhancedEncoder.bitstream EnhancedEncoder.emit EnhancedEncoder.set_bitstream
           EnhancedEncoder.set_exhausted].
      destruct (skipn _ (EnhancedEncoder.bitstream s)).
      + cbv beta iota.
        match goal with
        | |- exists s1, EnhancedEncoder._inject_end_key (EnhancedEncoder.emit ?s0 ?g ?t) ?r
                        = Ok s1 /\ _ =>
            destruct (inject_after_emit s0 g t r) as [s1 [-> Hbl]];
              [now apply firstn_short | exists s1; split; [reflexivity | exact Hbl]]
        end.
      + eexists. split; reflexivity.
    - destruct Hc as [lst [Ht Hne]].
      unfold EnhancedEncoder._choose_next_token. rewrite Ht. cbn [bind].
      destruct (py_in str_eqb END lst); [eexists; split; reflexivity|].
      destruct (consume_ok s lst Hne Hb) as [tok [idx Hco]].
      rewrite Hco. cbn [bind].
      cbn [EnhancedEncoder.bitstream EnhancedEncoder.emit EnhancedEncoder.set_bitstream].
      destruct (skipn _ (EnhancedEncoder.bitstream s)).
      + cbv beta iota.
        match goal with
        | |- exists s1, EnhancedEncoder._inject_end_key (EnhancedEncoder.emit ?s0 ?g ?t) ?r
                        = Ok s1 /\ _ =>
            destruct (inject_after_emit s0 g t r) as [s1 [-> Hbl]];
              [now apply firstn_short | exists s1; split; [reflexivity | exact Hbl]]
        end.
      + eexists. split; reflexivity. }
  destruct Hs1 as [s1 [Hs1 Hbl]].
  unfold EnhancedEncoder.step. rewrite Hf, Hs1. cbn [bind]. unfold py_div. rewrite Hbl.
  apply Z.eqb_neq in Hl. rewrite Hl. cbn [bind]. eauto.
Qed.

Lemma encoder_step_succeeds_witness :
  exists v s', EnhancedEncoder.step (zoo_session [true; false; true] []) = Ok (v, s').
Proof.
  apply (encoder_step_succeeds (zoo_session [true; false; true] []));
    try reflexivity; discriminate.
Defined.

(** ** A single entry point *)

(** X25: with a single entry point the two sides disagree on the width of
    the entry selection: [_consume_from_list] takes the entry point without
    removing a bit from the bitstream, while the decoder, reading that entry
    point at a position that is not the last token, appends one 0 to its
    output. *)
Theorem single_entry_point_asymmetry : forall t se sd,
  EnhancedEncoder.entrypoints se = [t] ->
  EnhancedDecoder.entrypoints sd = [t] ->
  getitem (EnhancedDecoder.stega_text sd) (EnhancedDecoder.index sd) = Ok t ->
  EnhancedDecoder.index sd <> len (EnhancedDecoder.stega_text sd) - 1 ->
  EnhancedEncoder._consume_from_list se (EnhancedEncoder.entrypoints se)
  = Ok (t, [], 0, 0, EnhancedEncoder.set_bitstream se (EnhancedEncoder.bitstream se)) /\
  exists sd', EnhancedDecoder._choose_entrypoint sd = Ok sd' /\
              EnhancedDecoder.output sd' = EnhancedDecoder.output sd ++ [false].
Proof.
  intros t se sd He Hd Htok Hidx. split.
  - rewrite He. unfold EnhancedEncoder._consume_from_list. cbn.
    unfold slice_to, slice_from. cbn. reflexivity.
  - unfold EnhancedDecoder._choose_entrypoint. rewrite Htok, Hd. cbn [bind].
    cbn [py_in existsb]. rewrite str_eqb_refl. cbn [orb negb bind py_index].
    rewrite str_eqb_refl. cbn [bind]. apply Z.eqb_neq in Hidx.
    change (len [t]) with 1. change (ceil_log2 1) with (Ok 0). cbn [bind].
    change (1 <? 2 ^ 0) with false. cbv iota. rewrite Hidx.
    eexists. split; [reflexivity|]. reflexivity.
Qed.

Lemma single_entry_point_asymmetry_witness :
  exists se sd,
    EnhancedEncoder.__init__ one_entry_model [true] (always 0) = Ok se /\
    EnhancedDecoder.__init__ one_entry_model (tk "y wb") = Ok sd /\
    EnhancedEncoder._consume_from_list se (EnhancedEncoder.entrypoints se)
    = Ok (tk "y", [], 0, 0, EnhancedEncoder.set_bitstream se (EnhancedEncoder.bitstream se)) /\
    exists sd', EnhancedDecoder._choose_entrypoint sd = Ok sd' /\
                EnhancedDecoder.output sd' = EnhancedDecoder.output sd ++ [false].
Proof.
  eexists. eexists. split; [reflexivity|]. split; [reflexivity|].
  apply single_entry_point_asymmetry; try reflexivity. discriminate.
Defined.
